(** * The analysis core of the AngelScript language server, embedded in Rocq

    The development follows the TypeScript sources under [server/src/compile]:

    - [TokenReserves]  embeds [tokenReserves.ts], the reserved-word registry;
    - [Symbolic]       embeds [symbolic.ts] in its later revision, the one
                       with symbol maps (symbol objects, overload chains,
                       template resolution, builtin types, scope lookup);
    - [SymbolicEarly]  embeds the earlier revision of [symbolic.ts] that the
                       file holds as well, the one with symbol lists;
    - [Parser]         embeds [parser.ts] (the cursor and the recursive descent).

    JavaScript objects that are mutated through several references live in an
    explicit store; loops and recursion that the source does not bound take a
    fuel argument, and a result is only claimed where enough fuel yields it. *)

From stdpp Require Import strings.
From stdpp Require Import base option list gmap.

Open Scope string_scope.
Open Scope list_scope.
Open Scope nat_scope.

(* ===================================================================== *)
(** ** Source locations and diagnostics *)
(* ===================================================================== *)

(** Modelled from the spec: [LocationInfo] of [tokens.ts] is not among the
    sources. A location is the start and the end position of a token in a
    file; the field [end] is spelled [end_] here. *)
Record Position := { line : nat; character : nat }.

Record LocationInfo := { path : string; start : Position; end_ : Position }.

Definition dummyLocation : LocationInfo :=
  {| path := ""; start := {| line := 0; character := 0 |};
     end_ := {| line := 0; character := 0 |} |}.

#[global] Instance Position_eq_dec : EqDecision Position.
Proof. solve_decision. Defined.

#[global] Instance LocationInfo_eq_dec : EqDecision LocationInfo.
Proof. solve_decision. Defined.

#[global] Instance Position_countable : Countable Position :=
  inj_countable' (λ p, (line p, character p))
                 (λ q, {| line := q.1; character := q.2 |})
                 (λ p, match p with Build_Position _ _ => eq_refl end).

#[global] Instance LocationInfo_countable : Countable LocationInfo :=
  inj_countable' (λ l, (path l, start l, end_ l))
                 (λ q, {| path := q.1.1; start := q.1.2; end_ := q.2 |})
                 (λ l, match l with Build_LocationInfo _ _ _ => eq_refl end).

(** Modelled from the spec: the diagnostics collector of [code/diagnostic]
    is not among the sources. It receives [(location, message)] pairs;
    [addError] appends one. *)
Definition Diagnostic : Type := LocationInfo * string.

(* ===================================================================== *)
(** ** tokenReserves.ts *)
(* ===================================================================== *)

Module TokenReserves.

Record ReservedWordProperty := {
  isExprPreOp : bool;
  isBitOp : bool;
  isMathOp : bool;
  isCompOp : bool;
  isLogicOp : bool;
  isAssignOp : bool;
  isNumber : bool;
  isPrimeType : bool;
}.

Definition reservedMarkArray : list string :=
  ["*"; "**"; "/"; "%"; "+"; "-"; "<="; "<"; ">="; ">"; "("; ")"; "=="; "!=";
   "?"; ":"; "="; "+="; "-="; "*="; "/="; "%="; "**="; "++"; "--"; "&"; ",";
   "{"; "}"; ";"; "|"; "^"; "~"; "<<"; ">>"; ">>>"; "&="; "|="; "^="; "<<=";
   ">>="; ">>>="; "."; "&&"; "||"; "!"; "["; "]"; "^^"; "@"; "::"].

Definition reservedKeywordArray : list string :=
  ["and"; "auto"; "bool"; "break"; "case"; "cast"; "catch"; "class"; "const";
   "continue"; "default"; "do"; "double"; "else"; "enum"; "false"; "float";
   "for"; "funcdef"; "if"; "import"; "in"; "inout"; "int"; "interface";
   "int8"; "int16"; "int32"; "int64"; "is"; "mixin"; "namespace"; "not";
   "null"; "or"; "out"; "override"; "private"; "property"; "protected";
   "return"; "switch"; "true"; "try"; "typedef"; "uint"; "uint8"; "uint16";
   "uint32"; "uint64"; "void"; "while"; "xor"].

Definition exprPreOpSet : list string := ["-"; "+"; "!"; "++"; "--"; "~"; "@"].

Definition bitOpSet : list string := ["&"; "|"; "^"; "<<"; ">>"; ">>>"].

Definition mathOpSet : list string := ["+"; "-"; "*"; "/"; "%"; "**"].

Definition compOpSet : list string := ["=="; "!="; "<"; "<="; ">"; ">="; "is"].

Definition logicOpSet : list string := ["&&"; "||"; "^^"; "and"; "or"; "xor"].

Definition assignOpSet : list string :=
  ["="; "+="; "-="; "*="; "/="; "|="; "&="; "^="; "%="; "**="; "<<="; ">>=";
   ">>>="].

Definition numberTypeSet : list string :=
  ["int"; "int8"; "int16"; "int32"; "int64"; "uint"; "uint8"; "uint16";
   "uint32"; "uint64"; "float"; "double"].

Definition primeTypeSet : list string :=
  ["void"; "int"; "int8"; "int16"; "int32"; "int64"; "uint"; "uint8";
   "uint16"; "uint32"; "uint64"; "float"; "double"; "bool"].

Definition makeEmptyProperty : ReservedWordProperty :=
  {| isExprPreOp := false; isBitOp := false; isMathOp := false;
     isCompOp := false; isLogicOp := false; isAssignOp := false;
     isNumber := false; isPrimeType := false |}.

(** The assignments [properties.get(symbol)!.isX = true], one per flag. *)
Definition set_isExprPreOp (p : ReservedWordProperty) : ReservedWordProperty :=
  {| isExprPreOp := true; isBitOp := isBitOp p; isMathOp := isMathOp p;
     isCompOp := isCompOp p; isLogicOp := isLogicOp p;
     isAssignOp := isAssignOp p; isNumber := isNumber p;
     isPrimeType := isPrimeType p |}.

Definition set_isBitOp (p : ReservedWordProperty) : ReservedWordProperty :=
  {| isExprPreOp := isExprPreOp p; isBitOp := true; isMathOp := isMathOp p;
     isCompOp := isCompOp p; isLogicOp := isLogicOp p;
     isAssignOp := isAssignOp p; isNumber := isNumber p;
     isPrimeType := isPrimeType p |}.

Definition set_isMathOp (p : ReservedWordProperty) : ReservedWordProperty :=
  {| isExprPreOp := isExprPreOp p; isBitOp := isBitOp p; isMathOp := true;
     isCompOp := isCompOp p; isLogicOp := isLogicOp p;
     isAssignOp := isAssignOp p; isNumber := isNumber p;
     isPrimeType := isPrimeType p |}.

Definition set_isCompOp (p : ReservedWordProperty) : ReservedWordProperty :=
  {| isExprPreOp := isExprPreOp p; isBitOp := isBitOp p;
     isMathOp := isMathOp p; isCompOp := true; isLogicOp := isLogicOp p;
     isAssignOp := isAssignOp p; isNumber := isNumber p;
     isPrimeType := isPrimeType p |}.

Definition set_isLogicOp (p : ReservedWordProperty) : ReservedWordProperty :=
  {| isExprPreOp := isExprPreOp p; isBitOp := isBitOp p;
     isMathOp := isMathOp p; isCompOp := isCompOp p; isLogicOp := true;
     isAssignOp := isAssignOp p; isNumber := isNumber p;
     isPrimeType := isPrimeType p |}.

Definition set_isAssignOp (p : ReservedWordProperty) : ReservedWordProperty :=
  {| isExprPreOp := isExprPreOp p; isBitOp := isBitOp p;
     isMathOp := isMathOp p; isCompOp := isCompOp p;
     isLogicOp := isLogicOp p; isAssignOp := true; isNumber := isNumber p;
     isPrimeType := isPrimeType p |}.

Definition set_isNumber (p : ReservedWordProperty) : ReservedWordProperty :=
  {| isExprPreOp := isExprPreOp p; isBitOp := isBitOp p;
     isMathOp := isMathOp p; isCompOp := isCompOp p;
     isLogicOp := isLogicOp p; isAssignOp := isAssignOp p; isNumber := true;
     isPrimeType := isPrimeType p |}.

Definition set_isPrimeType (p : ReservedWordProperty) : ReservedWordProperty :=
  {| isExprPreOp := isExprPreOp p; isBitOp := isBitOp p;
     isMathOp := isMathOp p; isCompOp := isCompOp p;
     isLogicOp := isLogicOp p; isAssignOp := isAssignOp p;
     isNumber := isNumber p; isPrimeType := true |}.

(** One [for (const symbol of set) properties.get(symbol)!.flag = true] loop.
    Every member of every set is a key of the map (lemma
    [flag_sets_registered]), so the non-null assertion never fails and
    [alter] is the assignment. *)
Definition markAll (set : ReservedWordProperty → ReservedWordProperty)
    (symbols : list string) (properties : gmap string ReservedWordProperty)
    : gmap string ReservedWordProperty :=
  foldl (λ m symbol, alter set symbol m) properties symbols.

Definition createProperties : gmap string ReservedWordProperty :=
  let properties :=
    foldl (λ m symbol, <[symbol := makeEmptyProperty]> m) ∅
          (reservedMarkArray ++ reservedKeywordArray) in
  let properties := markAll set_isExprPreOp exprPreOpSet properties in
  let properties := markAll set_isBitOp bitOpSet properties in
  let properties := markAll set_isMathOp mathOpSet properties in
  let properties := markAll set_isCompOp compOpSet properties in
  let properties := markAll set_isLogicOp logicOpSet properties in
  let properties := markAll set_isAssignOp assignOpSet properties in
  let properties := markAll set_isNumber numberTypeSet properties in
  let properties := markAll set_isPrimeType primeTypeSet properties in
  properties.

Definition reservedWordProperties : gmap string ReservedWordProperty :=
  Eval vm_compute in createProperties.

Definition createKeywordPropertyMap : gmap string ReservedWordProperty :=
  foldl (λ keywordMap keyword,
           match reservedWordProperties !! keyword with
           | Some p => <[keyword := p]> keywordMap
           | None => keywordMap
           end) ∅ reservedKeywordArray.

Definition reservedKeywordProperties : gmap string ReservedWordProperty :=
  Eval vm_compute in createKeywordPropertyMap.

Definition findReservedKeywordProperty (str : string)
    : option ReservedWordProperty :=
  reservedKeywordProperties !! str.

#[global] Instance ReservedWordProperty_eq_dec : EqDecision ReservedWordProperty.
Proof. solve_decision. Defined.

#[global] Instance ReservedWordProperty_countable : Countable ReservedWordProperty :=
  inj_countable'
    (λ p, (isExprPreOp p, isBitOp p, isMathOp p, isCompOp p, isLogicOp p,
           isAssignOp p, isNumber p, isPrimeType p))
    (λ q, {| isExprPreOp := q.1.1.1.1.1.1.1; isBitOp := q.1.1.1.1.1.1.2;
             isMathOp := q.1.1.1.1.1.2; isCompOp := q.1.1.1.1.2;
             isLogicOp := q.1.1.1.2; isAssignOp := q.1.1.2;
             isNumber := q.1.2; isPrimeType := q.2 |})
    (λ p, match p with Build_ReservedWordProperty _ _ _ _ _ _ _ _ => eq_refl end).

End TokenReserves.

(* ===================================================================== *)
(** ** symbolic.ts *)
(* ===================================================================== *)

(** Modelled from the spec: [TokenKind] of [tokens.ts] is not among the
    sources; a token is of one of the kinds Reserved, Identifier, String,
    Number. *)
Module TokenKind.
Inductive t := Reserved | Identifier | Number | String.
End TokenKind.

#[global] Instance TokenKind_eq_dec : EqDecision TokenKind.t.
Proof. solve_decision. Defined.

#[global] Instance TokenKind_countable : Countable TokenKind.t :=
  inj_countable'
    (λ k, match k with
          | TokenKind.Reserved => 0 | TokenKind.Identifier => 1
          | TokenKind.Number => 2 | TokenKind.String => 3
          end)
    (λ n, match n with
          | 0 => TokenKind.Reserved | 1 => TokenKind.Identifier
          | 2 => TokenKind.Number | _ => TokenKind.String
          end)
    (λ k, match k with
          | TokenKind.Reserved | TokenKind.Identifier
          | TokenKind.Number | TokenKind.String => eq_refl
          end).

(** A token is a JavaScript object, and a [Map] whose keys are tokens
    compares them by identity: two tokens with the same fields are two keys.
    So a token has an address, which names the object: the source range for
    a token the tokenizer built (it builds one token per range), a serial
    number for a token that [createVirtualToken] created. *)
Inductive TokenRef :=
| TokenAt (range : LocationInfo)
| VirtualToken (serial : positive).

#[global] Instance TokenRef_eq_dec : EqDecision TokenRef.
Proof. solve_decision. Defined.

#[global] Instance TokenRef_countable : Countable TokenRef :=
  inj_countable'
    (λ r, match r with
          | TokenAt range => inl range
          | VirtualToken serial => inr serial
          end)
    (λ q, match q with
          | inl range => TokenAt range
          | inr serial => VirtualToken serial
          end)
    (λ r, match r with TokenAt _ | VirtualToken _ => eq_refl end).

(** Modelled from the spec: [ParsingToken] of [parsingToken.ts] is not
    among the sources. A token has a kind, its text and its location; a
    reserved token also has the [property] record of the registry, which the
    code reads behind a test on [kind] only. No function embedded here
    writes to a token, so the object is its [address] together with its
    fields. *)
Record ParsingToken := {
  address : TokenRef;
  kind : TokenKind.t;
  text : string;
  location : LocationInfo;
  property : TokenReserves.ReservedWordProperty;
}.

#[global] Instance ParsingToken_eq_dec : EqDecision ParsingToken.
Proof. solve_decision. Defined.

#[global] Instance ParsingToken_countable : Countable ParsingToken :=
  inj_countable'
    (λ t, (address t, kind t, text t, location t, property t))
    (λ q, {| address := q.1.1.1.1; kind := q.1.1.1.2; text := q.1.1.2;
             location := q.1.2; property := q.2 |})
    (λ t, match t with Build_ParsingToken _ _ _ _ _ => eq_refl end).

(** Modelled from the spec: [createVirtualToken] of [parsingToken.ts] is not
    among the sources. A virtual token is a new object, created under the
    serial number [serial]; it carries the requested kind and text, no
    source position, and the flags the registry holds for its text. *)
Definition createVirtualToken (kind : TokenKind.t) (text : string)
    (serial : positive) : ParsingToken :=
  {| address := VirtualToken serial;
     kind := kind; text := text; location := dummyLocation;
     property := default TokenReserves.makeEmptyProperty
                         (TokenReserves.reservedWordProperties !! text) |}.

(** A reserved token as the tokenizer builds it: its flags are the ones the
    registry holds for its text. *)
Definition registered (token : ParsingToken) : Prop :=
  TokenReserves.reservedWordProperties !! text token = Some (property token).

Module SymbolKind.
Inductive t := Type_ | Function | Variable_.
End SymbolKind.

#[global] Instance SymbolKind_eq_dec : EqDecision SymbolKind.t.
Proof. solve_decision. Defined.

Module PrimitiveType.
Inductive t := Template | String | Bool | Number | Void | Any | Auto.
End PrimitiveType.

#[global] Instance PrimitiveType_eq_dec : EqDecision PrimitiveType.t.
Proof. solve_decision. Defined.

Module NodeName.
Inductive t := Enum | Class | Interface.
End NodeName.

#[global] Instance NodeName_eq_dec : EqDecision NodeName.t.
Proof. solve_decision. Defined.

(** Modelled from the spec: [nodes.ts] is not among the sources.
    [NodeEnum | NodeClass | NodeInterface], the declaring node of a type, is
    known here by its [nodeName] and the identifier token it declares. *)
Record DeclNode := { nodeName : NodeName.t; identifier : ParsingToken }.

#[global] Instance DeclNode_eq_dec : EqDecision DeclNode.
Proof. solve_decision. Defined.

(** [SourceType = NodeEnum | NodeClass | NodeInterface | PrimitiveType]. *)
Inductive SourceType :=
| SourceNode (node : DeclNode)
| SourcePrimitive (type : PrimitiveType.t).

#[global] Instance SourceType_eq_dec : EqDecision SourceType.
Proof. solve_decision. Defined.

Definition isSourcePrimitiveType (type : option SourceType) : bool :=
  match type with
  | Some (SourcePrimitive _) => true
  | _ => false
  end.

(** Symbol objects are JavaScript objects: the overload chain mutates them
    through whichever reference reaches them, so they live in a store and
    are named by their address. *)
Definition SymbolRef : Type := positive.

(** The three interfaces extending [SymbolicBase]. Fields that none of the
    embedded functions reads ([sourceNode], [returnType], [parameterTypes],
    [templateTypes], [baseList], [membersScope], [type]) are left out. *)
Record SymbolicType := {
  type_declaredPlace : ParsingToken;
  sourceType : SourceType;
  type_isHandler : option bool;
}.

Record SymbolicFunction := {
  func_declaredPlace : ParsingToken;
  nextOverload : option SymbolRef;
  func_isInstanceMember : bool;
}.

Record SymbolicVariable := {
  var_declaredPlace : ParsingToken;
  var_isInstanceMember : bool;
}.

(** [SymbolicObject = SymbolicType | SymbolicFunction | SymbolicVariable]. *)
Inductive SymbolicObject :=
| OType (type : SymbolicType)
| OFunction (func : SymbolicFunction)
| OVariable (var : SymbolicVariable).

Definition symbolKind (symbol : SymbolicObject) : SymbolKind.t :=
  match symbol with
  | OType _ => SymbolKind.Type_
  | OFunction _ => SymbolKind.Function
  | OVariable _ => SymbolKind.Variable_
  end.

Definition declaredPlace (symbol : SymbolicObject) : ParsingToken :=
  match symbol with
  | OType type => type_declaredPlace type
  | OFunction func => func_declaredPlace func
  | OVariable var => var_declaredPlace var
  end.

Definition isSymbolInstanceMember (symbol : SymbolicObject) : bool :=
  match symbol with
  | OType _ => false
  | OFunction func => func_isInstanceMember func
  | OVariable var => var_isInstanceMember var
  end.

(** [cursor.nextOverload = symbol] on a function object. *)
Definition set_nextOverload (func : SymbolicFunction) (symbol : SymbolRef)
    : SymbolicFunction :=
  {| func_declaredPlace := func_declaredPlace func;
     nextOverload := Some symbol;
     func_isInstanceMember := func_isInstanceMember func |}.

(** [SymbolScope]: a scope reaches its ancestors through [parentScope]; the
    lookups below never follow [childScopes], [referencedList] or
    [completionHints], which are left out. *)
#[warnings="-register-all"]
Inductive SymbolScope := Build_SymbolScope {
  ownerNode : option DeclNode;
  parentScope : option SymbolScope;
  symbolMap : gmap string SymbolRef;
}.

Record SymbolAndScope := { symbol : SymbolRef; scope : SymbolScope }.

(** [DeducedType]; [symbolType] is [SymbolicType | SymbolicFunction]. *)
Inductive DeducedSymbol :=
| DType (type : SymbolicType)
| DFunction (func : SymbolicFunction).

#[warnings="-register-all"]
Inductive DeducedType := Build_DeducedType {
  symbolType : DeducedSymbol;
  sourceScope : option SymbolScope;
  isHandler : option bool;
  templateTranslate : option (gmap TokenRef (option DeducedType));
}.

Module Symbolic.

(** The part of the process state the symbol functions touch: the store of
    symbol objects and the diagnostics collected so far. *)
Record World := {
  heap : gmap SymbolRef SymbolicObject;
  diagnostics : list Diagnostic;
}.

Definition addError (location : LocationInfo) (message : string) (w : World)
    : World :=
  {| heap := heap w; diagnostics := diagnostics w ++ [(location, message)] |}.

Definition set_heap (h : gmap SymbolRef SymbolicObject) (w : World) : World :=
  {| heap := h; diagnostics := diagnostics w |}.

(** What a call does: it returns, it is still running when the fuel is
    spent, or it follows a reference that names no function of the store.
    No JavaScript run does the last: a reference always names an object, and
    [nextOverload] is typed [SymbolicFunction | undefined]. *)
Inductive Outcome (A : Type) :=
| Returned (a : A)
| OutOfFuel
| Dangling.

Arguments Returned {A} a.
Arguments OutOfFuel {A}.
Arguments Dangling {A}.

(** The [for (;;)] of [insertSymbolicObject]: walk [nextOverload] from
    [cursor] and hang [symbol] behind the first function without successor. *)
Fixpoint appendOverload (fuel : nat) (h : gmap SymbolRef SymbolicObject)
    (cursor symbol : SymbolRef) : Outcome (gmap SymbolRef SymbolicObject) :=
  match fuel with
  | 0 => OutOfFuel
  | S fuel =>
      match h !! cursor with
      | Some (OFunction func) =>
          match nextOverload func with
          | None => Returned (<[cursor := OFunction (set_nextOverload func symbol)]> h)
          | Some next => appendOverload fuel h next symbol
          end
      | _ => Dangling
      end
  end.

Definition insertSymbolicObject (fuel : nat) (map : gmap string SymbolRef)
    (symbol : SymbolRef) (w : World)
    : Outcome (bool * gmap string SymbolRef * World) :=
  match heap w !! symbol with
  | None => Dangling
  | Some symbolObj =>
      let identifier := text (declaredPlace symbolObj) in
      match map !! identifier with
      | None => Returned (true, <[identifier := symbol]> map, w)
      | Some hit =>
          match heap w !! hit with
          | None => Dangling
          | Some hitObj =>
              let canOverload :=
                bool_decide (symbolKind symbolObj = SymbolKind.Function)
                && bool_decide (symbolKind hitObj = SymbolKind.Function) in
              if negb canOverload then
                Returned (false, map,
                          addError (location (declaredPlace symbolObj))
                            ("Symbol '" ++ identifier ++ "' is already defined 💢") w)
              else
                match appendOverload fuel (heap w) hit symbol with
                | Returned h => Returned (true, map, set_heap h w)
                | OutOfFuel => OutOfFuel
                | Dangling => Dangling
                end
          end
      end
  end.

(** Inserting the declarations of a scope one after the other, keeping each
    call's result. *)
Fixpoint insertSymbolicObjects (fuel : nat) (map : gmap string SymbolRef)
    (symbols : list SymbolRef) (w : World)
    : Outcome (list bool * gmap string SymbolRef * World) :=
  match symbols with
  | [] => Returned ([], map, w)
  | symbol :: rest =>
      match insertSymbolicObject fuel map symbol w with
      | Returned (ok, map, w) =>
          match insertSymbolicObjects fuel map rest w with
          | Returned (oks, map, w) => Returned (ok :: oks, map, w)
          | OutOfFuel => OutOfFuel
          | Dangling => Dangling
          end
      | OutOfFuel => OutOfFuel
      | Dangling => Dangling
      end
  end.

(** The overload chain that starts at [start], as the list of the functions
    met by following [nextOverload] until it is [undefined]. *)
Inductive overloadChain (h : gmap SymbolRef SymbolicObject)
    : option SymbolRef → list SymbolRef → Prop :=
| chain_end : overloadChain h None []
| chain_step r func l :
    h !! r = Some (OFunction func) →
    overloadChain h (nextOverload func) l →
    overloadChain h (Some r) (r :: l).

(** [resolveTemplateType]. [TemplateTranslation] is a [Map] from token
    objects to values that may be [undefined]. A [Map] finds a key by the
    identity of the object, so the map is keyed by the address of the token:
    [has(k)] is [is_Some (m !! address k)], [get(k)] is
    [mjoin (m !! address k)]. *)
Definition resolveTemplateType
    (templateTranslate : gmap TokenRef (option DeducedType))
    (type : option DeducedType) : option DeducedType :=
  match type with
  | None => None
  | Some ty =>
      match symbolType ty with
      | DFunction _ => None
      | DType symbolType =>
          if bool_decide (sourceType symbolType
                          ≠ SourcePrimitive PrimitiveType.Template)
          then type
          else
            match templateTranslate
                  !! address (type_declaredPlace symbolType) with
            | Some binding => binding
            | None => type
            end
      end
  end.

Definition resolveTemplateTypes
    (templateTranslate : list (option (gmap TokenRef (option DeducedType))))
    (type : option DeducedType) : option DeducedType :=
  foldl (λ arg t, match t with
                  | Some t => resolveTemplateType t arg
                  | None => arg
                  end) type templateTranslate.

Definition isDeducedAutoType (type : option DeducedType) : bool :=
  match type with
  | Some ty =>
      match symbolType ty with
      | DType symbolType =>
          bool_decide (sourceType symbolType = SourcePrimitive PrimitiveType.Auto)
      | DFunction _ => false
      end
  | None => false
  end.

(** *** Builtin types *)

Definition createBuiltinType (virtualToken : ParsingToken)
    (name : PrimitiveType.t) : SymbolicType :=
  {| type_declaredPlace := virtualToken;
     sourceType := SourcePrimitive name;
     type_isHandler := None |}.

(** An object literal evaluated at module load: a new object in the store. *)
Definition newObject (o : SymbolicObject) (h : gmap SymbolRef SymbolicObject)
    : SymbolRef * gmap SymbolRef SymbolicObject :=
  let r := fresh (dom h) in (r, <[r := o]> h).

(** [createBuiltinType(createVirtualToken(kind, text), name)] evaluated at
    module load: a new token, under the next serial number, and a new type
    object. *)
Definition newBuiltinType (kind : TokenKind.t) (text : string)
    (name : PrimitiveType.t) (serial : positive)
    (h : gmap SymbolRef SymbolicObject)
    : SymbolRef * positive * gmap SymbolRef SymbolicObject :=
  let '(r, h) :=
    newObject (OType (createBuiltinType (createVirtualToken kind text serial)
                                        name)) h in
  (r, Pos.succ serial, h).

(** The module-level constants, in the order the module body creates them. *)
Record Builtins := {
  builtinNumberTypeMap : gmap string SymbolRef;
  builtinStringType : SymbolRef;
  builtinBoolType : SymbolRef;
  builtinVoidType : SymbolRef;
  builtinAnyType : SymbolRef;
  builtinAutoType : SymbolRef;
  builtinHeap : gmap SymbolRef SymbolicObject;
}.

Definition loadModule : Builtins :=
  let '(numberMap, serial, h) :=
    foldl (λ '(map, serial, h) name,
             let '(r, serial, h) :=
               newBuiltinType TokenKind.Reserved name PrimitiveType.Number
                              serial h in
             (<[name := r]> map, serial, h))
          (∅, 1%positive, ∅) TokenReserves.numberTypeSet in
  let '(stringType, serial, h) :=
    newBuiltinType TokenKind.String "string" PrimitiveType.String serial h in
  let '(boolType, serial, h) :=
    newBuiltinType TokenKind.Reserved "bool" PrimitiveType.Bool serial h in
  let '(voidType, serial, h) :=
    newBuiltinType TokenKind.Reserved "void" PrimitiveType.Void serial h in
  let '(anyType, serial, h) :=
    newBuiltinType TokenKind.Reserved "?" PrimitiveType.Any serial h in
  let '(autoType, serial, h) :=
    newBuiltinType TokenKind.Reserved "auto" PrimitiveType.Auto serial h in
  {| builtinNumberTypeMap := numberMap;
     builtinStringType := stringType;
     builtinBoolType := boolType;
     builtinVoidType := voidType;
     builtinAnyType := anyType;
     builtinAutoType := autoType;
     builtinHeap := h |}.

Definition builtins : Builtins := Eval vm_compute in loadModule.

Definition builtinIntType : option SymbolRef :=
  builtinNumberTypeMap builtins !! "int".

Definition builtinFloatType : option SymbolRef :=
  builtinNumberTypeMap builtins !! "float".

Definition builtinDoubleType : option SymbolRef :=
  builtinNumberTypeMap builtins !! "double".

(** A call that may stop at [assert(false)]. *)
Inductive Asserted (A : Type) :=
| Passed (a : A)
| AssertionFailed.

Arguments Passed {A} a.
Arguments AssertionFailed {A}.

Definition assignBuiltinNumberType (key : string) : Asserted SymbolRef :=
  match builtinNumberTypeMap builtins !! key with
  | Some type => Passed type
  | None => AssertionFailed
  end.

Definition tryGetBuiltInType (token : ParsingToken)
    : Asserted (option SymbolRef) :=
  if bool_decide (kind token ≠ TokenKind.Reserved) then Passed None
  else
    let identifier := text token in
    if bool_decide (identifier = "bool") then Passed (Some (builtinBoolType builtins))
    else if bool_decide (identifier = "void") then Passed (Some (builtinVoidType builtins))
    else if bool_decide (identifier = "?") then Passed (Some (builtinAnyType builtins))
    else if bool_decide (identifier = "auto") then Passed (Some (builtinAutoType builtins))
    else if bool_decide (kind token = TokenKind.Reserved)
            && TokenReserves.isNumber (property token)
    then match assignBuiltinNumberType identifier with
         | Passed type => Passed (Some type)
         | AssertionFailed => AssertionFailed
         end
    else Passed None.

(** *** Scope lookup *)

Definition findSymbolShallowly (scope : SymbolScope) (identifier : string)
    : option SymbolRef :=
  symbolMap scope !! identifier.

Definition getSymbolAndScopeIfExist (symbol : option SymbolRef)
    (scope : SymbolScope) : option SymbolAndScope :=
  match symbol with
  | None => None
  | Some symbol => Some {| symbol := symbol; scope := scope |}
  end.

Fixpoint findSymbolWithParent (scope : SymbolScope) (identifier : string)
    : option SymbolAndScope :=
  match symbolMap scope !! identifier with
  | Some symbol => Some {| symbol := symbol; scope := scope |}
  | None =>
      match parentScope scope with
      | None => None
      | Some parentScope => findSymbolWithParent parentScope identifier
      end
  end.

(** [ancestor] is a scope reached from [scope] by one or more
    [parentScope] links. *)
Inductive ancestorScope : SymbolScope → SymbolScope → Prop :=
| ancestor_parent scope parent :
    parentScope scope = Some parent → ancestorScope parent scope
| ancestor_further scope parent ancestor :
    parentScope scope = Some parent →
    ancestorScope ancestor parent →
    ancestorScope ancestor scope.

End Symbolic.

(* ===================================================================== *)
(** ** symbolic.ts, the earlier revision *)
(* ===================================================================== *)

(** The file holds an earlier revision of the module as well, in which a
    scope keeps its symbols in an array ([symbolList]) and its children in
    an array ([childScopes]), and lookups select by symbol kind. *)
Module SymbolicEarly.

(** Modelled from the spec: [EssentialToken] of [token.ts] is not among the
    sources. A token has a kind, its text and its location. *)
Record EssentialToken := {
  kind : TokenKind.t;
  text : string;
  location : LocationInfo;
}.

(** Modelled from the spec: [nodes.ts] is not among the sources. The
    [sourceNode] of a type is [NodeEnum | NodeClass | 'bool' | 'number' |
    'void']; a declaring node is known here by the identifier token it
    declares. *)
Inductive TypeSource :=
| SourceDeclaration (identifier : EssentialToken)
| SourceBool
| SourceNumber
| SourceVoid.

(** The three interfaces extending [SymbolicBase]. [declaredPlace] is typed
    [EssentialToken], and the lookup tests it against [undefined] all the
    same, so it is an option here. [usageList] and the [sourceNode] of a
    function, which no function of the file reads, are left out. *)
Record SymbolicType := {
  type_declaredPlace : option EssentialToken;
  type_sourceNode : TypeSource;
}.

Record SymbolicFunction := {
  func_declaredPlace : option EssentialToken;
}.

Record SymbolicVariable := {
  var_declaredPlace : option EssentialToken;
  var_type : option SymbolicType;
}.

Inductive SymbolicObject :=
| OType (type : SymbolicType)
| OFunction (func : SymbolicFunction)
| OVariable (var : SymbolicVariable).

Definition symbolKind (symbol : SymbolicObject) : SymbolKind.t :=
  match symbol with
  | OType _ => SymbolKind.Type_
  | OFunction _ => SymbolKind.Function
  | OVariable _ => SymbolKind.Variable_
  end.

Definition declaredPlace (symbol : SymbolicObject) : option EssentialToken :=
  match symbol with
  | OType type => type_declaredPlace type
  | OFunction func => func_declaredPlace func
  | OVariable var => var_declaredPlace var
  end.

(** Modelled from the spec: [nodes.ts] is not among the sources.
    [SymbolOwnerNode = NodeClass | NodeFunc | EssentialToken]: the lookups
    tell a node from a token by its [nodeName] property, a class node from a
    function node by the value of [nodeName], and read the [identifier] of a
    class node and the [text] of a token (the name of a namespace). *)
Inductive SymbolOwnerNode :=
| OwnerClass (identifier : EssentialToken)
| OwnerFunc
| OwnerToken (token : EssentialToken).

(** A scope as its parent holds it in [childScopes]: the tree below it. *)
#[warnings="-register-all"]
Inductive ChildScope := Build_ChildScope {
  child_ownerNode : option SymbolOwnerNode;
  child_childScopes : list ChildScope;
  child_symbolList : list SymbolicObject;
}.

(** [SymbolScope]. A scope object points up to its parent and down to its
    children, which point back up to it; the scopes form a strict tree. Here
    a scope is the path up from it: it holds its parent as a scope and its
    children as trees, and the scope object of a child is the child entered
    from this scope ([enterChild]), whose [parentScope] is this scope.
    [completionHints], which no function of the file reads, is left out. *)
#[warnings="-register-all"]
Inductive SymbolScope := Build_SymbolScope {
  ownerNode : option SymbolOwnerNode;
  parentScope : option SymbolScope;
  childScopes : list ChildScope;
  symbolList : list SymbolicObject;
}.

Definition enterChild (parent : SymbolScope) (child : ChildScope) : SymbolScope :=
  {| ownerNode := child_ownerNode child;
     parentScope := Some parent;
     childScopes := child_childScopes child;
     symbolList := child_symbolList child |}.

Definition createSymbolScope (ownerNode : option SymbolOwnerNode)
    (parentScope : option SymbolScope) : SymbolScope :=
  {| ownerNode := ownerNode; parentScope := parentScope;
     childScopes := []; symbolList := [] |}.

Definition numberTypeSet : list string :=
  ["int8"; "int16"; "int"; "int32"; "int64"; "uint8"; "uint16"; "uint";
   "uint32"; "uint64"; "float"; "double"].

(** The [for] over [scope.symbolList] in [findSymbolWithParent]. *)
Fixpoint findSymbolWithParent_for (symbols : list SymbolicObject)
    (identifier : string) (kind : SymbolKind.t) : option SymbolicObject :=
  match symbols with
  | [] => None
  | symbol :: symbols =>
      if bool_decide (symbolKind symbol ≠ kind)
      then findSymbolWithParent_for symbols identifier kind
      else
        match declaredPlace symbol with
        | None => findSymbolWithParent_for symbols identifier kind
        | Some place =>
            if bool_decide (text place = identifier) then Some symbol
            else findSymbolWithParent_for symbols identifier kind
        end
  end.

Fixpoint findSymbolWithParent (scope : SymbolScope) (identifier : string)
    (kind : SymbolKind.t) : option SymbolicObject :=
  match findSymbolWithParent_for (symbolList scope) identifier kind with
  | Some symbol => Some symbol
  | None =>
      match parentScope scope with
      | None => None
      | Some parentScope => findSymbolWithParent parentScope identifier kind
      end
  end.

Definition findSymbolicFunctionWithParent (scope : SymbolScope)
    (identifier : string) : option SymbolicObject :=
  findSymbolWithParent scope identifier SymbolKind.Function.

Definition findSymbolicVariableWithParent (scope : SymbolScope)
    (identifier : string) : option SymbolicObject :=
  findSymbolWithParent scope identifier SymbolKind.Variable_.

(** The [for] over [scope.childScopes] in [findClassScopeWithParent]. *)
Fixpoint findClassScopeWithParent_for (children : list ChildScope)
    (identifier : string) : option ChildScope :=
  match children with
  | [] => None
  | child :: children =>
      match child_ownerNode child with
      | None => findClassScopeWithParent_for children identifier
      | Some (OwnerToken _) => findClassScopeWithParent_for children identifier
      | Some OwnerFunc => findClassScopeWithParent_for children identifier
      | Some (OwnerClass identifier_) =>
          if bool_decide (text identifier_ = identifier) then Some child
          else findClassScopeWithParent_for children identifier
      end
  end.

Fixpoint findClassScopeWithParent (scope : SymbolScope) (identifier : string)
    : option SymbolScope :=
  match findClassScopeWithParent_for (childScopes scope) identifier with
  | Some child => Some (enterChild scope child)
  | None =>
      match parentScope scope with
      | None => None
      | Some parentScope => findClassScopeWithParent parentScope identifier
      end
  end.

(** The [for] over [scope.childScopes] in [findNamespaceScope] and in
    [findNamespaceScopeWithParent]. *)
Fixpoint findNamespaceScope_for (children : list ChildScope)
    (identifier : string) : option ChildScope :=
  match children with
  | [] => None
  | child :: children =>
      match child_ownerNode child with
      | None => findNamespaceScope_for children identifier
      | Some (OwnerClass _) | Some OwnerFunc =>
          findNamespaceScope_for children identifier
      | Some (OwnerToken token) =>
          if bool_decide (text token = identifier) then Some child
          else findNamespaceScope_for children identifier
      end
  end.

Definition findNamespaceScope (scope : SymbolScope) (identifier : string)
    : option SymbolScope :=
  match findNamespaceScope_for (childScopes scope) identifier with
  | Some child => Some (enterChild scope child)
  | None => None
  end.

Definition findNamespaceScopeWithParent (scope : SymbolScope)
    (identifier : string) : option SymbolScope :=
  match findNamespaceScope_for (childScopes scope) identifier with
  | Some child => Some (enterChild scope child)
  | None =>
      match parentScope scope with
      | None => None
      | Some parentScope => findClassScopeWithParent parentScope identifier
      end
  end.

Fixpoint findGlobalScope (scope : SymbolScope) : SymbolScope :=
  match parentScope scope with
  | None => scope
  | Some parentScope => findGlobalScope parentScope
  end.

(** The [while] of [collectParentScopes], with [result] and [current]. *)
Fixpoint collectParentScopes_while (result : list SymbolScope)
    (current : SymbolScope) : list SymbolScope :=
  match parentScope current with
  | None => result
  | Some parentScope =>
      collectParentScopes_while (result ++ [parentScope]) parentScope
  end.

Definition collectParentScopes (scope : SymbolScope) : list SymbolScope :=
  collectParentScopes_while [] scope.

(** *** The vocabulary of the statements about the lookups *)

(** [scope] and its ancestors, nearest first. *)
Fixpoint scopeChain (scope : SymbolScope) : list SymbolScope :=
  scope :: match parentScope scope with
           | Some parentScope => scopeChain parentScope
           | None => []
           end.

(** [symbol] is what a lookup of [identifier] as a [kind] selects. *)
Definition declares (identifier : string) (kind : SymbolKind.t)
    (symbol : SymbolicObject) : Prop :=
  symbolKind symbol = kind
  ∧ ∃ place, declaredPlace symbol = Some place ∧ text place = identifier.

(** [owner] is the owner node of the scope of a class named [identifier]. *)
Definition classNamed (identifier : string) (owner : option SymbolOwnerNode)
    : Prop :=
  ∃ identifier_, owner = Some (OwnerClass identifier_)
                 ∧ text identifier_ = identifier.

(** [owner] is the owner node of the scope of a namespace named
    [identifier]. *)
Definition namespaceNamed (identifier : string)
    (owner : option SymbolOwnerNode) : Prop :=
  ∃ token, owner = Some (OwnerToken token) ∧ text token = identifier.

(** *** Builtin types *)

Section Builtin.

(** [dummyToken] of [token.ts] is not among the sources: the builtin types
    are declared at a token the module is given. *)
Variable dummyToken : EssentialToken.

Definition createBuiltinType (name : TypeSource) : SymbolicType :=
  {| type_declaredPlace := Some dummyToken; type_sourceNode := name |}.

Definition builtinNumberType : SymbolicType := createBuiltinType SourceNumber.

Definition builtinBoolType : SymbolicType := createBuiltinType SourceBool.

Definition builtinVoidType : SymbolicType := createBuiltinType SourceVoid.

Definition findSymbolicTypeWithParent (scope : SymbolScope)
    (token : EssentialToken) : option SymbolicObject :=
  let tokenText := text token in
  let fallthrough := findSymbolWithParent scope tokenText SymbolKind.Type_ in
  if bool_decide (kind token = TokenKind.Reserved) then
    if bool_decide (tokenText = "bool") then Some (OType builtinBoolType)
    else if bool_decide (tokenText = "void") then Some (OType builtinVoidType)
    else if bool_decide (tokenText ∈ numberTypeSet)
    then Some (OType builtinNumberType)
    else fallthrough
  else fallthrough.

End Builtin.

End SymbolicEarly.

(* ===================================================================== *)
(** ** parser.ts *)
(* ===================================================================== *)

Module Parser.

(** Modelled from the spec: [HighlightToken] of [code/highlight] is not among
    the sources; these are the categories the spec lists for the highlight
    collaborator. [HighlightModifier] is an enumeration the parser only ever
    passes on. *)
Module HighlightToken.
Inductive t := Keyword | Operator | Type_ | Builtin | Variable_ | Function | Namespace.
End HighlightToken.

Definition HighlightModifier : Type := nat.

(** Modelled from the spec: [TokenObject] of [token.ts] is not among the
    sources. A token has a lexical kind, its text and its location; its
    mutable [highlight] field is kept in the parser state, under the index
    of the token in the array. *)
Record TokenObject := {
  kind : TokenKind.t;
  text : string;
  location : LocationInfo;
}.

Record HighlightInfo := {
  token : HighlightToken.t;
  modifier : option HighlightModifier;
}.

(** *** The nodes built by the parser *)

(** Modelled from the spec: [nodes.ts] is not among the sources. Each node
    is the record of the arguments its constructor is called with in
    [parser.ts], one variant per grammar production. *)
Record NodeDATATYPE := { datatype_identifier : TokenObject }.

(** [new NodeTYPE(false, null, datatype, [], false, false)]. *)
Record NodeTYPE := {
  type_isConst : bool;
  type_scope : option TokenObject;
  type_datatype : NodeDATATYPE;
  type_generics : list NodeDATATYPE;
  type_isArray : bool;
  type_isRef : bool;
}.

(** [new NodeEXPRTERM2(pre, exprvalue, stop)]. *)
Record NodeEXPRTERM2 := {
  term_pre : option TokenObject;
  term_exprvalue : TokenObject;
  term_stop : option TokenObject;
}.

(** [new NodeEXPR(exprterm, exprop, tail)]. *)
#[warnings="-register-all"]
Inductive NodeEXPR := Build_NodeEXPR {
  expr_head : NodeEXPRTERM2;
  expr_op : option TokenObject;
  expr_tail : option NodeEXPR;
}.

(** [new NodeCONDITION(expr, null, null)]. *)
Record NodeCONDITION := {
  condition_expr : NodeEXPR;
  condition_ta : option NodeEXPR;
  condition_fa : option NodeEXPR;
}.

(** [new NodeASSIGN(condition, op, assign)]. *)
#[warnings="-register-all"]
Inductive NodeASSIGN := Build_NodeASSIGN {
  assign_condition : NodeCONDITION;
  assign_op : option TokenObject;
  assign_assign : option NodeASSIGN;
}.

Record NodeRETURN := { return_assign : NodeASSIGN }.

Inductive NodeFOR := Build_NodeFOR.

(** [NodeSTATEMENT] as [parseSTATEMENT] returns it, with
    [new NodeIF(assign, ts, fs)] and [new NodeWHILE(assign, statement)],
    which hold statements in turn. *)
#[warnings="-register-all"]
Inductive NodeSTATEMENT :=
| StatementIF (if_ : NodeIF)
| StatementWHILE (while_ : NodeWHILE)
| StatementRETURN (return_ : NodeRETURN)
with NodeIF :=
| Build_NodeIF (condition : NodeASSIGN) (ts : NodeSTATEMENT)
               (fs : option NodeSTATEMENT)
with NodeWHILE :=
| Build_NodeWHILE (assign : NodeASSIGN) (statement : NodeSTATEMENT).

Record NodeVAR := {
  var_type : NodeTYPE;
  var_identifier : TokenObject;
  var_expr : NodeEXPR;
}.

(** [NodeSTATBLOCK] is an array of statements and variable declarations. *)
Inductive StatementOrVar :=
| BlockSTATEMENT (statement : NodeSTATEMENT)
| BlockVAR (var : NodeVAR).

Definition NodeSTATBLOCK : Type := list StatementOrVar.

Definition NodePARAMLIST : Type := list (NodeTYPE * option TokenObject).

(** [new NodeFunc([], null, ret, null, identifier, paramlist, false, null,
    statblock)]. *)
Record NodeFunc := {
  func_entity : list TokenObject;
  func_accessor : option TokenObject;
  func_returnType : NodeTYPE;
  func_ref : option TokenObject;
  func_identifier : TokenObject;
  func_paramList : NodePARAMLIST;
  func_isConst : bool;
  func_funcAttr : option TokenObject;
  func_statBlock : NodeSTATBLOCK;
}.

Record NodeScript := { funcs : list NodeFunc }.

(** [TriedParse<T> = 'mismatch' | 'pending' | T]. *)
Inductive TriedParse (T : Type) :=
| mismatch
| pending
| parsed (node : T).

Arguments mismatch {T}.
Arguments pending {T}.
Arguments parsed {T} node.

(** *** The state a parse runs in *)

(** The private [pos] of [ReadingState], the highlights written so far and
    the diagnostics collected so far. The [tokens] array is never written. *)
Record State := {
  pos : nat;
  highlight : gmap nat HighlightInfo;
  diagnostics : list Diagnostic;
}.

Definition initialState : State :=
  {| pos := 0; highlight := ∅; diagnostics := [] |}.

(** What running a piece of the parser gives: a value and the new state, no
    answer within the fuel, or the [TypeError] JavaScript raises when a
    property of [undefined] is read. *)
Inductive Res (A : Type) :=
| Ok (a : A)
| OutOfFuel
| TypeError.

Arguments Ok {A} a.
Arguments OutOfFuel {A}.
Arguments TypeError {A}.

Definition M (A : Type) : Type := State → Res (A * State).

Definition ret {A} (a : A) : M A := λ st, Ok (a, st).

Definition bind {A B} (m : M A) (k : A → M B) : M B :=
  λ st, match m st with
        | Ok (a, st) => k a st
        | OutOfFuel => OutOfFuel
        | TypeError => TypeError
        end.

Definition outOfFuel {A} : M A := λ _, OutOfFuel.

Notation "'let*' x ':=' m 'in' k" := (bind m (λ x, k))
  (at level 10, x name, m at level 100, k at level 200, only parsing).

Notation "m >> k" := (bind m (λ _, k))
  (at level 100, k at level 200, right associativity, only parsing).

Definition addError (location : LocationInfo) (message : string) : M unit :=
  λ st, Ok (tt, {| pos := pos st; highlight := highlight st;
                   diagnostics := diagnostics st ++ [(location, message)] |}).

Section Reading.

Variable tokens : list TokenObject.

(** **** class ReadingState *)

Definition isEnd : M bool :=
  λ st, Ok (bool_decide (length tokens ≤ pos st), st).

(** The index of the token [next()] returns. *)
Definition nextIndex (pos : nat) : nat :=
  if bool_decide (length tokens ≤ pos) then length tokens - 1 else pos.

(** The method [next()]: [undefined] (here [None]) on an empty array, where
    [tokens[tokens.length - 1]] is [tokens[-1]]. *)
Definition nextToken (pos : nat) : option TokenObject :=
  if bool_decide (length tokens ≤ pos) then
    if bool_decide (length tokens = 0) then None
    else tokens !! (length tokens - 1)
  else tokens !! pos.

(** [reading.next()] followed by the property read every call site makes. *)
Definition next : M TokenObject :=
  λ st, match nextToken (pos st) with
        | Some token => Ok (token, st)
        | None => TypeError
        end.

Definition step : M unit :=
  λ st, Ok (tt, {| pos := S (pos st); highlight := highlight st;
                   diagnostics := diagnostics st |}).

(** [next.highlight.token = analyzeToken] and, when a modifier is given,
    [next.highlight.modifier = analyzedModifier], on the token object
    [next()] returned. *)
Definition setHighlight (analyzeToken : HighlightToken.t)
    (analyzedModifier : option HighlightModifier) : M unit :=
  λ st,
    let i := nextIndex (pos st) in
    let modifier :=
      match analyzedModifier with
      | Some m => Some m
      | None => highlight st !! i ≫= modifier
      end in
    Ok (tt, {| pos := pos st;
               highlight := <[i := {| token := analyzeToken;
                                      modifier := modifier |}]> (highlight st);
               diagnostics := diagnostics st |}).

Definition confirm (analyzeToken : HighlightToken.t)
    (analyzedModifier : option HighlightModifier) : M unit :=
  next >>
  setHighlight analyzeToken analyzedModifier >>
  step.

Definition expect (word : string) (analyzeToken : HighlightToken.t)
    (analyzedModifier : option HighlightModifier) : M bool :=
  let* end_ := isEnd in
  if (end_ : bool) then
    let* tok := next in
    addError (location tok) "Unexpected end of file" >>
    ret false
  else
    let* tok := next in
    if bool_decide (kind tok ≠ TokenKind.Reserved) then
      addError (location tok) "Expected reserved word" >>
      ret false
    else if bool_decide (text tok ≠ word) then
      addError (location tok) ("Expected reserved word " ++ word) >>
      ret false
    else
      confirm analyzeToken analyzedModifier >>
      ret true.

(** **** The productions without recursion *)

Definition parseDATATYPE : M (option NodeDATATYPE) :=
  let* next_ := next in
  let* tok := next in
  (if bool_decide (kind tok = TokenKind.Identifier)
   then confirm HighlightToken.Type_ None
   else confirm HighlightToken.Builtin None) >>
  ret (Some {| datatype_identifier := next_ |}).

Definition parseTYPE : M (option NodeTYPE) :=
  let* datatype := parseDATATYPE in
  match datatype with
  | None => ret None
  | Some datatype =>
      ret (Some {| type_isConst := false; type_scope := None;
                   type_datatype := datatype; type_generics := [];
                   type_isArray := false; type_isRef := false |})
  end.

Definition parseFOR : M (TriedParse NodeFOR) :=
  let* tok := next in
  if bool_decide (text tok ≠ "for") then ret mismatch
  else
    step >>
    ret (parsed Build_NodeFOR).

Definition parseEXPRVALUE : M (option TokenObject) :=
  let* next_ := next in
  if bool_decide (kind next_ = TokenKind.Reserved) then
    let* tok := next in
    addError (location tok) "Expected expression value" >>
    ret None
  else
    step >>
    ret (Some next_).

Definition preops : list string := ["-"; "+"; "!"; "++"; "--"; "~"; "@"].

Definition opstops : list string := ["."; "["; "("; "++"; "--"].

Definition parseEXPRTERM2 : M (option NodeEXPRTERM2) :=
  let* tok := next in
  let* pre := (if bool_decide (text tok ∈ preops) then
                 let* pre := next in
                 confirm HighlightToken.Operator None >>
                 ret (Some pre)
               else ret None) in
  let* exprvalue := parseEXPRVALUE in
  match exprvalue with
  | None => ret None
  | Some exprvalue =>
      let* tok := next in
      let* stop := (if bool_decide (text tok ∈ opstops) then
                      let* stop := next in
                      confirm HighlightToken.Operator None >>
                      ret (Some stop)
                    else ret None) in
      ret (Some {| term_pre := pre; term_exprvalue := exprvalue;
                   term_stop := stop |})
  end.

Definition parseEXPRTERM : M (option NodeEXPRTERM2) :=
  let* exprterm2 := parseEXPRTERM2 in
  match exprterm2 with
  | Some exprterm2 => ret (Some exprterm2)
  | None => ret None
  end.

Definition expropCandidates : list string :=
  ["+"; "-"; "*"; "/"; "%"; "**";
   "=="; "!="; "<"; "<="; ">"; ">="; "is";
   "&&"; "||"; "^^"; "and"; "or"; "xor";
   "&"; "|"; "^"; "<<"; ">>"; ">>>"].

Definition parseEXPROP : M (option TokenObject) :=
  let* tok := next in
  if negb (bool_decide (text tok ∈ expropCandidates)) then ret None
  else
    let* next_ := next in
    confirm HighlightToken.Operator None >>
    ret (Some next_).

Definition assignopCandidates : list string :=
  ["="; "+="; "-="; "*="; "/="; "|="; "&="; "^="; "%="; "**="; "<<="; ">>=";
   ">>>="].

Definition parseASSIGNOP : M (option TokenObject) :=
  let* tok := next in
  if negb (bool_decide (text tok ∈ assignopCandidates)) then ret None
  else
    let* next_ := next in
    confirm HighlightToken.Operator None >>
    ret (Some next_).

(** **** The recursive productions *)

Fixpoint parseEXPR (fuel : nat) : M (option NodeEXPR) :=
  match fuel with
  | 0 => outOfFuel
  | S fuel =>
      let* exprterm := parseEXPRTERM in
      match exprterm with
      | None => ret None
      | Some exprterm =>
          let* exprop := parseEXPROP in
          match exprop with
          | None => ret (Some (Build_NodeEXPR exprterm None None))
          | Some exprop =>
              let* tail := parseEXPR fuel in
              ret (Some (Build_NodeEXPR exprterm (Some exprop) tail))
          end
      end
  end.

Definition parseCONDITION (fuel : nat) : M (option NodeCONDITION) :=
  let* expr := parseEXPR fuel in
  match expr with
  | None => ret None
  | Some expr =>
      ret (Some {| condition_expr := expr; condition_ta := None;
                   condition_fa := None |})
  end.

Fixpoint parseASSIGN (fuel : nat) : M (option NodeASSIGN) :=
  match fuel with
  | 0 => outOfFuel
  | S fuel =>
      let* condition := parseCONDITION fuel in
      match condition with
      | None => ret None
      | Some condition =>
          let* op := parseASSIGNOP in
          match op with
          | None => ret (Some (Build_NodeASSIGN condition None None))
          | Some op =>
              let* assign := parseASSIGN fuel in
              ret (Some (Build_NodeASSIGN condition (Some op) assign))
          end
      end
  end.

Definition parseRETURN (fuel : nat) : M (TriedParse NodeRETURN) :=
  let* tok := next in
  if bool_decide (text tok ≠ "return") then ret mismatch
  else
    step >>
    let* assign := parseASSIGN fuel in
    match assign with
    | None => ret pending
    | Some assign =>
        expect ";" HighlightToken.Operator None >>
        ret (parsed {| return_assign := assign |})
    end.

Fixpoint parseSTATEMENT (fuel : nat) : M (TriedParse NodeSTATEMENT) :=
  match fuel with
  | 0 => outOfFuel
  | S fuel =>
      let* if_ := parseIF fuel in
      match if_ with
      | pending => ret pending
      | parsed if_ => ret (parsed (StatementIF if_))
      | mismatch =>
          let* for_ := parseFOR in
          match for_ with
          | pending => ret pending
          | _ =>
              (* if (for_ instanceof NodeFOR) return for_;  is commented out *)
              let* while_ := parseWHILE fuel in
              match while_ with
              | pending => ret pending
              | parsed while_ => ret (parsed (StatementWHILE while_))
              | mismatch =>
                  let* return_ := parseRETURN fuel in
                  match return_ with
                  | pending => ret pending
                  | parsed return_ => ret (parsed (StatementRETURN return_))
                  | mismatch => ret mismatch
                  end
              end
          end
      end
  end

with parseWHILE (fuel : nat) : M (TriedParse NodeWHILE) :=
  match fuel with
  | 0 => outOfFuel
  | S fuel =>
      let* tok := next in
      if bool_decide (text tok ≠ "while") then ret mismatch
      else
        step >>
        expect "(" HighlightToken.Operator None >>
        let* assign := parseASSIGN fuel in
        match assign with
        | None => ret pending
        | Some assign =>
            expect ")" HighlightToken.Operator None >>
            let* statement := parseSTATEMENT fuel in
            match statement with
            | mismatch | pending => ret pending
            | parsed statement =>
                ret (parsed (Build_NodeWHILE assign statement))
            end
        end
  end

with parseIF (fuel : nat) : M (TriedParse NodeIF) :=
  match fuel with
  | 0 => outOfFuel
  | S fuel =>
      let* tok := next in
      if bool_decide (text tok ≠ "if") then ret mismatch
      else
        step >>
        expect "(" HighlightToken.Operator None >>
        let* assign := parseASSIGN fuel in
        match assign with
        | None => ret pending
        | Some assign =>
            expect ")" HighlightToken.Operator None >>
            let* ts := parseSTATEMENT fuel in
            match ts with
            | mismatch | pending => ret pending
            | parsed ts =>
                let* tok := next in
                if bool_decide (text tok = "else") then
                  let* fs := parseSTATEMENT fuel in
                  match fs with
                  | mismatch | pending =>
                      ret (parsed (Build_NodeIF assign ts None))
                  | parsed fs =>
                      ret (parsed (Build_NodeIF assign ts (Some fs)))
                  end
                else ret (parsed (Build_NodeIF assign ts None))
            end
        end
  end.

Definition parseVAR (fuel : nat) : M (option NodeVAR) :=
  let* type := parseTYPE in
  match type with
  | None =>
      let* tok := next in
      addError (location tok) "Expected type" >>
      ret None
  | Some type =>
      let* identifier := next in
      confirm HighlightToken.Variable_ None >>
      expect "=" HighlightToken.Operator None >>
      let* expr := parseEXPR fuel in
      match expr with
      | None =>
          let* tok := next in
          addError (location tok) "Expected expression" >>
          ret None
      | Some expr =>
          expect ";" HighlightToken.Operator None >>
          ret (Some {| var_type := type; var_identifier := identifier;
                       var_expr := expr |})
      end
  end.

(** One turn of the [while] of [parseSTATBLOCK], entered with the cursor not
    at the end: [None] is [break], [Some statements] goes round again. *)
Definition parseSTATBLOCK_turn (fuel : nat) (statements : NodeSTATBLOCK)
    : M (option NodeSTATBLOCK) :=
  let* tok := next in
  if bool_decide (text tok = "}") then ret None
  else
    let* statement := parseSTATEMENT fuel in
    match statement with
    | pending =>
        step >>
        ret (Some statements)
    | parsed statement =>
        ret (Some (statements ++ [BlockSTATEMENT statement]))
    | mismatch =>
        let* var_ := parseVAR fuel in
        match var_ with
        | Some var_ => ret (Some (statements ++ [BlockVAR var_]))
        | None =>
            step >>
            ret (Some statements)
        end
    end.

Fixpoint parseSTATBLOCK_while (fuel : nat) (statements : NodeSTATBLOCK)
    : M NodeSTATBLOCK :=
  match fuel with
  | 0 => outOfFuel
  | S fuel =>
      let* end_ := isEnd in
      if (end_ : bool) then ret statements
      else
        let* turn := parseSTATBLOCK_turn fuel statements in
        match turn with
        | None => ret statements
        | Some statements => parseSTATBLOCK_while fuel statements
        end
  end.

Definition parseSTATBLOCK (fuel : nat) : M NodeSTATBLOCK :=
  expect "{" HighlightToken.Keyword None >>
  let* statements := parseSTATBLOCK_while fuel [] in
  expect "}" HighlightToken.Keyword None >>
  ret statements.

(** The [for (;;)] of [parsePARAMLIST]. *)
Fixpoint parsePARAMLIST_for (fuel : nat) (params : NodePARAMLIST)
    : M NodePARAMLIST :=
  match fuel with
  | 0 => outOfFuel
  | S fuel =>
      let* end_ := isEnd in
      let* stop := (if (end_ : bool) then ret true
                    else let* tok := next in
                         ret (bool_decide (text tok = ")"))) in
      if (stop : bool) then ret params
      else
        let* comma := (if bool_decide (0 < length params)
                       then expect "," HighlightToken.Operator None
                       else ret true) in
        if negb comma then ret params
        else
          let* type := parseTYPE in
          match type with
          | None => ret params
          | Some type =>
              let* tok := next in
              if bool_decide (kind tok = TokenKind.Identifier) then
                let* identifier := next in
                step >>
                parsePARAMLIST_for fuel (params ++ [(type, Some identifier)])
              else
                parsePARAMLIST_for fuel (params ++ [(type, None)])
          end
  end.

Definition parsePARAMLIST (fuel : nat) : M NodePARAMLIST :=
  expect "(" HighlightToken.Operator None >>
  let* params := parsePARAMLIST_for fuel [] in
  expect ")" HighlightToken.Operator None >>
  ret params.

Definition parseFUNC (fuel : nat) : M (option NodeFunc) :=
  let* ret_ := parseTYPE in
  match ret_ with
  | None => ret None
  | Some ret_ =>
      let* identifier := next in
      step >>
      let* paramlist := parsePARAMLIST fuel in
      let* statblock := parseSTATBLOCK fuel in
      ret (Some {| func_entity := []; func_accessor := None;
                   func_returnType := ret_; func_ref := None;
                   func_identifier := identifier;
                   func_paramList := paramlist; func_isConst := false;
                   func_funcAttr := None; func_statBlock := statblock |})
  end.

(** One turn of the [while] of [parseSCRIPT], entered with the cursor not at
    the end. *)
Definition parseSCRIPT_turn (fuel : nat) (funcs : list NodeFunc)
    : M (list NodeFunc) :=
  let* func := parseFUNC fuel in
  match func with
  | None => ret funcs
  | Some func => ret (funcs ++ [func])
  end.

Fixpoint parseSCRIPT_while (fuel : nat) (funcs : list NodeFunc)
    : M (list NodeFunc) :=
  match fuel with
  | 0 => outOfFuel
  | S fuel =>
      let* end_ := isEnd in
      if (end_ : bool) then ret funcs
      else
        let* funcs := parseSCRIPT_turn fuel funcs in
        parseSCRIPT_while fuel funcs
  end.

Definition parseSCRIPT (fuel : nat) : M NodeScript :=
  let* funcs := parseSCRIPT_while fuel [] in
  ret {| funcs := funcs |}.

End Reading.

(** [parseFromTokens]: a fresh [ReadingState] at position 0. *)
Definition parseFromTokens (fuel : nat) (tokens : list TokenObject)
    : Res (NodeScript * State) :=
  parseSCRIPT tokens fuel initialState.

End Parser.

(* ===================================================================== *)
(** * The vocabulary of the statements, and the inputs of the examples *)
(* ===================================================================== *)

Section SymbolicVocabulary.

Import Symbolic.

(** A function symbol as a declaration creates it: an object of the store
    of kind [Function], declared under [name], with no overload behind it. *)
Definition freshFunction (w : World) (name : string) (f : SymbolRef) : Prop :=
  ∃ fobj, heap w !! f = Some (OFunction fobj)
          ∧ nextOverload fobj = None
          ∧ text (func_declaredPlace fobj) = name.

(** The names the builtin short-circuit answers. *)
Definition builtinNames : list string :=
  ["bool"; "void"; "?"; "auto"] ++ TokenReserves.numberTypeSet.

(** The correspondence the specification states: each of these names
    stands for one singleton, the module constant of that name or the entry
    of the number-type map. *)
Definition builtinSingleton (identifier : string) : option SymbolRef :=
  if bool_decide (identifier = "bool") then Some (builtinBoolType builtins)
  else if bool_decide (identifier = "void") then Some (builtinVoidType builtins)
  else if bool_decide (identifier = "?") then Some (builtinAnyType builtins)
  else if bool_decide (identifier = "auto") then Some (builtinAutoType builtins)
  else builtinNumberTypeMap builtins !! identifier.

(** The primitive tag of the singleton of a builtin name. *)
Definition builtinPrimitive (identifier : string) : PrimitiveType.t :=
  if bool_decide (identifier = "bool") then PrimitiveType.Bool
  else if bool_decide (identifier = "void") then PrimitiveType.Void
  else if bool_decide (identifier = "?") then PrimitiveType.Any
  else if bool_decide (identifier = "auto") then PrimitiveType.Auto
  else PrimitiveType.Number.

(** The source range of [text] at the start of line [line]. *)
Definition rangeAt (text : string) (line : nat) : LocationInfo :=
  {| path := "main.as";
     start := {| line := line; character := 0 |};
     end_ := {| line := line; character := String.length text |} |}.

(** A token as the tokenizer builds it for [text] on line [line]: the
    object of that source range. *)
Definition declaredAt (kind : TokenKind.t) (text : string) (line : nat)
    : ParsingToken :=
  {| address := TokenAt (rangeAt text line);
     kind := kind; text := text;
     location := rangeAt text line;
     property := default TokenReserves.makeEmptyProperty
                         (TokenReserves.reservedWordProperties !! text) |}.

(** Three declarations of a function [f], on three lines of one file. *)
Definition functionDeclaredAt (line : nat) : SymbolicObject :=
  OFunction {| func_declaredPlace := declaredAt TokenKind.Identifier "f" line;
               nextOverload := None;
               func_isInstanceMember := false |}.

Definition threeOverloads : World :=
  {| heap := {[ 1%positive := functionDeclaredAt 1;
                2%positive := functionDeclaredAt 2;
                3%positive := functionDeclaredAt 3 ]};
     diagnostics := [] |}.

(** A variable [x], then a class [x]. *)
Definition variableX : SymbolicObject :=
  OVariable {| var_declaredPlace := declaredAt TokenKind.Identifier "x" 1;
               var_isInstanceMember := false |}.

Definition classX : SymbolicObject :=
  OType {| type_declaredPlace := declaredAt TokenKind.Identifier "x" 2;
           sourceType :=
             SourceNode {| nodeName := NodeName.Class;
                           identifier := declaredAt TokenKind.Identifier "x" 2 |};
           type_isHandler := None |}.

Definition variableThenClass : World :=
  {| heap := {[ 1%positive := variableX; 2%positive := classX ]};
     diagnostics := [] |}.

(** A function symbol (a function handle) and a deduced type that refers to
    it. *)
Definition handlerFunction : SymbolicFunction :=
  {| func_declaredPlace := declaredAt TokenKind.Identifier "callback" 3;
     nextOverload := None;
     func_isInstanceMember := false |}.

Definition handlerType : DeducedType :=
  {| symbolType := DFunction handlerFunction; sourceScope := None;
     isHandler := Some true; templateTranslate := None |}.

(** A template parameter [T], the deduced type of a use of [T], the deduced
    type [int], and the translation that binds [T] to [int]: its one key is
    the token object that declares [T]. *)
Definition templateParameter : SymbolicType :=
  {| type_declaredPlace := declaredAt TokenKind.Identifier "T" 1;
     sourceType := SourcePrimitive PrimitiveType.Template;
     type_isHandler := None |}.

Definition templateUse : DeducedType :=
  {| symbolType := DType templateParameter; sourceScope := None;
     isHandler := None; templateTranslate := None |}.

Definition intType : DeducedType :=
  {| symbolType :=
       DType (createBuiltinType (createVirtualToken TokenKind.Reserved "int" 1)
                                PrimitiveType.Number);
     sourceScope := None; isHandler := None; templateTranslate := None |}.

Definition bindsTToInt : gmap TokenRef (option DeducedType) :=
  {[ address (declaredAt TokenKind.Identifier "T" 1) := Some intType ]}.

(** A second token object with the very fields of the token that declares
    [T] (a virtual token given the same kind, text, location and flags), a
    template parameter declared at it, and the deduced type of its use. *)
Definition lookalikeToken : ParsingToken :=
  {| address := VirtualToken 100;
     kind := kind (declaredAt TokenKind.Identifier "T" 1);
     text := text (declaredAt TokenKind.Identifier "T" 1);
     location := location (declaredAt TokenKind.Identifier "T" 1);
     property := property (declaredAt TokenKind.Identifier "T" 1) |}.

Definition lookalikeParameter : SymbolicType :=
  {| type_declaredPlace := lookalikeToken;
     sourceType := SourcePrimitive PrimitiveType.Template;
     type_isHandler := None |}.

Definition lookalikeUse : DeducedType :=
  {| symbolType := DType lookalikeParameter; sourceScope := None;
     isHandler := None; templateTranslate := None |}.

(** A method scope inside a root scope, both declaring [x]. *)
Definition rootScope : SymbolScope :=
  {| ownerNode := None; parentScope := None;
     symbolMap := {[ "x" := 1%positive ]} |}.

Definition methodScope : SymbolScope :=
  {| ownerNode := None; parentScope := Some rootScope;
     symbolMap := {[ "x" := 2%positive ]} |}.

End SymbolicVocabulary.

Section ParserVocabulary.

Import Parser.

(** [spec T m st Q]: run from [st], [m] returns a value and a state that
    satisfy [Q]; it never reads a property of [undefined]; and it may only
    run out of fuel when the side condition [T] (which says that the fuel is
    enough) fails. *)
Definition spec {A} (T : Prop) (m : M A) (st : State)
    (Q : A → State → Prop) : Prop :=
  match m st with
  | Ok (a, st') => Q a st'
  | OutOfFuel => ¬ T
  | TypeError => False
  end.

(** The tokens still ahead of the cursor. *)
Definition remaining (tokens : list TokenObject) (st : State) : nat :=
  length tokens - pos st.

(** The final token is not a reserved word. *)
Definition nonReservedLast (tokens : list TokenObject) : Prop :=
  ∃ final, last tokens = Some final ∧ kind final ≠ TokenKind.Reserved.

(** What the tokenizer guarantees of the final token, the one [next()]
    keeps returning past the end: when it is not of the reserved kind, its
    text is no binary operator, no assignment operator, and neither [if] nor
    [while]. (All of these are reserved marks or keywords.) *)
Definition finalTokenClassified (tokens : list TokenObject) : Prop :=
  ∀ final, last tokens = Some final →
    kind final ≠ TokenKind.Reserved →
    ¬ (text final ∈ expropCandidates)
    ∧ ¬ (text final ∈ assignopCandidates)
    ∧ text final ≠ "if" ∧ text final ≠ "while".

(** The side condition of a run: the final token is classified and the fuel
    is at least [need]. *)
Definition enough (tokens : list TokenObject) (need fuel : nat) : Prop :=
  finalTokenClassified tokens ∧ need ≤ fuel.

(** What a production that returns a node or [null] leaves behind: the
    cursor never moves back; with a node it has moved on, and when the
    production started past the end the final token is not reserved (it was
    read as a value). *)
Definition advanced {A} (tokens : list TokenObject) (st : State)
    (r : option A) (st' : State) : Prop :=
  pos st ≤ pos st'
  ∧ (is_Some r →
     pos st < pos st'
     ∧ (length tokens ≤ pos st → nonReservedLast tokens)).

(** What an operator production leaves behind: nothing on [null]; with an
    operator, the cursor is one further and the token read was a candidate. *)
Definition operatorRead {A} (tokens : list TokenObject)
    (candidates : list string) (st : State) (r : option A) (st' : State)
    : Prop :=
  match r with
  | None => st' = st
  | Some _ =>
      pos st' = S (pos st)
      ∧ ∃ tok, nextToken tokens (pos st) = Some tok ∧ text tok ∈ candidates
  end.

(** The tri-state contract: no-match leaves the state as it was, the two
    other outcomes have moved the cursor on. *)
Definition tried {A} (st : State) (r : TriedParse A) (st' : State) : Prop :=
  match r with
  | mismatch => st' = st
  | pending | parsed _ => pos st < pos st'
  end.

(** The contract as [parseSTATEMENT] keeps it: on no-match the state is as
    it was, unless the token read was [for], which is then consumed. *)
Definition triedStatement {A} (tokens : list TokenObject) (st : State)
    (r : TriedParse A) (st' : State) : Prop :=
  match r with
  | mismatch =>
      st' = st
      ∨ (pos st' = S (pos st)
         ∧ ∃ tok, nextToken tokens (pos st) = Some tok ∧ text tok = "for")
  | pending | parsed _ => pos st < pos st'
  end.

(** Tokens for the examples: a reserved word and an identifier. *)
Definition reservedToken (text : string) : TokenObject :=
  {| kind := TokenKind.Reserved; text := text; location := dummyLocation |}.

Definition identifierToken (text : string) : TokenObject :=
  {| kind := TokenKind.Identifier; text := text; location := dummyLocation |}.

(** [if ( a ) ;]: the condition parses, [;] starts no statement. *)
Definition ifWithoutStatement : list TokenObject :=
  [reservedToken "if"; reservedToken "("; identifierToken "a";
   reservedToken ")"; reservedToken ";"].

(** [if ( a ) return ;]: the condition parses, the consequent is a [return]
    without its expression, which [parseRETURN] reports as ['pending']. *)
Definition ifWithBrokenReturn : list TokenObject :=
  [reservedToken "if"; reservedToken "("; identifierToken "a";
   reservedToken ")"; reservedToken "return"; reservedToken ";"].

(** [a . b . c ( )] *)
Definition memberCallChain : list TokenObject :=
  [identifierToken "a"; reservedToken "."; identifierToken "b";
   reservedToken "."; identifierToken "c"; reservedToken "(";
   reservedToken ")"].

(** [void f ( ) { return a]: the final token is an identifier. *)
Definition unfinishedReturn : list TokenObject :=
  [reservedToken "void"; identifierToken "f"; reservedToken "(";
   reservedToken ")"; reservedToken "{"; reservedToken "return";
   identifierToken "a"].

(** [void f ( ) { return a *] with the final [*] classified as an
    identifier: a token no tokenizer produces, but a [TokenObject]. *)
Definition danglingOperator : list TokenObject :=
  [reservedToken "void"; identifierToken "f"; reservedToken "(";
   reservedToken ")"; reservedToken "{"; reservedToken "return";
   identifierToken "a"; identifierToken "*"].

End ParserVocabulary.

Section RegistryVocabulary.

Import TokenReserves.

(** The flags a property record should carry for [word], read off the eight
    sets. *)
Definition flagsOf (word : string) : ReservedWordProperty :=
  {| isExprPreOp := bool_decide (word ∈ exprPreOpSet);
     isBitOp := bool_decide (word ∈ bitOpSet);
     isMathOp := bool_decide (word ∈ mathOpSet);
     isCompOp := bool_decide (word ∈ compOpSet);
     isLogicOp := bool_decide (word ∈ logicOpSet);
     isAssignOp := bool_decide (word ∈ assignOpSet);
     isNumber := bool_decide (word ∈ numberTypeSet);
     isPrimeType := bool_decide (word ∈ primeTypeSet) |}.

(** A word the registry flags as a binary operator of an expression. *)
Definition isBinaryOp (p : ReservedWordProperty) : bool :=
  isMathOp p || isCompOp p || isLogicOp p || isBitOp p.

End RegistryVocabulary.

Section LookupVocabulary.

Import Symbolic.

(** The diagnostic [insertSymbolicObject] reports for [symbolObj]. *)
Definition alreadyDefined (symbolObj : SymbolicObject) : Diagnostic :=
  (location (declaredPlace symbolObj),
   ("Symbol '" ++ text (declaredPlace symbolObj)
    ++ "' is already defined 💢")%string).

(** [scope] and its ancestors, nearest first. *)
Fixpoint scopeChain (scope : SymbolScope) : list SymbolScope :=
  scope :: match parentScope scope with
           | Some parentScope => scopeChain parentScope
           | None => []
           end.

(** [scope] after its [symbolMap] has been mutated into [map]. *)
Definition withSymbolMap (scope : SymbolScope) (map : gmap string SymbolRef)
    : SymbolScope :=
  {| ownerNode := ownerNode scope; parentScope := parentScope scope;
     symbolMap := map |}.

(** The defined entries of a list of template translations. *)
Definition definedTranslations
    (templateTranslate : list (option (gmap TokenRef (option DeducedType))))
    : list (gmap TokenRef (option DeducedType)) :=
  omap id templateTranslate.

(** A reserved token that claims to be a number under a text that names no
    builtin type: a [ParsingToken], but none the tokenizer builds. *)
Definition misflaggedToken : ParsingToken :=
  {| address := VirtualToken 100;
     kind := TokenKind.Reserved; text := "while"; location := dummyLocation;
     property := TokenReserves.set_isNumber TokenReserves.makeEmptyProperty |}.

End LookupVocabulary.

Section EarlyVocabulary.

Import SymbolicEarly.

(** A token of the earlier revision, at no source position. *)
Definition earlyToken (kind : TokenKind.t) (text : string) : EssentialToken :=
  {| kind := kind; text := text; location := dummyLocation |}.

(** A global scope that holds a namespace [Util] and a class [Util], and
    the scope of a function declared in it. *)
Definition utilNamespace : ChildScope :=
  {| child_ownerNode := Some (OwnerToken (earlyToken TokenKind.Identifier "Util"));
     child_childScopes := []; child_symbolList := [] |}.

Definition utilClass : ChildScope :=
  {| child_ownerNode := Some (OwnerClass (earlyToken TokenKind.Identifier "Util"));
     child_childScopes := []; child_symbolList := [] |}.

Definition mainFunction : ChildScope :=
  {| child_ownerNode := Some OwnerFunc;
     child_childScopes := []; child_symbolList := [] |}.

Definition globalScope : SymbolScope :=
  {| ownerNode := None; parentScope := None;
     childScopes := [utilNamespace; utilClass; mainFunction];
     symbolList := [] |}.

Definition mainScope : SymbolScope := enterChild globalScope mainFunction.

End EarlyVocabulary.

Section RunVocabulary.

Import Parser.

(** [st'] is a later state of [st]: the cursor has not moved back, the
    diagnostics reported so far are still there, in their order, and no
    highlight has been removed. *)
Definition laterState (st st' : State) : Prop :=
  pos st ≤ pos st'
  ∧ diagnostics st `prefix_of` diagnostics st'
  ∧ dom (highlight st) ⊆ dom (highlight st').

(** Whatever it returns, [m] leaves a later state. *)
Definition monotone {A} (m : M A) : Prop :=
  ∀ st, match m st with
        | Ok (_, st') => laterState st st'
        | OutOfFuel | TypeError => True
        end.

(** The test [expect] makes: the cursor is inside the array, on a reserved
    token whose text is [word]. *)
Definition expected (tokens : list TokenObject) (word : string) (st : State)
    (tok : TokenObject) : Prop :=
  pos st < length tokens ∧ kind tok = TokenKind.Reserved ∧ text tok = word.

(** The number of tokens an expression term takes up. *)
Definition termWidth (term : NodeEXPRTERM2) : nat :=
  match term_pre term with Some _ => 1 | None => 0 end
  + 1
  + match term_stop term with Some _ => 1 | None => 0 end.

(** What the tokenizer guarantees of every token: a token whose text is a
    word of the reserved-word registry is of the reserved kind. *)
Definition classifiedByRegistry (tokens : list TokenObject) : Prop :=
  ∀ tok, tok ∈ tokens →
    is_Some (TokenReserves.reservedWordProperties !! text tok) →
    kind tok = TokenKind.Reserved.

(** [if ( a ) return b ; else return c ;] *)
Definition ifThenElse : list TokenObject :=
  [reservedToken "if"; reservedToken "("; identifierToken "a";
   reservedToken ")"; reservedToken "return"; identifierToken "b";
   reservedToken ";"; reservedToken "else"; reservedToken "return";
   identifierToken "c"; reservedToken ";"].

End RunVocabulary.

(* ===================================================================== *)
(** * Properties of the symbol table (symbolic.ts) *)
(* ===================================================================== *)

Section OverloadChains.

Import Symbolic.

Implicit Types (h : gmap SymbolRef SymbolicObject) (m : gmap string SymbolRef).
Implicit Types (l pre fs : list SymbolRef) (w : World).

Lemma overloadChain_functional h start l1 l2 :
  overloadChain h start l1 → overloadChain h start l2 → l1 = l2.
Proof.
  intros H1. revert l2.
  induction H1 as [|r func l Hr _ IH]; intros l2 H2; inversion H2; subst.
  - reflexivity.
  - f_equal. apply IH. congruence.
Qed.

Lemma overloadChain_from_member h start l r :
  overloadChain h start l → r ∈ l →
  ∃ l', overloadChain h (Some r) l' ∧ length l' ≤ length l.
Proof.
  induction 1 as [|r0 func l Hr Hl IH]; intros Hin.
  - by apply elem_of_nil in Hin.
  - apply elem_of_cons in Hin as [->|Hin].
    + exists (r0 :: l). split; [by econstructor | done].
    + destruct (IH Hin) as (l' & Hl' & Hlen). exists l'. simpl. split; [done | lia].
Qed.

(** A chain that ends never meets a function twice. *)
Lemma overloadChain_NoDup h start l : overloadChain h start l → NoDup l.
Proof.
  induction 1 as [|r func l Hr Hl IH]; constructor; [|done].
  intros Hin.
  destruct (overloadChain_from_member _ _ _ _ Hl Hin) as (l' & Hl' & Hlen).
  assert (l' = r :: l) as ->
    by (eapply overloadChain_functional; [done | by econstructor]).
  simpl in Hlen. lia.
Qed.

(** The walk of [insertSymbolicObject] reaches the last function of the
    chain and links the new function behind it. *)
Lemma appendOverload_chain h l : ∀ fuel cursor f fobj,
  overloadChain h (Some cursor) l →
  f ∉ l →
  h !! f = Some (OFunction fobj) →
  nextOverload fobj = None →
  length l ≤ fuel →
  ∃ h', appendOverload fuel h cursor f = Returned h'
        ∧ overloadChain h' (Some cursor) (l ++ [f])
        ∧ ∀ r, r ∉ l → h' !! r = h !! r.
Proof.
  induction l as [|r l IH]; intros fuel cursor f fobj Hchain Hf Hobj Hnone Hfuel.
  { inversion Hchain. }
  pose proof (overloadChain_NoDup _ _ _ Hchain) as Hnodup.
  inversion Hchain as [|r' func l' Hr Hl]; subst.
  apply NoDup_cons in Hnodup as [Hrl _].
  apply not_elem_of_cons in Hf as [Hfr Hfl].
  destruct fuel as [|fuel]; [simpl in Hfuel; lia|].
  simpl. rewrite Hr.
  destruct (nextOverload func) as [next|] eqn:Hnext.
  - destruct (IH fuel next f fobj Hl Hfl Hobj Hnone) as (h' & Hrun & Hchain' & Hframe).
    { simpl in Hfuel. lia. }
    exists h'. split; [done|]. split.
    + simpl. econstructor.
      * rewrite Hframe by done. exact Hr.
      * rewrite Hnext. exact Hchain'.
    + intros r0 Hr0. apply not_elem_of_cons in Hr0 as [_ Hr0]. by apply Hframe.
  - inversion Hl; subst.
    eexists. split; [reflexivity|]. split.
    + simpl. econstructor.
      * apply lookup_insert_eq.
      * simpl. econstructor.
        -- rewrite lookup_insert_ne by done. exact Hobj.
        -- rewrite Hnone. constructor.
    + intros r0 Hr0. apply not_elem_of_cons in Hr0 as [Hr0 _].
      by rewrite lookup_insert_ne.
Qed.

(** One insertion of a function whose name is free or bound to a chain. *)
Lemma insertSymbolicObject_function fuel m w f fobj pre :
  heap w !! f = Some (OFunction fobj) →
  nextOverload fobj = None →
  overloadChain (heap w) (m !! text (func_declaredPlace fobj)) pre →
  f ∉ pre →
  length pre ≤ fuel →
  ∃ m' w', insertSymbolicObject fuel m f w = Returned (true, m', w')
           ∧ overloadChain (heap w') (m' !! text (func_declaredPlace fobj)) (pre ++ [f])
           ∧ diagnostics w' = diagnostics w
           ∧ ∀ r, r ∉ pre → heap w' !! r = heap w !! r.
Proof.
  intros Hobj Hnone Hchain Hf Hfuel.
  unfold insertSymbolicObject. rewrite Hobj. simpl.
  destruct (m !! text (func_declaredPlace fobj)) as [hit|] eqn:Hhit.
  - inversion Hchain as [|r func l Hr Hl]; subst.
    rewrite Hr. simpl.
    destruct (appendOverload_chain _ _ fuel hit f fobj Hchain Hf Hobj Hnone Hfuel)
      as (h' & Hrun & Hchain' & Hframe).
    rewrite Hrun. exists m, (set_heap h' w).
    split; [done|]. rewrite Hhit. by repeat split.
  - inversion Hchain; subst.
    exists (<[text (func_declaredPlace fobj) := f]> m), w.
    split; [done|]. rewrite lookup_insert_eq. split; [|done].
    simpl. econstructor; [exact Hobj|]. rewrite Hnone. constructor.
Qed.

End OverloadChains.

Section InsertSymbolicObject.

Import Symbolic.

Implicit Types (h : gmap SymbolRef SymbolicObject) (m : gmap string SymbolRef).
Implicit Types (l pre fs : list SymbolRef) (w : World).

(** C1. Overload chain ordering. Take a symbol map in which [name] is free
    ([pre] is empty) or bound to a function whose overload chain is [pre],
    and distinct freshly declared functions [fs] (f1, f2, f3, ...) that share
    the declared name [name]. Inserting them in declaration order with
    [insertSymbolicObject] returns [true] each time, emits no diagnostic, and
    the chain of the entry under [name], followed through [nextOverload], is
    [pre] followed by f1, f2, f3, ... in exactly that order: every insertion
    appends at the tail. Fuel [length pre + length fs] is enough for every
    walk along the chain. *)
Theorem insertSymbolicObject_overload_order fs : ∀ fuel m w name pre,
  overloadChain (heap w) (m !! name) pre →
  NoDup fs →
  (∀ f, f ∈ fs → ¬ (f ∈ pre) ∧ freshFunction w name f) →
  length pre + length fs ≤ fuel →
  ∃ m' w',
    insertSymbolicObjects fuel m fs w
    = Returned (replicate (length fs) true, m', w')
    ∧ overloadChain (heap w') (m' !! name) (pre ++ fs)
    ∧ diagnostics w' = diagnostics w.
Proof.
  induction fs as [|f fs IH]; intros fuel m w name pre Hchain Hnodup Hfresh Hfuel.
  { exists m, w. rewrite app_nil_r. done. }
  apply NoDup_cons in Hnodup as [Hffs Hnodup].
  destruct (Hfresh f) as (Hfpre & fobj & Hobj & Hnone & Hname);
    [apply list_elem_of_here|].
  subst name.
  destruct (insertSymbolicObject_function fuel m w f fobj pre)
    as (m1 & w1 & Hrun & Hchain1 & Hdiag1 & Hframe1); try done.
  { simpl in Hfuel. lia. }
  destruct (IH fuel m1 w1 (text (func_declaredPlace fobj)) (pre ++ [f]))
    as (m' & w' & Hrun' & Hchain' & Hdiag'); try done.
  - intros g Hg.
    destruct (Hfresh g) as (Hgpre & gobj & Hgobj & Hgnone & Hgname);
      [by apply list_elem_of_further|].
    split.
    + apply not_elem_of_app. split; [done|].
      intros ->%list_elem_of_singleton. done.
    + exists gobj. by rewrite Hframe1.
  - rewrite length_app. simpl in *. lia.
  - exists m', w'. simpl. rewrite Hrun, Hrun'.
    rewrite <- app_assoc in Hchain'. split; [done|]. split; [done|]. congruence.
Qed.

(** C2. Duplicate rejection. When the map already holds an entry under the
    declared name of [symbol] and the two symbols are not both functions,
    [insertSymbolicObject] emits exactly one diagnostic (at the new symbol's
    declaration), returns [false], and leaves the map and every symbol object
    as they were: the map still holds the first symbol. No fuel is needed. *)
Theorem insertSymbolicObject_duplicate fuel m w symbol symbolObj hit hitObj :
  heap w !! symbol = Some symbolObj →
  m !! text (declaredPlace symbolObj) = Some hit →
  heap w !! hit = Some hitObj →
  ¬ (symbolKind symbolObj = SymbolKind.Function
     ∧ symbolKind hitObj = SymbolKind.Function) →
  insertSymbolicObject fuel m symbol w
  = Returned (false, m,
              {| heap := heap w;
                 diagnostics :=
                   diagnostics w
                   ++ [(location (declaredPlace symbolObj),
                        ("Symbol '" ++ text (declaredPlace symbolObj)
                         ++ "' is already defined 💢")%string)] |})
  ∧ m !! text (declaredPlace symbolObj) = Some hit.
Proof.
  intros Hsym Hhit Hobj Hkinds.
  unfold insertSymbolicObject. rewrite Hsym. simpl. rewrite Hhit, Hobj.
  split; [|done].
  destruct (bool_decide _ && bool_decide _) eqn:Hcan; [|reflexivity].
  apply andb_true_iff in Hcan as [H1 H2].
  apply bool_decide_eq_true in H1, H2. tauto.
Qed.

End InsertSymbolicObject.

Section BuiltinTypes.

Import Symbolic.

(** The registry flags exactly the numeric type names as numbers. *)
Lemma registry_isNumber (name : string) (p : TokenReserves.ReservedWordProperty) :
  TokenReserves.reservedWordProperties !! name = Some p →
  TokenReserves.isNumber p = bool_decide (name ∈ TokenReserves.numberTypeSet).
Proof.
  assert (forallb (λ kp, bool_decide
                           (TokenReserves.isNumber kp.2
                            = bool_decide (kp.1 ∈ TokenReserves.numberTypeSet)))
                  (map_to_list TokenReserves.reservedWordProperties) = true)
    as Hall by (vm_compute; reflexivity).
  rewrite forallb_forall in Hall.
  intros Hp. apply elem_of_map_to_list, list_elem_of_In in Hp.
  apply Hall in Hp. by apply bool_decide_eq_true in Hp.
Qed.

(** Every member of a flag set is a key of the registry, so the non-null
    assertions of [createProperties] never fail. *)
Lemma flag_sets_registered (name : string) :
  name ∈ TokenReserves.exprPreOpSet ++ TokenReserves.bitOpSet
         ++ TokenReserves.mathOpSet ++ TokenReserves.compOpSet
         ++ TokenReserves.logicOpSet ++ TokenReserves.assignOpSet
         ++ TokenReserves.numberTypeSet ++ TokenReserves.primeTypeSet →
  name ∈ TokenReserves.reservedMarkArray ++ TokenReserves.reservedKeywordArray.
Proof.
  revert name. apply Forall_forall.
  apply (bool_decide_unpack _). vm_compute. exact I.
Qed.

(** The number-type map has one singleton per numeric type name, no more. *)
Lemma builtinNumberTypeMap_dom (name : string) :
  is_Some (builtinNumberTypeMap builtins !! name)
  ↔ name ∈ TokenReserves.numberTypeSet.
Proof.
  split.
  - intros [r Hr].
    assert (forallb (λ kr, bool_decide (kr.1 ∈ TokenReserves.numberTypeSet))
                    (map_to_list (builtinNumberTypeMap builtins)) = true)
      as Hall by (vm_compute; reflexivity).
    rewrite forallb_forall in Hall.
    apply elem_of_map_to_list, list_elem_of_In in Hr.
    apply Hall in Hr. by apply bool_decide_eq_true in Hr.
  - revert name. apply Forall_forall.
    repeat (apply Forall_cons; split; [by eexists; vm_compute|]).
    apply Forall_nil_2.
Qed.

(** On a reserved token of the tokenizer the lookup is the table
    [builtinSingleton] of its text: nothing else of the token is looked at,
    and no assertion fails. *)
Lemma tryGetBuiltInType_reserved (token : ParsingToken) :
  kind token = TokenKind.Reserved →
  registered token →
  tryGetBuiltInType token = Passed (builtinSingleton (text token)).
Proof.
  intros Hkind Hreg. unfold tryGetBuiltInType, builtinSingleton.
  rewrite (bool_decide_eq_false_2 (kind token ≠ TokenKind.Reserved))
    by (intros Hne; by apply Hne).
  rewrite (bool_decide_eq_true_2 (kind token = TokenKind.Reserved)) by done.
  rewrite andb_true_l. cbv zeta.
  repeat (case_bool_decide; [reflexivity|]).
  rewrite (registry_isNumber _ _ Hreg). unfold assignBuiltinNumberType.
  case_bool_decide as Hnum.
  - apply builtinNumberTypeMap_dom in Hnum as [r Hr]. by rewrite Hr.
  - destruct (builtinNumberTypeMap builtins !! text token) as [r|] eqn:Hr;
      [|reflexivity].
    exfalso. apply Hnum, builtinNumberTypeMap_dom. by eexists.
Qed.

Lemma builtinSingleton_named (name : string) :
  name ∈ builtinNames →
  ∃ r type, builtinSingleton name = Some r
            ∧ builtinHeap builtins !! r = Some (OType type)
            ∧ text (type_declaredPlace type) = name
            ∧ sourceType type = SourcePrimitive (builtinPrimitive name).
Proof.
  revert name. apply Forall_forall.
  repeat (apply Forall_cons; split;
          [eexists _, _; split; [vm_compute; reflexivity|];
           split; [vm_compute; reflexivity|];
           split; vm_compute; reflexivity|]).
  apply Forall_nil_2.
Qed.

Lemma builtinSingleton_other (name : string) :
  name ∉ builtinNames → builtinSingleton name = None.
Proof.
  intros Hname. unfold builtinSingleton.
  repeat (case_bool_decide;
          [subst name; exfalso; apply Hname;
           apply (bool_decide_unpack _); vm_compute; exact I|]).
  destruct (builtinNumberTypeMap builtins !! name) as [r|] eqn:Hr; [|done].
  exfalso. apply Hname. unfold builtinNames.
  apply elem_of_app. right. apply builtinNumberTypeMap_dom. by eexists.
Qed.

(** C3. Builtin singletons. For a reserved token of the tokenizer (its
    [property] is the registry's) whose text is [bool], [void], [?], [auto]
    or a registered numeric type name, [tryGetBuiltInType] returns the
    singleton of that name: an object of the store the module created at
    load time, declared under that very name and tagged [Bool], [Void],
    [Any], [Auto] or [Number] accordingly. The function takes no scope,
    and the reference it returns depends on the text only, so a second lookup
    of the same name from another [location] returns the identical reference,
    not a copy. For every other token, reserved or not, it returns
    [undefined]. *)
Theorem tryGetBuiltInType_singleton (token other : ParsingToken) :
  (kind token = TokenKind.Reserved → registered token) →
  (kind other = TokenKind.Reserved → registered other) →
  (kind token = TokenKind.Reserved → text token ∈ builtinNames →
     ∃ r type,
       tryGetBuiltInType token = Passed (Some r)
       ∧ builtinSingleton (text token) = Some r
       ∧ builtinHeap builtins !! r = Some (OType type)
       ∧ text (type_declaredPlace type) = text token
       ∧ sourceType type = SourcePrimitive (builtinPrimitive (text token))
       ∧ (kind other = TokenKind.Reserved → text other = text token →
          tryGetBuiltInType other = Passed (Some r)))
  ∧ (kind token ≠ TokenKind.Reserved ∨ ¬ (text token ∈ builtinNames) →
     tryGetBuiltInType token = Passed None).
Proof.
  intros Hreg Hreg'. split.
  - intros Hkind Hname.
    destruct (builtinSingleton_named _ Hname)
      as (r & type & Hr & Hheap & Htext & Hsource).
    exists r, type. rewrite tryGetBuiltInType_reserved by auto.
    repeat split; try done.
    + by rewrite Hr.
    + intros Hkind' Heq. rewrite tryGetBuiltInType_reserved by auto.
      by rewrite Heq, Hr.
  - intros [Hkind|Hname].
    + unfold tryGetBuiltInType. by rewrite bool_decide_eq_true_2.
    + destruct (decide (kind token = TokenKind.Reserved)) as [Hkind|Hkind].
      * rewrite tryGetBuiltInType_reserved by auto.
        by rewrite builtinSingleton_other.
      * unfold tryGetBuiltInType. by rewrite bool_decide_eq_true_2.
Qed.

End BuiltinTypes.

Section TemplateResolution.

Import Symbolic.

Implicit Types (translate : gmap TokenRef (option DeducedType)).
Implicit Types (ty : DeducedType) (type : option DeducedType).

(** C4, as stated, fails: a deduced type that refers to a function symbol is
    not returned unchanged, [resolveTemplateType] answers [undefined]. *)
Lemma resolveTemplateType_function_not_unchanged :
  resolveTemplateType ∅ (Some handlerType) = None
  ∧ resolveTemplateType ∅ (Some handlerType) ≠ Some handlerType.
Proof. split; [reflexivity | discriminate]. Qed.

(** C4, amended. [resolveTemplateType] returns the binding of the map when
    the type is a template parameter whose declaring token is a key of the
    map, that very token object and not merely a token with the same fields;
    it returns [undefined] when the type is [undefined] or refers to a
    function symbol; in every other case (a type that is not a template
    parameter, or a template parameter whose declaring token object is no key
    of the map) it returns the input type unchanged. *)
Theorem resolveTemplateType_cases translate :
  resolveTemplateType translate None = None
  ∧ (∀ ty func,
       symbolType ty = DFunction func →
       resolveTemplateType translate (Some ty) = None)
  ∧ (∀ ty symbolType_ binding,
       symbolType ty = DType symbolType_ →
       sourceType symbolType_ = SourcePrimitive PrimitiveType.Template →
       translate !! address (type_declaredPlace symbolType_) = Some binding →
       resolveTemplateType translate (Some ty) = binding)
  ∧ (∀ ty symbolType_,
       symbolType ty = DType symbolType_ →
       sourceType symbolType_ ≠ SourcePrimitive PrimitiveType.Template
       ∨ translate !! address (type_declaredPlace symbolType_) = None →
       resolveTemplateType translate (Some ty) = Some ty).
Proof.
  split; [reflexivity|]. split; [|split].
  - intros ty func Hsym. unfold resolveTemplateType. by rewrite Hsym.
  - intros ty st binding Hsym Hsrc Hget. unfold resolveTemplateType.
    rewrite Hsym, Hsrc, Hget. by rewrite bool_decide_eq_false_2 by auto.
  - intros ty st Hsym Hcase. unfold resolveTemplateType. rewrite Hsym.
    case_bool_decide; [done|]. destruct Hcase as [Hsrc|Hget]; [done|].
    by rewrite Hget.
Qed.

End TemplateResolution.

Section ScopeLookup.

Import Symbolic.

(** A local declaration answers the lookup, whatever the ancestors hold. *)
Lemma findSymbolWithParent_local (scope : SymbolScope) (identifier : string)
    (declared : SymbolRef) :
  symbolMap scope !! identifier = Some declared →
  findSymbolWithParent scope identifier
  = Some {| symbol := declared; scope := scope |}.
Proof. intros Hlocal. destruct scope; simpl in *. by rewrite Hlocal. Qed.

(** Without a local declaration the lookup is the parent's. *)
Lemma findSymbolWithParent_parent (scope parent : SymbolScope)
    (identifier : string) :
  symbolMap scope !! identifier = None →
  parentScope scope = Some parent →
  findSymbolWithParent scope identifier = findSymbolWithParent parent identifier.
Proof.
  intros Hlocal Hparent. destruct scope; simpl in *. by rewrite Hlocal, Hparent.
Qed.

(** C10. Shadowing. When an identifier is declared both in a scope [inner]
    and in one of its ancestors [outer], [findSymbolWithParent] started at
    [inner] returns the declaration of [inner] together with [inner] itself:
    the local symbol map is consulted before the parent is. *)
Theorem findSymbolWithParent_shadowing (inner outer : SymbolScope)
    (identifier : string) (innerSymbol outerSymbol : SymbolRef) :
  ancestorScope outer inner →
  symbolMap inner !! identifier = Some innerSymbol →
  symbolMap outer !! identifier = Some outerSymbol →
  findSymbolWithParent inner identifier
  = Some {| symbol := innerSymbol; scope := inner |}.
Proof. intros _ Hinner _. by apply findSymbolWithParent_local. Qed.

End ScopeLookup.

(* ===================================================================== *)
(** * Properties of the parser (parser.ts) *)
(* ===================================================================== *)

Section ParserLogic.

Import Parser.

Lemma spec_ret {A} T (a : A) st (Q : A → State → Prop) :
  Q a st → spec T (ret a) st Q.
Proof. done. Qed.

Lemma spec_outOfFuel {A} (T : Prop) st (Q : A → State → Prop) :
  ¬ T → spec T outOfFuel st Q.
Proof. done. Qed.

Lemma spec_bind {A B} T (m : M A) (k : A → M B) st
    (Qm : A → State → Prop) (Q : B → State → Prop) :
  spec T m st Qm →
  (∀ a st', Qm a st' → spec T (k a) st' Q) →
  spec T (bind m k) st Q.
Proof.
  unfold spec, bind. destruct (m st) as [[a st']| |]; [|done..].
  intros Hm Hk. by apply Hk.
Qed.

Lemma spec_weaken {A} (T T' : Prop) (m : M A) st (Q Q' : A → State → Prop) :
  spec T' m st Q' →
  (T → T') →
  (∀ a st', Q' a st' → Q a st') →
  spec T m st Q.
Proof.
  unfold spec. destruct (m st) as [[a st']| |]; [|tauto..].
  intros HQ _ Himp. by apply Himp.
Qed.

(** With the side condition met, a specified run returns. *)
Lemma spec_returns {A} (T : Prop) (m : M A) st (Q : A → State → Prop) :
  spec T m st Q → T → ∃ a st', m st = Ok (a, st') ∧ Q a st'.
Proof.
  unfold spec. destruct (m st) as [[a st']| |]; [by eauto|done..].
Qed.

Lemma spec_no_TypeError {A} (T : Prop) (m : M A) st (Q : A → State → Prop) :
  spec T m st Q → m st ≠ TypeError.
Proof. unfold spec. by destruct (m st) as [[a st']| |]. Qed.

Lemma spec_result {A} (T : Prop) (m : M A) st (Q : A → State → Prop) a st' :
  spec T m st Q → m st = Ok (a, st') → Q a st'.
Proof. unfold spec. intros H Hrun. by rewrite Hrun in H. Qed.

End ParserLogic.

Section ReadingStateFacts.

Import Parser.

Variable tokens : list TokenObject.

Lemma nextToken_lookup (pos : nat) :
  nextToken tokens pos = tokens !! nextIndex tokens pos.
Proof.
  unfold nextToken, nextIndex. case_bool_decide; [|done].
  case_bool_decide as Hlen; [|done].
  symmetry. apply lookup_ge_None. lia.
Qed.

Lemma nextToken_at_end (pos : nat) :
  length tokens ≤ pos → nextToken tokens pos = last tokens.
Proof.
  intros Hend. unfold nextToken. rewrite bool_decide_eq_true_2 by done.
  rewrite last_lookup. case_bool_decide as Hlen.
  - destruct tokens; [done | discriminate].
  - f_equal. lia.
Qed.

Lemma nextToken_is_Some (pos : nat) :
  tokens ≠ [] → is_Some (nextToken tokens pos).
Proof.
  intros Hne. rewrite nextToken_lookup. apply lookup_lt_is_Some.
  assert (0 < length tokens) by (destruct tokens; simpl; [done | lia]).
  unfold nextIndex. case_bool_decide; lia.
Qed.

Lemma nextToken_empty (pos : nat) : nextToken [] pos = None.
Proof. unfold nextToken. by repeat case_bool_decide. Qed.

End ReadingStateFacts.

Section ParserSpecs.

Import Parser.

Variable tokens : list TokenObject.

Hypothesis tokens_nonempty : tokens ≠ [].

Ltac run lemma := eapply spec_bind; [apply lemma | cbv beta].

Ltac call lemma :=
  eapply spec_bind;
  [eapply spec_weaken; [apply lemma | | intros ? ? HQ; exact HQ] | cbv beta].

Ltac last lemma :=
  eapply spec_weaken; [apply lemma | intros Hside; exact Hside | cbv beta].

Lemma isEnd_spec T st :
  spec T (isEnd tokens) st
       (λ b st', st' = st ∧ b = bool_decide (length tokens ≤ pos st)).
Proof. done. Qed.

Lemma next_spec T st :
  spec T (next tokens) st
       (λ tok st', st' = st ∧ nextToken tokens (pos st) = Some tok).
Proof.
  unfold spec, next.
  destruct (nextToken_is_Some tokens (pos st) tokens_nonempty) as [tok Htok].
  by rewrite Htok.
Qed.

Lemma step_spec T st : spec T step st (λ _ st', pos st' = S (pos st)).
Proof. done. Qed.

Lemma addError_spec T location message st :
  spec T (addError location message) st (λ _ st', pos st' = pos st).
Proof. done. Qed.

Lemma setHighlight_spec T analyzeToken analyzedModifier st :
  spec T (setHighlight tokens analyzeToken analyzedModifier) st
       (λ _ st', pos st' = pos st).
Proof. done. Qed.

Lemma confirm_spec T analyzeToken analyzedModifier st :
  spec T (confirm tokens analyzeToken analyzedModifier) st
       (λ _ st', pos st' = S (pos st)).
Proof.
  unfold confirm.
  run next_spec. intros _ st1 [-> _].
  run setHighlight_spec. intros _ st2 H2.
  last step_spec. intros _ st3 H3. lia.
Qed.

Lemma expect_spec T word analyzeToken analyzedModifier st :
  spec T (expect tokens word analyzeToken analyzedModifier) st
       (λ r st', pos st' = if r then S (pos st) else pos st).
Proof.
  unfold expect.
  run isEnd_spec. intros end_ st1 [-> ->].
  case_bool_decide.
  - run next_spec. intros tok st1 [-> _].
    run addError_spec. intros _ st2 H2. by apply spec_ret.
  - run next_spec. intros tok st1 [-> _].
    repeat case_bool_decide.
    + run addError_spec. intros _ st2 H2. by apply spec_ret.
    + run addError_spec. intros _ st2 H2. by apply spec_ret.
    + run confirm_spec. intros _ st2 H2. by apply spec_ret.
Qed.

Lemma parseDATATYPE_spec T st :
  spec T (parseDATATYPE tokens) st
       (λ r st', is_Some r ∧ pos st' = S (pos st)).
Proof.
  unfold parseDATATYPE.
  run next_spec. intros next_ st1 [-> _].
  run next_spec. intros tok st1 [-> _].
  eapply spec_bind with (Qm := λ _ st', pos st' = S (pos st)).
  { case_bool_decide; apply confirm_spec. }
  intros _ st1 H1. by apply spec_ret.
Qed.

Lemma parseTYPE_spec T st :
  spec T (parseTYPE tokens) st
       (λ r st', is_Some r ∧ pos st' = S (pos st)).
Proof.
  unfold parseTYPE.
  run parseDATATYPE_spec. intros [datatype|] st1 [Hsome H1].
  - by apply spec_ret.
  - by destruct Hsome.
Qed.

Lemma parseFOR_spec T st :
  spec T (parseFOR tokens) st
       (λ r st',
          match r with
          | mismatch => st' = st
          | pending => False
          | parsed _ =>
              pos st' = S (pos st)
              ∧ ∃ tok, nextToken tokens (pos st) = Some tok ∧ text tok = "for"
          end).
Proof.
  unfold parseFOR.
  run next_spec. intros tok st1 [-> Htok].
  case_bool_decide as Hfor.
  - by apply spec_ret.
  - run step_spec. intros _ st1 H1. apply spec_ret.
    split; [done|]. exists tok. split; [done|].
    by destruct (decide (text tok = "for")).
Qed.

Lemma parseEXPRVALUE_spec T st :
  spec T (parseEXPRVALUE tokens) st (advanced tokens st).
Proof.
  unfold parseEXPRVALUE.
  run next_spec. intros next_ st1 [-> Htok].
  case_bool_decide as Hkind.
  - run next_spec. intros tok st1 [-> _].
    run addError_spec. intros _ st1 H1. apply spec_ret.
    split; [lia|]. by intros [? ?].
  - run step_spec. intros _ st1 H1. apply spec_ret.
    split; [lia|]. intros _. split; [lia|]. intros Hend.
    exists next_. by rewrite <- nextToken_at_end with (pos := pos st).
Qed.

Lemma parseEXPRTERM2_spec T st :
  spec T (parseEXPRTERM2 tokens) st (advanced tokens st).
Proof.
  unfold parseEXPRTERM2.
  run next_spec. intros tok st1 [-> _].
  eapply spec_bind with (Qm := λ _ st', pos st ≤ pos st').
  { case_bool_decide.
    - run next_spec. intros pre st1 [-> _].
      run confirm_spec. intros _ st1 H1. apply spec_ret. lia.
    - by apply spec_ret. }
  intros pre st1 H1.
  run parseEXPRVALUE_spec. intros [exprvalue|] st2 [H2 Hvalue].
  - destruct Hvalue as [Hlt Hlast]; [done|].
    run next_spec. intros tok' st3 [-> _].
    eapply spec_bind with (Qm := λ _ st', pos st2 ≤ pos st').
    { case_bool_decide.
      - run next_spec. intros stop st3 [-> _].
        run confirm_spec. intros _ st3 H3. apply spec_ret. lia.
      - by apply spec_ret. }
    intros stop st3 H3. apply spec_ret.
    split; [lia|]. intros _. split; [lia|]. intros Hend. apply Hlast. lia.
  - apply spec_ret. split; [lia|]. by intros [? ?].
Qed.

Lemma parseEXPRTERM_spec T st :
  spec T (parseEXPRTERM tokens) st (advanced tokens st).
Proof.
  unfold parseEXPRTERM.
  run parseEXPRTERM2_spec. intros [exprterm2|] st1 [H1 Hterm].
  - apply spec_ret. split; [done|]. intros _. by apply Hterm.
  - apply spec_ret. split; [done|]. by intros [? ?].
Qed.

Lemma parseEXPROP_spec T st :
  spec T (parseEXPROP tokens) st (operatorRead tokens expropCandidates st).
Proof.
  unfold parseEXPROP.
  run next_spec. intros tok st1 [-> Htok].
  case_bool_decide as Hcand; simpl.
  - run next_spec. intros next_ st1 [-> _].
    run confirm_spec. intros _ st1 H1. apply spec_ret.
    split; [done|]. by exists tok.
  - by apply spec_ret.
Qed.

Lemma parseASSIGNOP_spec T st :
  spec T (parseASSIGNOP tokens) st (operatorRead tokens assignopCandidates st).
Proof.
  unfold parseASSIGNOP.
  run next_spec. intros tok st1 [-> Htok].
  case_bool_decide as Hcand; simpl.
  - run next_spec. intros next_ st1 [-> _].
    run confirm_spec. intros _ st1 H1. apply spec_ret.
    split; [done|]. by exists tok.
  - by apply spec_ret.
Qed.

(** Past the end [next()] keeps returning the final token; once that token
    has been read as a value it cannot also be read as an operator. *)
Lemma final_token_not_operator candidates pos tok :
  finalTokenClassified tokens →
  nonReservedLast tokens →
  length tokens ≤ pos →
  nextToken tokens pos = Some tok →
  text tok ∈ candidates →
  candidates = expropCandidates ∨ candidates = assignopCandidates
  ∨ candidates = ["if"] ∨ candidates = ["while"] →
  False.
Proof.
  intros Hclassified (final & Hfinal & Hkind) Hend Htok Hcand Hwhich.
  rewrite nextToken_at_end in Htok by done.
  assert (tok = final) as -> by congruence.
  destruct (Hclassified final Hfinal Hkind) as (Hop & Hassign & Hif & Hwhile).
  destruct Hwhich as [-> | [-> | [-> | ->]]]; [done|done|..].
  - by apply list_elem_of_singleton in Hcand.
  - by apply list_elem_of_singleton in Hcand.
Qed.

Lemma parseEXPR_spec fuel : ∀ st,
  spec (enough tokens (remaining tokens st + 1) fuel) (parseEXPR tokens fuel) st
       (advanced tokens st).
Proof.
  induction fuel as [|fuel IH]; intros st.
  { apply spec_outOfFuel. intros [_ Hfuel]. lia. }
  cbn [parseEXPR].
  run parseEXPRTERM_spec. intros [exprterm|] st1 [H1 Hterm].
  2: { apply spec_ret. split; [done|]. by intros [? ?]. }
  destruct Hterm as [Hlt Hlast]; [done|].
  run parseEXPROP_spec. intros [exprop|] st2 Hop; simpl in Hop.
  2: { subst st2. by apply spec_ret. }
  destruct Hop as [H2 (tok & Htok & Hcand)].
  eapply spec_bind.
  { eapply spec_weaken; [apply (IH st2) | | intros ? ? HQ; exact HQ].
    intros [Hclassified Hfuel]. split; [done|]. unfold remaining in *.
    destruct (decide (length tokens ≤ pos st)) as [Hend|Hin]; [|lia].
    exfalso. eapply (final_token_not_operator expropCandidates (pos st1));
      eauto; lia. }
  cbv beta. intros tail st3 [H3 _]. apply spec_ret.
  split; [lia|]. intros _. split; [lia | done].
Qed.

Lemma parseCONDITION_spec fuel st :
  spec (enough tokens (remaining tokens st + 1) fuel) (parseCONDITION tokens fuel) st
       (advanced tokens st).
Proof.
  unfold parseCONDITION.
  run parseEXPR_spec. intros [expr|] st1 [H1 Hexpr].
  - apply spec_ret. split; [done|]. intros _. by apply Hexpr.
  - apply spec_ret. split; [done|]. by intros [? ?].
Qed.

Lemma parseASSIGN_spec fuel : ∀ st,
  spec (enough tokens (remaining tokens st + 2) fuel) (parseASSIGN tokens fuel) st
       (advanced tokens st).
Proof.
  induction fuel as [|fuel IH]; intros st.
  { apply spec_outOfFuel. intros [_ Hfuel]. lia. }
  cbn [parseASSIGN].
  eapply spec_bind.
  { eapply spec_weaken;
      [apply (parseCONDITION_spec fuel st) | | intros ? ? HQ; exact HQ].
    intros [Hclassified Hfuel]. split; [done | lia]. }
  cbv beta. intros [condition|] st1 [H1 Hcondition].
  2: { apply spec_ret. split; [done|]. by intros [? ?]. }
  destruct Hcondition as [Hlt Hlast]; [done|].
  run parseASSIGNOP_spec. intros [op|] st2 Hop; simpl in Hop.
  2: { subst st2. by apply spec_ret. }
  destruct Hop as [H2 (tok & Htok & Hcand)].
  eapply spec_bind.
  { eapply spec_weaken; [apply (IH st2) | | intros ? ? HQ; exact HQ].
    intros [Hclassified Hfuel]. split; [done|]. unfold remaining in *.
    destruct (decide (length tokens ≤ pos st)) as [Hend|Hin]; [|lia].
    exfalso. eapply (final_token_not_operator assignopCandidates (pos st1));
      eauto; lia. }
  cbv beta. intros assign st3 [H3 _]. apply spec_ret.
  split; [lia|]. intros _. split; [lia | done].
Qed.

Lemma parseRETURN_spec fuel st :
  spec (enough tokens (remaining tokens st + 2) fuel) (parseRETURN tokens fuel) st
       (tried st).
Proof.
  unfold parseRETURN.
  run next_spec. intros tok st1 [-> Htok].
  case_bool_decide as Hreturn; [by apply spec_ret|].
  run step_spec. intros _ st1 H1.
  eapply spec_bind.
  { eapply spec_weaken;
      [apply (parseASSIGN_spec fuel st1) | | intros ? ? HQ; exact HQ].
    intros [Hclassified Hfuel]. split; [done|]. unfold remaining in *. lia. }
  cbv beta. intros [assign|] st2 [H2 _].
  - run expect_spec. intros ok st3 H3. apply spec_ret. simpl.
    destruct ok; lia.
  - apply spec_ret. simpl. lia.
Qed.

(** The head shared by [parseIF] and [parseWHILE] once the keyword is read:
    with a condition parsed, the statement that follows starts with less
    ahead of the cursor than the keyword had. *)
Lemma keyword_then_statement_fuel keyword st tok st2 st3 st4 fuel :
  nextToken tokens (pos st) = Some tok →
  text tok = keyword →
  keyword = "if" ∨ keyword = "while" →
  S (pos st) ≤ pos st2 →
  pos st2 < pos st3 ∧ (length tokens ≤ pos st2 → nonReservedLast tokens) →
  pos st3 ≤ pos st4 →
  enough tokens (2 * remaining tokens st + 3) (S fuel) →
  enough tokens (2 * remaining tokens st4 + 4) fuel.
Proof.
  intros Htok Htext Hkeyword H2 [H3 Hlast] H4 [Hclassified Hfuel].
  split; [done|]. unfold remaining in *.
  destruct (decide (length tokens ≤ pos st)) as [Hend|Hin]; [|lia].
  exfalso. eapply (final_token_not_operator [keyword] (pos st)); eauto.
  - apply Hlast. lia.
  - rewrite Htext. apply list_elem_of_here.
  - destruct Hkeyword as [->| ->]; auto.
Qed.

Lemma statement_specs fuel :
  (∀ st, spec (enough tokens (2 * remaining tokens st + 4) fuel)
              (parseSTATEMENT tokens fuel) st (triedStatement tokens st))
  ∧ (∀ st, spec (enough tokens (2 * remaining tokens st + 3) fuel)
                (parseWHILE tokens fuel) st (tried st))
  ∧ (∀ st, spec (enough tokens (2 * remaining tokens st + 3) fuel)
                (parseIF tokens fuel) st (tried st)).
Proof.
  induction fuel as [|fuel (IHS & IHW & IHI)].
  { repeat split; intros st; apply spec_outOfFuel; intros [_ Hfuel]; lia. }
  split; [|split]; intros st.
  - (* parseSTATEMENT *)
    cbn [parseSTATEMENT].
    eapply spec_bind.
    { eapply spec_weaken; [apply (IHI st) | | intros ? ? HQ; exact HQ].
      intros [Hclassified Hfuel]. split; [done | lia]. }
    cbv beta. intros [| |if_] st1 H1; simpl in H1;
      [subst st1 | apply spec_ret; exact H1 | apply spec_ret; exact H1].
    run parseFOR_spec. intros [| |for_] st2 H2; [subst st2 | done |].
    + eapply spec_bind.
      { eapply spec_weaken; [apply (IHW st) | | intros ? ? HQ; exact HQ].
        intros [Hclassified Hfuel]. split; [done | lia]. }
      cbv beta. intros [| |while_] st3 H3; simpl in H3;
        [subst st3 | apply spec_ret; exact H3 | apply spec_ret; exact H3].
      eapply spec_bind.
      { eapply spec_weaken;
          [apply (parseRETURN_spec fuel st) | | intros ? ? HQ; exact HQ].
        intros [Hclassified Hfuel]. split; [done | lia]. }
      cbv beta. intros [| |return_] st4 H4; simpl in H4; apply spec_ret;
        simpl; auto.
    + destruct H2 as [H2 Hfor].
      eapply spec_bind.
      { eapply spec_weaken; [apply (IHW st2) | | intros ? ? HQ; exact HQ].
        intros [Hclassified Hfuel]. split; [done|]. unfold remaining in *. lia. }
      cbv beta. intros [| |while_] st3 H3; simpl in H3;
        [subst st3 | apply spec_ret; simpl; lia | apply spec_ret; simpl; lia].
      eapply spec_bind.
      { eapply spec_weaken;
          [apply (parseRETURN_spec fuel st2) | | intros ? ? HQ; exact HQ].
        intros [Hclassified Hfuel]. split; [done|]. unfold remaining in *. lia. }
      cbv beta. intros [| |return_] st4 H4; simpl in H4; apply spec_ret; simpl;
        [subst st4; by right | lia | lia].
  - (* parseWHILE *)
    cbn [parseWHILE].
    run next_spec. intros tok st1 [-> Htok].
    case_bool_decide as Hkeyword; [by apply spec_ret|].
    assert (text tok = "while") as Htext
      by (by destruct (decide (text tok = "while"))).
    run step_spec. intros _ st1 H1.
    run expect_spec. intros opened st2 H2.
    assert (S (pos st) ≤ pos st2) as Hst2 by (destruct opened; lia).
    eapply spec_bind.
    { eapply spec_weaken;
        [apply (parseASSIGN_spec fuel st2) | | intros ? ? HQ; exact HQ].
      intros [Hclassified Hfuel]. split; [done|]. unfold remaining in *. lia. }
    cbv beta. intros [assign|] st3 [H3 Hassign];
      [|apply spec_ret; simpl; lia].
    specialize (Hassign (mk_is_Some _ _ eq_refl)).
    run expect_spec. intros closed st4 H4.
    assert (pos st3 ≤ pos st4) as Hst4 by (destruct closed; lia).
    eapply spec_bind.
    { eapply spec_weaken; [apply (IHS st4) | | intros ? ? HQ; exact HQ].
      eapply keyword_then_statement_fuel; eauto. }
    cbv beta. intros [| |statement] st5 H5; simpl in H5; apply spec_ret; simpl.
    + destruct H5 as [->|[H5 _]]; lia.
    + lia.
    + lia.
  - (* parseIF *)
    cbn [parseIF].
    run next_spec. intros tok st1 [-> Htok].
    case_bool_decide as Hkeyword; [by apply spec_ret|].
    assert (text tok = "if") as Htext
      by (by destruct (decide (text tok = "if"))).
    run step_spec. intros _ st1 H1.
    run expect_spec. intros opened st2 H2.
    assert (S (pos st) ≤ pos st2) as Hst2 by (destruct opened; lia).
    eapply spec_bind.
    { eapply spec_weaken;
        [apply (parseASSIGN_spec fuel st2) | | intros ? ? HQ; exact HQ].
      intros [Hclassified Hfuel]. split; [done|]. unfold remaining in *. lia. }
    cbv beta. intros [assign|] st3 [H3 Hassign];
      [|apply spec_ret; simpl; lia].
    specialize (Hassign (mk_is_Some _ _ eq_refl)).
    run expect_spec. intros closed st4 H4.
    assert (pos st3 ≤ pos st4) as Hst4 by (destruct closed; lia).
    eapply spec_bind.
    { eapply spec_weaken; [apply (IHS st4) | | intros ? ? HQ; exact HQ].
      eapply keyword_then_statement_fuel; eauto. }
    cbv beta. intros [| |ts] st5 H5; simpl in H5.
    + apply spec_ret. simpl. destruct H5 as [->|[H5 _]]; lia.
    + apply spec_ret. simpl. lia.
    + run next_spec. intros tok' st6 [-> _].
      case_bool_decide; [|apply spec_ret; simpl; lia].
      eapply spec_bind.
      { eapply spec_weaken; [apply (IHS st5) | | intros ? ? HQ; exact HQ].
        eapply keyword_then_statement_fuel; eauto. lia. }
      cbv beta. intros [| |fs] st6 H6; simpl in H6; apply spec_ret; simpl.
      * destruct H6 as [->|[H6 _]]; lia.
      * lia.
      * lia.
Qed.

Lemma parseSTATEMENT_spec fuel st :
  spec (enough tokens (2 * remaining tokens st + 4) fuel)
       (parseSTATEMENT tokens fuel) st (triedStatement tokens st).
Proof. apply statement_specs. Qed.

Lemma parseWHILE_spec fuel st :
  spec (enough tokens (2 * remaining tokens st + 3) fuel)
       (parseWHILE tokens fuel) st (tried st).
Proof. apply statement_specs. Qed.

Lemma parseIF_spec fuel st :
  spec (enough tokens (2 * remaining tokens st + 3) fuel)
       (parseIF tokens fuel) st (tried st).
Proof. apply statement_specs. Qed.

Lemma parseVAR_spec fuel st :
  spec (enough tokens (remaining tokens st + 1) fuel) (parseVAR tokens fuel) st
       (λ _ st', pos st < pos st').
Proof.
  unfold parseVAR.
  run parseTYPE_spec. intros [type|] st1 [Hsome H1]; [|by destruct Hsome].
  run next_spec. intros identifier st2 [-> _].
  run confirm_spec. intros _ st2 H2.
  run expect_spec. intros assigned st3 H3.
  assert (pos st2 ≤ pos st3) by (destruct assigned; lia).
  call (parseEXPR_spec fuel st3).
  { intros [Hclassified Hfuel]. split; [done|]. unfold remaining in *. lia. }
  intros [expr|] st4 [H4 _].
  - run expect_spec. intros ended st5 H5. apply spec_ret. destruct ended; lia.
  - run next_spec. intros tok st5 [-> _].
    run addError_spec. intros _ st5 H5. apply spec_ret. lia.
Qed.

(** A turn of the statement-block loop either breaks at [}] with the state
    as it was, or leaves the cursor strictly further: by a statement, by a
    variable declaration, or by the token it skips. *)
Lemma parseSTATBLOCK_turn_spec fuel statements st :
  spec (enough tokens (2 * remaining tokens st + 4) fuel)
       (parseSTATBLOCK_turn tokens fuel statements) st
       (λ r st', match r with
                 | None => st' = st
                 | Some _ => pos st < pos st'
                 end).
Proof.
  unfold parseSTATBLOCK_turn.
  run next_spec. intros tok st1 [-> _].
  case_bool_decide; [by apply spec_ret|].
  run parseSTATEMENT_spec. intros [| |statement] st1 H1; simpl in H1.
  - assert (pos st ≤ pos st1) by (destruct H1 as [->|[H1 _]]; lia).
    call (parseVAR_spec fuel st1).
    { intros [Hclassified Hfuel]. split; [done|]. unfold remaining in *. lia. }
    intros [var_|] st2 H2.
    + apply spec_ret. lia.
    + run step_spec. intros _ st3 H3. apply spec_ret. lia.
  - run step_spec. intros _ st2 H2. apply spec_ret. lia.
  - by apply spec_ret.
Qed.

Lemma parseSTATBLOCK_while_spec fuel : ∀ statements st,
  spec (enough tokens (3 * remaining tokens st + 5) fuel)
       (parseSTATBLOCK_while tokens fuel statements) st
       (λ _ st', pos st ≤ pos st').
Proof.
  induction fuel as [|fuel IH]; intros statements st.
  { apply spec_outOfFuel. intros [_ Hfuel]. lia. }
  cbn [parseSTATBLOCK_while].
  run isEnd_spec. intros end_ st1 [-> ->].
  case_bool_decide as Hend; [by apply spec_ret|].
  call (parseSTATBLOCK_turn_spec fuel statements st).
  { intros [Hclassified Hfuel]. split; [done | lia]. }
  intros [statements'|] st1 H1; [|subst st1; by apply spec_ret].
  eapply spec_weaken; [apply (IH statements' st1) | | cbv beta].
  - intros [Hclassified Hfuel]. split; [done|]. unfold remaining in *. lia.
  - intros _ st2 H2. lia.
Qed.

Lemma parseSTATBLOCK_spec fuel st :
  spec (enough tokens (3 * remaining tokens st + 5) fuel) (parseSTATBLOCK tokens fuel) st
       (λ _ st', pos st ≤ pos st').
Proof.
  unfold parseSTATBLOCK.
  run expect_spec. intros opened st1 H1.
  assert (pos st ≤ pos st1) by (destruct opened; lia).
  call (parseSTATBLOCK_while_spec fuel [] st1).
  { intros [Hclassified Hfuel]. split; [done|]. unfold remaining in *. lia. }
  intros statements st2 H2.
  run expect_spec. intros closed st3 H3. apply spec_ret. destruct closed; lia.
Qed.

Lemma parsePARAMLIST_for_spec fuel : ∀ params st,
  spec (enough tokens (remaining tokens st + 1) fuel)
       (parsePARAMLIST_for tokens fuel params) st
       (λ _ st', pos st ≤ pos st').
Proof.
  induction fuel as [|fuel IH]; intros params st.
  { apply spec_outOfFuel. intros [_ Hfuel]. lia. }
  cbn [parsePARAMLIST_for].
  run isEnd_spec. intros end_ st1 [-> ->].
  eapply spec_bind
    with (Qm := λ stop st', st' = st
                            ∧ (stop = false → ¬ length tokens ≤ pos st)).
  { case_bool_decide.
    - by apply spec_ret.
    - run next_spec. intros tok st1 [-> _]. by apply spec_ret. }
  intros [|] st1 [-> Hin]; [by apply spec_ret|].
  specialize (Hin eq_refl).
  eapply spec_bind with (Qm := λ _ st', pos st ≤ pos st').
  { case_bool_decide.
    - last expect_spec. intros comma st1 H1. destruct comma; lia.
    - by apply spec_ret. }
  intros [|] st1 H1; simpl; [|by apply spec_ret].
  run parseTYPE_spec. intros [type|] st2 [_ H2]; [|apply spec_ret; lia].
  run next_spec. intros tok st3 [-> _].
  case_bool_decide.
  - run next_spec. intros identifier st3 [-> _].
    run step_spec. intros _ st3 H3.
    eapply spec_weaken; [apply (IH _ st3) | | cbv beta].
    + intros [Hclassified Hfuel]. split; [done|]. unfold remaining in *. lia.
    + intros _ st4 H4. lia.
  - eapply spec_weaken; [apply (IH _ st2) | | cbv beta].
    + intros [Hclassified Hfuel]. split; [done|]. unfold remaining in *. lia.
    + intros _ st4 H4. lia.
Qed.

Lemma parsePARAMLIST_spec fuel st :
  spec (enough tokens (remaining tokens st + 1) fuel) (parsePARAMLIST tokens fuel) st
       (λ _ st', pos st ≤ pos st').
Proof.
  unfold parsePARAMLIST.
  run expect_spec. intros opened st1 H1.
  assert (pos st ≤ pos st1) by (destruct opened; lia).
  call (parsePARAMLIST_for_spec fuel [] st1).
  { intros [Hclassified Hfuel]. split; [done|]. unfold remaining in *. lia. }
  intros params st2 H2.
  run expect_spec. intros closed st3 H3. apply spec_ret. destruct closed; lia.
Qed.

Lemma parseFUNC_spec fuel st :
  spec (enough tokens (3 * remaining tokens st + 5) fuel) (parseFUNC tokens fuel) st
       (λ _ st', pos st < pos st').
Proof.
  unfold parseFUNC.
  run parseTYPE_spec. intros [ret_|] st1 [Hsome H1]; [|by destruct Hsome].
  run next_spec. intros identifier st2 [-> _].
  run step_spec. intros _ st2 H2.
  call (parsePARAMLIST_spec fuel st2).
  { intros [Hclassified Hfuel]. split; [done|]. unfold remaining in *. lia. }
  intros paramlist st3 H3.
  call (parseSTATBLOCK_spec fuel st3).
  { intros [Hclassified Hfuel]. split; [done|]. unfold remaining in *. lia. }
  intros statblock st4 H4. apply spec_ret. lia.
Qed.

(** A turn of the script loop leaves the cursor strictly further. *)
Lemma parseSCRIPT_turn_spec fuel funcs st :
  spec (enough tokens (3 * remaining tokens st + 5) fuel)
       (parseSCRIPT_turn tokens fuel funcs) st
       (λ _ st', pos st < pos st').
Proof.
  unfold parseSCRIPT_turn.
  run parseFUNC_spec. intros [func|] st1 H1; by apply spec_ret.
Qed.

Lemma parseSCRIPT_while_spec fuel : ∀ funcs st,
  spec (enough tokens (4 * remaining tokens st + 6) fuel)
       (parseSCRIPT_while tokens fuel funcs) st
       (λ _ st', pos st ≤ pos st').
Proof.
  induction fuel as [|fuel IH]; intros funcs st.
  { apply spec_outOfFuel. intros [_ Hfuel]. lia. }
  cbn [parseSCRIPT_while].
  run isEnd_spec. intros end_ st1 [-> ->].
  case_bool_decide as Hend; [by apply spec_ret|].
  call (parseSCRIPT_turn_spec fuel funcs st).
  { intros [Hclassified Hfuel]. split; [done | lia]. }
  intros funcs' st1 H1.
  eapply spec_weaken; [apply (IH funcs' st1) | | cbv beta].
  - intros [Hclassified Hfuel]. split; [done|]. unfold remaining in *. lia.
  - intros _ st2 H2. lia.
Qed.

Lemma parseSCRIPT_spec fuel st :
  spec (enough tokens (4 * remaining tokens st + 6) fuel) (parseSCRIPT tokens fuel) st
       (λ _ st', pos st ≤ pos st').
Proof.
  unfold parseSCRIPT.
  run parseSCRIPT_while_spec. intros funcs st1 H1. by apply spec_ret.
Qed.

End ParserSpecs.

Section ParserTheorems.

Import Parser.

(** C5, as stated, fails: with a condition that parses and a consequent that
    is no-match ([;]) or committed-incomplete ([return ;]), [parseIF]
    produces no if node at all; it reports ['pending'], with the tokens of
    the condition consumed. *)
Lemma parseIF_malformed_consequent_no_node :
  (∃ st', parseIF ifWithoutStatement 4 initialState = Ok (pending, st')
          ∧ pos st' = 4)
  ∧ (∃ st', parseIF ifWithBrokenReturn 4 initialState = Ok (pending, st')
            ∧ pos st' = 5).
Proof. split; eexists; (split; [vm_compute; reflexivity | reflexivity]). Qed.

(** C5, amended. When [parseIF] has read [if], the condition parses and the
    parse of the consequent reports no-match or committed-incomplete,
    [parseIF] reports committed-incomplete (['pending']) and builds no if
    node: the whole [if] is given up, in the state the consequent left. *)
Theorem parseIF_malformed_consequent tokens fuel st tok st1 opened st2 assign
    st3 closed st4 ts st5 :
  next tokens st = Ok (tok, st) →
  text tok = "if" →
  step st = Ok (tt, st1) →
  expect tokens "(" HighlightToken.Operator None st1 = Ok (opened, st2) →
  parseASSIGN tokens fuel st2 = Ok (Some assign, st3) →
  expect tokens ")" HighlightToken.Operator None st3 = Ok (closed, st4) →
  parseSTATEMENT tokens fuel st4 = Ok (ts, st5) →
  ts = mismatch ∨ ts = pending →
  parseIF tokens (S fuel) st = Ok (pending, st5).
Proof.
  intros Hnext Htext Hstep Hopen Hassign Hclose Hts Hmalformed.
  cbn [parseIF]. unfold bind at 1. rewrite Hnext.
  rewrite bool_decide_eq_false_2 by (intros Hne; by apply Hne).
  unfold bind at 1. rewrite Hstep.
  unfold bind at 1. rewrite Hopen.
  unfold bind at 1. rewrite Hassign.
  unfold bind at 1. rewrite Hclose.
  unfold bind at 1. rewrite Hts.
  by destruct Hmalformed as [->| ->].
Qed.

(** C6 fails on [parseSTATEMENT]: on the single token [for] it reports
    no-match, and the cursor has moved from 0 to 1 ([parseFOR] consumed the
    keyword and its node is dropped, the line that returns it being
    commented out). *)
Theorem parseSTATEMENT_mismatch_consumes_for :
  ∃ st', parseSTATEMENT [reservedToken "for"] 2 initialState
         = Ok (mismatch, st')
         ∧ pos initialState = 0 ∧ pos st' = 1.
Proof. eexists. split; [vm_compute; reflexivity | done]. Qed.

(** C7 fails: on [a.b.c()] the expression term is [a] with the single
    suffix [.]; the cursor stops at [b], two tokens in, with five of the
    seven tokens unread. *)
Theorem parseEXPRTERM2_single_suffix :
  ∃ st', parseEXPRTERM2 memberCallChain initialState
         = Ok (Some {| term_pre := None;
                       term_exprvalue := identifierToken "a";
                       term_stop := Some (reservedToken ".") |}, st')
         ∧ pos st' = 2
         ∧ nextToken memberCallChain (pos st') = Some (identifierToken "b")
         ∧ length memberCallChain = 7.
Proof. eexists. split; [vm_compute; reflexivity | done]. Qed.

(** [parseFromTokens([])]: the script loop is not entered. *)
Lemma parseFromTokens_empty fuel :
  parseFromTokens (S fuel) [] = Ok ({| funcs := [] |}, initialState).
Proof. reflexivity. Qed.

(** C9, as stated, fails in its second half: on the empty token sequence
    the behaviour of [parseFromTokens] is defined, it returns the empty
    script without a diagnostic ([isEnd()] guards the loop, [next()] is never
    called). *)
Lemma parseFromTokens_empty_defined :
  parseFromTokens 1 [] = Ok ({| funcs := [] |}, initialState).
Proof. reflexivity. Qed.

(** C9, amended. On a non-empty token sequence [next()] is total: it
    returns a token of the sequence, the final one whenever the position is
    at or past the end, and no run of [parseFromTokens] or of a production
    reads a property of [undefined], from whatever cursor state and with
    whatever fuel. On the empty sequence [next()] has no token to return, but
    [parseFromTokens] never calls it: it returns the empty script. *)
Theorem next_total_on_nonempty :
  (∀ tokens pos, tokens ≠ [] →
     ∃ tok, nextToken tokens pos = Some tok
            ∧ tokens !! nextIndex tokens pos = Some tok
            ∧ (length tokens ≤ pos → last tokens = Some tok))
  ∧ (∀ tokens fuel, tokens ≠ [] → parseFromTokens fuel tokens ≠ TypeError)
  ∧ (∀ tokens fuel st, tokens ≠ [] →
       parseFUNC tokens fuel st ≠ TypeError
       ∧ parseSTATBLOCK tokens fuel st ≠ TypeError
       ∧ parseSTATEMENT tokens fuel st ≠ TypeError
       ∧ parseVAR tokens fuel st ≠ TypeError
       ∧ parseASSIGN tokens fuel st ≠ TypeError)
  ∧ (∀ pos, nextToken [] pos = None)
  ∧ (∀ fuel, parseFromTokens (S fuel) []
             = Ok ({| funcs := [] |}, initialState)).
Proof.
  split; [|split; [|split; [|split]]].
  - intros tokens pos Hne.
    destruct (nextToken_is_Some tokens pos Hne) as [tok Htok].
    exists tok. split; [done|]. split.
    + by rewrite <- nextToken_lookup.
    + intros Hend. by rewrite <- nextToken_at_end with (pos := pos).
  - intros tokens fuel Hne. unfold parseFromTokens.
    eapply spec_no_TypeError. by apply parseSCRIPT_spec.
  - intros tokens fuel st Hne. repeat split; eapply spec_no_TypeError.
    + by apply parseFUNC_spec.
    + by apply parseSTATBLOCK_spec.
    + by apply parseSTATEMENT_spec.
    + by apply parseVAR_spec.
    + by apply parseASSIGN_spec.
  - apply nextToken_empty.
  - apply parseFromTokens_empty.
Qed.

(** C8. Parser termination. For every finite token sequence of a tokenizer,
    [parseFromTokens] returns a script, for every fuel from
    [4 * length tokens + 6] on. All that is used of the tokenizer is how it
    classifies the final token, the one [next()] keeps returning past the
    end: it is reserved, or else carries no operator text and is neither [if]
    nor [while] (so it is whenever every word of the registry is of the
    reserved kind). And for every token sequence whatsoever, a turn of the
    script loop that returns leaves the cursor strictly further, and so does
    a turn of the statement-block loop unless it breaks at [}]: every turn
    consumes or skips at least one token. *)
Theorem parseFromTokens_terminates tokens :
  (finalTokenClassified tokens →
   ∀ fuel, 4 * length tokens + 6 ≤ fuel →
     ∃ script st', parseFromTokens fuel tokens = Ok (script, st'))
  ∧ (∀ fuel funcs st funcs' st',
       parseSCRIPT_turn tokens fuel funcs st = Ok (funcs', st') →
       pos st < pos st')
  ∧ (∀ fuel statements st statements' st',
       parseSTATBLOCK_turn tokens fuel statements st
       = Ok (Some statements', st') →
       pos st < pos st').
Proof.
  destruct (decide (tokens = [])) as [->|Hne].
  { split; [|split].
    - intros _ fuel Hfuel. destruct fuel as [|fuel]; [simpl in Hfuel; lia|].
      rewrite parseFromTokens_empty. by eauto.
    - intros fuel funcs st funcs' st' Hrun. by vm_compute in Hrun.
    - intros fuel statements st statements' st' Hrun. by vm_compute in Hrun. }
  split; [|split].
  - intros Hclassified fuel Hfuel. unfold parseFromTokens.
    destruct (spec_returns _ _ _ _ (parseSCRIPT_spec tokens Hne fuel initialState))
      as (script & st' & Hrun & _).
    + split; [done|]. unfold remaining. simpl. lia.
    + by eauto.
  - intros fuel funcs st funcs' st' Hrun.
    exact (spec_result _ _ _ _ _ _
             (parseSCRIPT_turn_spec tokens Hne fuel funcs st) Hrun).
  - intros fuel statements st statements' st' Hrun.
    exact (spec_result _ _ _ _ _ _
             (parseSTATBLOCK_turn_spec tokens Hne fuel statements st) Hrun).
Qed.

End ParserTheorems.

Section ParserDivergence.

Import Parser.

Lemma bind_Ok {A B} (m : M A) (k : A → M B) st a st' :
  m st = Ok (a, st') → bind m k st = k a st'.
Proof. unfold bind. by intros ->. Qed.

Lemma bind_OutOfFuel {A B} (m : M A) (k : A → M B) st :
  m st = OutOfFuel → bind m k st = OutOfFuel.
Proof. unfold bind. by intros ->. Qed.

(** Past [a] every read returns the final [*]: it is taken as a value (it
    is not reserved) and then as a binary operator (by its text), and
    [parseEXPR] calls itself again, whatever the fuel. *)
Lemma parseEXPR_dangling fuel : ∀ st,
  7 ≤ pos st → parseEXPR danglingOperator fuel st = OutOfFuel.
Proof.
  induction fuel as [|fuel IH]; intros [p h d] Hpos; [reflexivity|].
  simpl in Hpos.
  assert (∃ k, p = 7 + k) as [k ->] by (exists (p - 7); lia).
  cbn [parseEXPR].
  destruct k as [|k]; cbv -[parseEXPR]; rewrite IH by (simpl; lia);
    reflexivity.
Qed.

Lemma parseEXPR_dangling_at_a fuel : ∀ st,
  pos st = 6 → parseEXPR danglingOperator fuel st = OutOfFuel.
Proof.
  destruct fuel as [|fuel]; intros [p h d] Hpos; [reflexivity|].
  simpl in Hpos. subst p.
  cbn [parseEXPR]. cbv -[parseEXPR].
  rewrite parseEXPR_dangling by (simpl; lia). reflexivity.
Qed.

Ltac ok := erewrite bind_Ok by (vm_compute; reflexivity); cbv beta iota.

Ltac branch :=
  match goal with
  | |- context [if ?c then _ else _] =>
      let v := eval vm_compute in c in change c with v; cbv beta iota
  end.

Lemma parseFromTokens_dangling fuel :
  parseFromTokens fuel danglingOperator = OutOfFuel.
Proof.
  do 4 (destruct fuel as [|fuel]; [reflexivity|]).
  unfold parseFromTokens, parseSCRIPT. apply bind_OutOfFuel.
  cbn [parseSCRIPT_while]. ok.
  apply bind_OutOfFuel. unfold parseSCRIPT_turn. apply bind_OutOfFuel.
  unfold parseFUNC. do 4 ok. apply bind_OutOfFuel.
  unfold parseSTATBLOCK. ok. apply bind_OutOfFuel.
  cbn [parseSTATBLOCK_while]. ok. apply bind_OutOfFuel.
  unfold parseSTATBLOCK_turn. ok. apply bind_OutOfFuel.
  cbn [parseSTATEMENT]. do 3 ok. apply bind_OutOfFuel.
  unfold parseRETURN. ok. branch. ok. apply bind_OutOfFuel.
  cbn [parseASSIGN]. apply bind_OutOfFuel.
  unfold parseCONDITION. apply bind_OutOfFuel.
  by apply parseEXPR_dangling_at_a.
Qed.

(** What the classification of the final token is needed for: on the
    sequence above, which ends in a [*] of the identifier kind and which no
    tokenizer produces, no amount of fuel makes [parseFromTokens] return (in
    JavaScript the recursion of [parseEXPR] ends in a stack overflow). The
    loops are not at fault: the run never comes back to them. *)
Lemma parseFromTokens_not_total :
  ¬ ∃ fuel result, parseFromTokens fuel danglingOperator = Ok result.
Proof. intros (fuel & result & Hrun). by rewrite parseFromTokens_dangling in Hrun. Qed.

End ParserDivergence.

Section TriStateContract.

Import Parser.

(** The no-match outcome of [parseIF], [parseFOR], [parseWHILE] and
    [parseRETURN] leaves the state (cursor, highlights, diagnostics) as it
    was; that of [parseSTATEMENT] does too, unless the token read is [for]. *)
Lemma mismatch_contract tokens fuel st st' :
  (parseIF tokens fuel st = Ok (mismatch, st') → st' = st)
  ∧ (parseFOR tokens st = Ok (mismatch, st') → st' = st)
  ∧ (parseWHILE tokens fuel st = Ok (mismatch, st') → st' = st)
  ∧ (parseRETURN tokens fuel st = Ok (mismatch, st') → st' = st)
  ∧ (parseSTATEMENT tokens fuel st = Ok (mismatch, st') →
     st' = st
     ∨ (pos st' = S (pos st)
        ∧ ∃ tok, nextToken tokens (pos st) = Some tok ∧ text tok = "for")).
Proof.
  destruct (decide (tokens = [])) as [->|Hne].
  { repeat split; intros Hrun; exfalso; revert Hrun.
    - destruct fuel; by vm_compute.
    - by vm_compute.
    - destruct fuel; by vm_compute.
    - by vm_compute.
    - destruct fuel as [|[|fuel]]; by vm_compute. }
  repeat split; intros Hrun.
  - exact (spec_result _ _ _ _ _ _ (parseIF_spec tokens Hne fuel st) Hrun).
  - exact (spec_result True _ _ _ _ _ (parseFOR_spec tokens Hne _ st) Hrun).
  - exact (spec_result _ _ _ _ _ _ (parseWHILE_spec tokens Hne fuel st) Hrun).
  - exact (spec_result _ _ _ _ _ _ (parseRETURN_spec tokens Hne fuel st) Hrun).
  - exact (spec_result _ _ _ _ _ _ (parseSTATEMENT_spec tokens Hne fuel st) Hrun).
Qed.

End TriStateContract.

(* ===================================================================== *)
(** * The theorems at concrete inputs *)
(* ===================================================================== *)

Section Witnesses.

Import Symbolic.

(** Three overloads of [f] inserted into an empty map. *)
Lemma insertSymbolicObject_overload_order_witness :
  ∃ m' w',
    insertSymbolicObjects 3 ∅ [1; 2; 3]%positive threeOverloads
    = Returned ([true; true; true], m', w')
    ∧ overloadChain (heap w') (m' !! "f") [1; 2; 3]%positive
    ∧ diagnostics w' = [].
Proof.
  apply (insertSymbolicObject_overload_order
           [1; 2; 3]%positive 3 ∅ threeOverloads "f" []).
  - constructor.
  - by apply (bool_decide_unpack _).
  - intros f Hf. split; [by intros Hin%elem_of_nil|].
    repeat (apply elem_of_cons in Hf as [->|Hf]);
      [by eexists..|by apply elem_of_nil in Hf].
  - simpl. lia.
Defined.

(** A class [x] inserted where the variable [x] is already declared. *)
Lemma insertSymbolicObject_duplicate_witness :
  insertSymbolicObject 0 {[ "x" := 1%positive ]} 2%positive variableThenClass
  = Returned (false, {[ "x" := 1%positive ]},
              {| heap := heap variableThenClass;
                 diagnostics :=
                   [(location (declaredAt TokenKind.Identifier "x" 2),
                     "Symbol 'x' is already defined 💢")] |})
  ∧ ({[ "x" := 1%positive ]} : gmap string SymbolRef) !! "x" = Some 1%positive.
Proof.
  apply (insertSymbolicObject_duplicate 0 {[ "x" := 1%positive ]}
           variableThenClass 2%positive classX 1%positive variableX).
  - reflexivity.
  - reflexivity.
  - reflexivity.
  - intros [Hkind _]. discriminate Hkind.
Defined.

(** Two occurrences of [int], on lines 1 and 9. *)
Lemma tryGetBuiltInType_singleton_witness :
  ∃ r type,
    tryGetBuiltInType (declaredAt TokenKind.Reserved "int" 1) = Passed (Some r)
    ∧ builtinSingleton "int" = Some r
    ∧ builtinHeap builtins !! r = Some (OType type)
    ∧ text (type_declaredPlace type) = "int"
    ∧ sourceType type = SourcePrimitive PrimitiveType.Number
    ∧ tryGetBuiltInType (declaredAt TokenKind.Reserved "int" 9) = Passed (Some r).
Proof.
  assert (registered (declaredAt TokenKind.Reserved "int" 1)) as Hline1
    by (vm_compute; reflexivity).
  assert (registered (declaredAt TokenKind.Reserved "int" 9)) as Hline9
    by (vm_compute; reflexivity).
  destruct (tryGetBuiltInType_singleton
              (declaredAt TokenKind.Reserved "int" 1)
              (declaredAt TokenKind.Reserved "int" 9)
              (λ _, Hline1) (λ _, Hline9)) as [Hnamed _].
  destruct Hnamed as (r & type & H1 & H2 & H3 & H4 & H5 & H6).
  - reflexivity.
  - by apply (bool_decide_unpack _).
  - exists r, type. repeat split; first [done | by apply H6].
Defined.

(** The use of [T] resolved under the translation that binds [T] to [int];
    and the use of the parameter declared at the lookalike token, which has
    the fields of the key and is another object: it is no key of the map,
    and the type comes back unchanged. *)
Lemma resolveTemplateType_cases_witness :
  resolveTemplateType bindsTToInt (Some templateUse) = Some intType
  ∧ (kind lookalikeToken, text lookalikeToken, location lookalikeToken,
     property lookalikeToken)
    = (kind (declaredAt TokenKind.Identifier "T" 1),
       text (declaredAt TokenKind.Identifier "T" 1),
       location (declaredAt TokenKind.Identifier "T" 1),
       property (declaredAt TokenKind.Identifier "T" 1))
  ∧ resolveTemplateType bindsTToInt (Some lookalikeUse) = Some lookalikeUse.
Proof.
  split; [|split].
  - apply (proj1 (proj2 (proj2 (resolveTemplateType_cases bindsTToInt)))
             templateUse templateParameter (Some intType)).
    + reflexivity.
    + reflexivity.
    + vm_compute. reflexivity.
  - reflexivity.
  - apply (proj2 (proj2 (proj2 (resolveTemplateType_cases bindsTToInt)))
             lookalikeUse lookalikeParameter).
    + reflexivity.
    + right. vm_compute. reflexivity.
Defined.

(** [x] looked up from the method scope, declared there and in the root. *)
Lemma findSymbolWithParent_shadowing_witness :
  findSymbolWithParent methodScope "x"
  = Some {| symbol := 2%positive; scope := methodScope |}.
Proof.
  apply (findSymbolWithParent_shadowing methodScope rootScope "x"
           2%positive 1%positive).
  - by apply ancestor_parent.
  - reflexivity.
  - reflexivity.
Defined.

End Witnesses.

Section ParserWitnesses.

Import Parser.

(** [next()] far past the end of [a . b . c ( )] returns the final [)]. *)
Lemma next_total_on_nonempty_witness :
  ∃ tok, nextToken memberCallChain 99 = Some tok
         ∧ memberCallChain !! nextIndex memberCallChain 99 = Some tok
         ∧ (length memberCallChain ≤ 99 → last memberCallChain = Some tok).
Proof.
  apply (proj1 next_total_on_nonempty memberCallChain 99). discriminate.
Defined.

(** [if ( a ) ;]: the consequent is no-match. *)
Lemma parseIF_malformed_consequent_witness :
  ∃ st5, parseIF ifWithoutStatement 4 initialState = Ok (pending, st5)
         ∧ pos st5 = 4.
Proof.
  eexists. split.
  - eapply (parseIF_malformed_consequent ifWithoutStatement 3 initialState).
    + vm_compute. reflexivity.
    + reflexivity.
    + reflexivity.
    + vm_compute. reflexivity.
    + vm_compute. reflexivity.
    + vm_compute. reflexivity.
    + vm_compute. reflexivity.
    + by left.
  - reflexivity.
Defined.

(** [void f ( ) { return a], whose final token is an identifier that is no
    operator: 34 units of fuel are enough. *)
Lemma parseFromTokens_terminates_witness :
  finalTokenClassified unfinishedReturn
  ∧ ∃ script st', parseFromTokens 34 unfinishedReturn = Ok (script, st').
Proof.
  assert (finalTokenClassified unfinishedReturn) as Hclassified.
  { intros final [= <-] _. repeat split; by apply (bool_decide_unpack _). }
  split; [exact Hclassified|].
  refine (proj1 (parseFromTokens_terminates unfinishedReturn) Hclassified 34 _).
  simpl. lia.
Defined.

End ParserWitnesses.

(* ===================================================================== *)
(** * Further properties of the reserved-word registry (tokenReserves.ts) *)
(* ===================================================================== *)

Section CheckedTables.

(** A property of every entry of a table, checked by running over it. *)
Lemma map_forallb `{Countable K} {A} (f : K → A → bool) (m : gmap K A) :
  forallb (λ kv, f kv.1 kv.2) (map_to_list m) = true →
  ∀ k a, m !! k = Some a → f k a = true.
Proof.
  intros Hall k a Hk.
  rewrite forallb_forall in Hall.
  apply (Hall (k, a)). apply list_elem_of_In. by apply elem_of_map_to_list.
Qed.

Lemma list_forallb {A} (f : A → bool) (l : list A) :
  forallb f l = true → ∀ a, a ∈ l → f a = true.
Proof.
  intros Hall a Ha. rewrite forallb_forall in Hall.
  apply Hall. by apply list_elem_of_In.
Qed.

End CheckedTables.

Section RegistryFacts.

Import TokenReserves.

Lemma registry_lookup (word : string) :
  reservedWordProperties !! word
  = if bool_decide (word ∈ reservedMarkArray ++ reservedKeywordArray)
    then Some (flagsOf word) else None.
Proof.
  case_bool_decide as Hword.
  - refine (proj1 (bool_decide_eq_true _) _).
    revert word Hword.
    apply (list_forallb
             (λ word, bool_decide (reservedWordProperties !! word
                                   = Some (flagsOf word)))).
    vm_compute. reflexivity.
  - destruct (reservedWordProperties !! word) as [p|] eqn:Hp; [|done].
    exfalso. apply Hword.
    apply (map_forallb
             (λ word _, bool_decide
                          (word ∈ reservedMarkArray ++ reservedKeywordArray)))
      in Hp; [by apply bool_decide_eq_true in Hp|].
    vm_compute. reflexivity.
Qed.

Lemma registry_flag (word : string) (p : ReservedWordProperty) :
  reservedWordProperties !! word = Some p → p = flagsOf word.
Proof.
  rewrite registry_lookup. case_bool_decide; [|done]. by intros [= <-].
Qed.

(** [createProperties] registers exactly the reserved marks and the reserved
    keywords, and the record of a word has each of its eight flags set
    exactly when the word is a member of the set of that flag. *)
Theorem createProperties_flags (word : string) :
  createProperties !! word
  = if bool_decide (word ∈ reservedMarkArray ++ reservedKeywordArray)
    then Some (flagsOf word) else None.
Proof. apply registry_lookup. Qed.

(** The keyword map is the registry cut down to the keywords:
    [findReservedKeywordProperty] answers with the record of the registry for
    a reserved keyword, and with [undefined] for every other string, the
    reserved marks included. *)
Theorem findReservedKeywordProperty_keywords (str : string) :
  findReservedKeywordProperty str
  = if bool_decide (str ∈ reservedKeywordArray)
    then reservedWordProperties !! str else None.
Proof.
  unfold findReservedKeywordProperty.
  case_bool_decide as Hword.
  - refine (proj1 (bool_decide_eq_true _) _).
    revert str Hword.
    apply (list_forallb
             (λ str, bool_decide (reservedKeywordProperties !! str
                                  = reservedWordProperties !! str))).
    vm_compute. reflexivity.
  - destruct (reservedKeywordProperties !! str) as [p|] eqn:Hp; [|done].
    exfalso. apply Hword.
    apply (map_forallb
             (λ word _, bool_decide (word ∈ reservedKeywordArray)))
      in Hp; [by apply bool_decide_eq_true in Hp|].
    vm_compute. reflexivity.
Qed.

Lemma table_registered (set : list string) :
  forallb (λ name, bool_decide
                     (name ∈ reservedMarkArray ++ reservedKeywordArray)) set
  = true →
  ∀ name, name ∈ set → name ∈ reservedMarkArray ++ reservedKeywordArray.
Proof.
  intros Hall name Hname.
  pose proof (list_forallb _ _ Hall name Hname) as Hin. simpl in Hin.
  by apply bool_decide_eq_true in Hin.
Qed.

Lemma flagged_iff (word : string) (set : list string)
    (flag : ReservedWordProperty → bool) :
  (∀ name, name ∈ set →
           name ∈ reservedMarkArray ++ reservedKeywordArray) →
  (∀ name, flag (flagsOf name) = bool_decide (name ∈ set)) →
  word ∈ set
  ↔ ∃ p, reservedWordProperties !! word = Some p ∧ flag p = true.
Proof.
  intros Hregistered Hflag. split.
  - intros Hword. exists (flagsOf word). split.
    + rewrite registry_lookup. by rewrite bool_decide_eq_true_2 by auto.
    + rewrite Hflag. by apply bool_decide_eq_true_2.
  - intros (p & Hp & Hset). apply registry_flag in Hp as ->.
    rewrite Hflag in Hset. by apply bool_decide_eq_true in Hset.
Qed.

(** The operator tables written out in [parser.ts] are the operator sets of
    the registry: a word is a prefix operator for [parseEXPRTERM2], a binary
    operator for [parseEXPROP] or an assignment operator for [parseASSIGNOP]
    exactly when the registry holds it with the flag of that category. *)
Theorem operator_tables_agree (word : string) :
  (word ∈ Parser.preops
   ↔ ∃ p, reservedWordProperties !! word = Some p ∧ isExprPreOp p = true)
  ∧ (word ∈ Parser.expropCandidates
     ↔ ∃ p, reservedWordProperties !! word = Some p ∧ isBinaryOp p = true)
  ∧ (word ∈ Parser.assignopCandidates
     ↔ ∃ p, reservedWordProperties !! word = Some p ∧ isAssignOp p = true).
Proof.
  split; [|split]; apply flagged_iff.
  - by apply table_registered.
  - done.
  - by apply table_registered.
  - intros name. unfold isBinaryOp, flagsOf. simpl.
    change Parser.expropCandidates
      with (mathOpSet ++ compOpSet ++ logicOpSet ++ bitOpSet).
    repeat case_bool_decide; simpl; try done;
      repeat match goal with
             | H : ¬ (_ ∈ _ ++ _) |- _ => apply not_elem_of_app in H as [? ?]
             | H : _ ∈ _ ++ _ |- _ => apply elem_of_app in H as [?|?]
             end; done.
  - by apply table_registered.
  - done.
Qed.

End RegistryFacts.

(* ===================================================================== *)
(** * Further properties of the symbol table (symbolic.ts) *)
(* ===================================================================== *)

Section InsertionFacts.

Import Symbolic.

Implicit Types (h : gmap SymbolRef SymbolicObject) (m : gmap string SymbolRef).
Implicit Types (w : World).

Lemma appendOverload_inv fuel : ∀ h cursor symbol h',
  appendOverload fuel h cursor symbol = Returned h' →
  ∃ tail func, h !! tail = Some (OFunction func)
               ∧ nextOverload func = None
               ∧ h' = <[tail := OFunction (set_nextOverload func symbol)]> h.
Proof.
  induction fuel as [|fuel IH]; intros h cursor symbol h'; [done|].
  cbn [appendOverload].
  destruct (h !! cursor) as [[?|func|?]|] eqn:Hcursor; [done| |done..].
  destruct (nextOverload func) as [next|] eqn:Hnext.
  - apply IH.
  - intros [= <-]. by eauto.
Qed.

(** The three ways [insertSymbolicObject] returns. *)
Lemma insertSymbolicObject_inv fuel m symbol w ok m' w' :
  insertSymbolicObject fuel m symbol w = Returned (ok, m', w') →
  ∃ symbolObj,
    heap w !! symbol = Some symbolObj
    ∧ ((m !! text (declaredPlace symbolObj) = None
        ∧ ok = true
        ∧ m' = <[text (declaredPlace symbolObj) := symbol]> m
        ∧ w' = w)
       ∨ (∃ hit hitObj,
            m !! text (declaredPlace symbolObj) = Some hit
            ∧ heap w !! hit = Some hitObj
            ∧ ¬ (symbolKind symbolObj = SymbolKind.Function
                 ∧ symbolKind hitObj = SymbolKind.Function)
            ∧ ok = false ∧ m' = m
            ∧ w' = addError (location (declaredPlace symbolObj))
                     ("Symbol '" ++ text (declaredPlace symbolObj)
                      ++ "' is already defined 💢") w)
       ∨ (∃ hit hitObj h',
            m !! text (declaredPlace symbolObj) = Some hit
            ∧ heap w !! hit = Some hitObj
            ∧ symbolKind symbolObj = SymbolKind.Function
            ∧ symbolKind hitObj = SymbolKind.Function
            ∧ appendOverload fuel (heap w) hit symbol = Returned h'
            ∧ ok = true ∧ m' = m ∧ w' = set_heap h' w)).
Proof.
  unfold insertSymbolicObject.
  destruct (heap w !! symbol) as [symbolObj|] eqn:Hsymbol; [|done].
  intros Hrun. exists symbolObj. split; [done|].
  destruct (m !! text (declaredPlace symbolObj)) as [hit|] eqn:Hhit.
  2:{ left. by injection Hrun as <- <- <-. }
  right.
  destruct (heap w !! hit) as [hitObj|] eqn:HhitObj; [|done].
  do 2 case_bool_decide; simpl in Hrun.
  - right. exists hit, hitObj.
    destruct (appendOverload fuel (heap w) hit symbol) as [h'| |]; [|done..].
    exists h'. by injection Hrun as <- <- <-.
  - left. exists hit, hitObj. injection Hrun as <- <- <-.
    repeat split; try done. by intros [_ ?].
  - left. exists hit, hitObj. injection Hrun as <- <- <-.
    repeat split; try done. by intros [? _].
  - left. exists hit, hitObj. injection Hrun as <- <- <-.
    repeat split; try done. by intros [? _].
Qed.

(** The first declaration of a name wins: whatever [insertSymbolicObject]
    returns, every entry of the map is still there with the symbol it had;
    the only entry that can be new is the inserted symbol under its own
    name, and it is there whenever the name was free. *)
Theorem insertSymbolicObject_first_wins fuel m symbol w symbolObj ok m' w' :
  heap w !! symbol = Some symbolObj →
  insertSymbolicObject fuel m symbol w = Returned (ok, m', w') →
  (∀ name hit, m !! name = Some hit → m' !! name = Some hit)
  ∧ (∀ name hit, m' !! name = Some hit →
       m !! name = Some hit
       ∨ (name = text (declaredPlace symbolObj) ∧ hit = symbol))
  ∧ (m !! text (declaredPlace symbolObj) = None →
     ok = true ∧ m' !! text (declaredPlace symbolObj) = Some symbol).
Proof.
  intros Hsymbol Hrun.
  apply insertSymbolicObject_inv in Hrun as (symbolObj' & Hsymbol' & Hcases).
  rewrite Hsymbol in Hsymbol'. injection Hsymbol' as <-.
  destruct Hcases as [(Hfree & -> & -> & ->)
                     |[(hit & hitObj & Hhit & _ & _ & -> & -> & ->)
                      |(hit & hitObj & h' & Hhit & _ & _ & _ & _ & -> & -> & ->)]].
  - repeat split.
    + intros name hit Hname. rewrite lookup_insert_ne; [done|].
      intros <-. by rewrite Hfree in Hname.
    + intros name hit.
      destruct (decide (text (declaredPlace symbolObj) = name)) as [<-|Hne].
      * rewrite lookup_insert_eq. intros [= <-]. by right.
      * rewrite lookup_insert_ne by done. by left.
    + by rewrite lookup_insert_eq.
  - split; [done|]. split; [by eauto|].
    intros Hfree. by rewrite Hhit in Hfree.
  - split; [done|]. split; [by eauto|].
    intros Hfree. by rewrite Hhit in Hfree.
Qed.

(** A successful insertion reports nothing; a rejected one adds exactly the
    already-defined diagnostic and changes neither the map nor any symbol
    object, and it happens only when the name is taken and the two symbols
    are not both functions. *)
Theorem insertSymbolicObject_reports_iff_rejected fuel m symbol w symbolObj
    ok m' w' :
  heap w !! symbol = Some symbolObj →
  insertSymbolicObject fuel m symbol w = Returned (ok, m', w') →
  if ok then diagnostics w' = diagnostics w
  else
    m' = m ∧ heap w' = heap w
    ∧ diagnostics w' = diagnostics w ++ [alreadyDefined symbolObj]
    ∧ ∃ hit hitObj,
        m !! text (declaredPlace symbolObj) = Some hit
        ∧ heap w !! hit = Some hitObj
        ∧ ¬ (symbolKind symbolObj = SymbolKind.Function
             ∧ symbolKind hitObj = SymbolKind.Function).
Proof.
  intros Hsymbol Hrun.
  apply insertSymbolicObject_inv in Hrun as (symbolObj' & Hsymbol' & Hcases).
  rewrite Hsymbol in Hsymbol'. injection Hsymbol' as <-.
  destruct Hcases as [(Hfree & -> & -> & ->)
                     |[(hit & hitObj & Hhit & HhitObj & Hkinds & -> & -> & ->)
                      |(hit & hitObj & h' & Hhit & _ & _ & _ & _ & -> & -> & ->)]].
  - done.
  - repeat split; try done. by eauto.
  - done.
Qed.

(** An insertion writes at most one field of one symbol object: the store is
    as it was, or the [nextOverload] of one function that had none now names
    the inserted symbol. *)
Theorem insertSymbolicObject_store_frame fuel m symbol w ok m' w' :
  insertSymbolicObject fuel m symbol w = Returned (ok, m', w') →
  heap w' = heap w
  ∨ ∃ tail func,
      heap w !! tail = Some (OFunction func)
      ∧ nextOverload func = None
      ∧ heap w' = <[tail := OFunction (set_nextOverload func symbol)]> (heap w).
Proof.
  intros Hrun.
  apply insertSymbolicObject_inv in Hrun as (symbolObj & Hsymbol & Hcases).
  destruct Hcases as [(Hfree & -> & -> & ->)
                     |[(hit & hitObj & Hhit & HhitObj & Hkinds & -> & -> & ->)
                      |(hit & hitObj & h' & _ & _ & _ & _ & Happend & -> & -> & ->)]].
  - by left.
  - by left.
  - right. by apply appendOverload_inv in Happend.
Qed.

Lemma appendOverload_cycle fuel h f func symbol :
  h !! f = Some (OFunction func) →
  nextOverload func = Some f →
  appendOverload fuel h f symbol = OutOfFuel.
Proof.
  intros Hf Hnext. induction fuel as [|fuel IH]; [done|].
  cbn [appendOverload]. by rewrite Hf, Hnext.
Qed.

(** Inserting the same function object twice is accepted both times and
    makes it its own next overload; from then on no insertion of a function
    under that name returns, whatever the fuel (the loop of
    [insertSymbolicObject] walks the cycle for ever). *)
Theorem insertSymbolicObject_twice_cycles fuel m w f fobj :
  heap w !! f = Some (OFunction fobj) →
  nextOverload fobj = None →
  m !! text (func_declaredPlace fobj) = None →
  ∃ m' w',
    insertSymbolicObject fuel m f w = Returned (true, m', w)
    ∧ insertSymbolicObject (S fuel) m' f w = Returned (true, m', w')
    ∧ heap w' !! f = Some (OFunction (set_nextOverload fobj f))
    ∧ ∀ fuel' g gobj,
        heap w' !! g = Some (OFunction gobj) →
        text (func_declaredPlace gobj) = text (func_declaredPlace fobj) →
        insertSymbolicObject fuel' m' g w' = OutOfFuel.
Proof.
  intros Hf Hnext Hfree.
  exists (<[text (func_declaredPlace fobj) := f]> m),
         (set_heap (<[f := OFunction (set_nextOverload fobj f)]> (heap w)) w).
  split; [|split; [|split]].
  - unfold insertSymbolicObject. rewrite Hf. simpl. by rewrite Hfree.
  - unfold insertSymbolicObject. rewrite Hf. simpl.
    rewrite lookup_insert_eq. simpl. rewrite Hf. simpl.
    by rewrite Hnext.
  - simpl. by rewrite lookup_insert_eq.
  - intros fuel' g gobj Hg Hname.
    unfold insertSymbolicObject. rewrite Hg. simpl.
    rewrite Hname, lookup_insert_eq. simpl. rewrite lookup_insert_eq. simpl.
    rewrite (appendOverload_cycle _ _ _ (set_nextOverload fobj f));
      [done| |done].
    simpl. by rewrite lookup_insert_eq.
Qed.

End InsertionFacts.

Section ScopeChains.

Import Symbolic.

Lemma scopeChain_unfold (inner : SymbolScope) :
  scopeChain inner
  = inner :: match parentScope inner with
             | Some parent => scopeChain parent
             | None => []
             end.
Proof. by destruct inner. Qed.

Lemma findSymbolWithParent_unfold (inner : SymbolScope) (identifier : string) :
  findSymbolWithParent inner identifier
  = match symbolMap inner !! identifier with
    | Some declared => Some {| symbol := declared; scope := inner |}
    | None =>
        match parentScope inner with
        | None => None
        | Some parent => findSymbolWithParent parent identifier
        end
    end.
Proof. by destruct inner. Qed.

(** The lookup along a chain of scopes, nearest first. *)
Lemma findSymbolWithParent_chain (n : nat) : ∀ inner identifier,
  length (scopeChain inner) ≤ n →
  match findSymbolWithParent inner identifier with
  | None => ∀ s, s ∈ scopeChain inner → symbolMap s !! identifier = None
  | Some found =>
      ∃ i, scopeChain inner !! i = Some (scope found)
           ∧ symbolMap (scope found) !! identifier = Some (symbol found)
           ∧ ∀ j s, j < i → scopeChain inner !! j = Some s →
                    symbolMap s !! identifier = None
  end.
Proof.
  induction n as [|n IH]; intros inner identifier Hlen.
  { rewrite scopeChain_unfold in Hlen. simpl in Hlen. lia. }
  rewrite findSymbolWithParent_unfold.
  rewrite scopeChain_unfold in Hlen |- *.
  destruct (symbolMap inner !! identifier) as [declared|] eqn:Hlocal.
  { exists 0. simpl. split; [done|]. split; [done|]. intros j s Hj. lia. }
  destruct (parentScope inner) as [parent|] eqn:Hparent.
  2:{ intros s Hs. apply list_elem_of_singleton in Hs. by subst s. }
  simpl in Hlen. specialize (IH parent identifier ltac:(lia)).
  destruct (findSymbolWithParent parent identifier) as [found|].
  - destruct IH as (i & Hi & Hfound & Hnearer).
    exists (S i). split; [done|]. split; [done|].
    intros [|j] s Hj Hs.
    + simpl in Hs. by injection Hs as <-.
    + simpl in Hs. apply (Hnearer j); [lia|done].
  - intros s Hs. apply elem_of_cons in Hs as [->|Hs]; [done|by apply IH].
Qed.

(** [findSymbolWithParent] answers with the nearest scope of the chain
    (the scope itself, then its ancestors outwards) that declares the
    identifier, and with the symbol that scope declares; it answers
    [undefined] exactly when no scope of the chain declares it. *)
Theorem findSymbolWithParent_nearest (inner : SymbolScope) (identifier : string) :
  match findSymbolWithParent inner identifier with
  | None => ∀ s, s ∈ scopeChain inner → symbolMap s !! identifier = None
  | Some found =>
      ∃ i, scopeChain inner !! i = Some (scope found)
           ∧ symbolMap (scope found) !! identifier = Some (symbol found)
           ∧ ∀ j s, j < i → scopeChain inner !! j = Some s →
                    symbolMap s !! identifier = None
  end.
Proof. by apply (findSymbolWithParent_chain (length (scopeChain inner))). Qed.

(** Declaring a new name in a scope: after [insertSymbolicObject] on the
    scope's own map, the lookup of that name from the scope answers with the
    new symbol and the scope itself, whatever its ancestors declare, and the
    lookup of any other name finds the symbol it found before. *)
Theorem insertSymbolicObject_then_find fuel inner declared declaredObj w :
  heap w !! declared = Some declaredObj →
  symbolMap inner !! text (declaredPlace declaredObj) = None →
  ∃ m',
    insertSymbolicObject fuel (symbolMap inner) declared w
    = Returned (true, m', w)
    ∧ findSymbolWithParent (withSymbolMap inner m')
                           (text (declaredPlace declaredObj))
      = Some {| symbol := declared; scope := withSymbolMap inner m' |}
    ∧ ∀ identifier,
        identifier ≠ text (declaredPlace declaredObj) →
        symbol <$> findSymbolWithParent (withSymbolMap inner m') identifier
        = symbol <$> findSymbolWithParent inner identifier.
Proof.
  intros Hdeclared Hfree. eexists. split; [|split].
  - unfold insertSymbolicObject. by rewrite Hdeclared, Hfree.
  - simpl. by rewrite lookup_insert_eq.
  - intros identifier Hne.
    rewrite (findSymbolWithParent_unfold inner). simpl.
    rewrite lookup_insert_ne by done.
    by destruct (symbolMap inner !! identifier).
Qed.

End ScopeChains.

Section TemplateLists.

Import Symbolic.

Implicit Types (ts : list (option (gmap TokenRef (option DeducedType)))).
Implicit Types (ty : DeducedType) (type : option DeducedType).

Lemma resolveTemplateTypes_cons t ts type :
  resolveTemplateTypes (t :: ts) type
  = resolveTemplateTypes ts (match t with
                             | Some t => resolveTemplateType t type
                             | None => type
                             end).
Proof. done. Qed.

(** [resolveTemplateTypes] applies the defined translations from left to
    right and skips the undefined ones. So [undefined] stays [undefined], a
    type that is no template parameter comes back as it is, a function type
    comes back only when every translation is undefined, and resolving by a
    concatenation is resolving by its parts in turn. *)
Theorem resolveTemplateTypes_composition ts :
  (∀ type, resolveTemplateTypes ts type
           = foldl (λ arg t, resolveTemplateType t arg) type
                   (definedTranslations ts))
  ∧ resolveTemplateTypes ts None = None
  ∧ (∀ ty symbolType_,
       symbolType ty = DType symbolType_ →
       sourceType symbolType_ ≠ SourcePrimitive PrimitiveType.Template →
       resolveTemplateTypes ts (Some ty) = Some ty)
  ∧ (∀ ty func,
       symbolType ty = DFunction func →
       resolveTemplateTypes ts (Some ty)
       = if bool_decide (definedTranslations ts = []) then Some ty else None)
  ∧ (∀ ts' type,
       resolveTemplateTypes (ts ++ ts') type
       = resolveTemplateTypes ts' (resolveTemplateTypes ts type)).
Proof.
  assert (∀ ts, resolveTemplateTypes ts None = None) as Hnone.
  { clear ts. intros ts. induction ts as [|[t|] ts IH]; [done|..];
      by rewrite resolveTemplateTypes_cons. }
  split; [|split; [|split; [|split]]].
  - induction ts as [|[t|] ts IH]; intros type; [done|..];
      rewrite resolveTemplateTypes_cons; by rewrite IH.
  - apply Hnone.
  - intros ty symbolType_ Hsymbol Hsource.
    induction ts as [|[t|] ts IH]; [done|..];
      rewrite resolveTemplateTypes_cons; [|done].
    unfold resolveTemplateType. rewrite Hsymbol.
    by rewrite bool_decide_eq_true_2.
  - intros ty func Hsymbol.
    induction ts as [|[t|] ts IH]; [done|..];
      rewrite resolveTemplateTypes_cons; [|done].
    unfold resolveTemplateType at 1. rewrite Hsymbol. by rewrite Hnone.
  - intros ts' type. apply foldl_app.
Qed.

End TemplateLists.

Section BuiltinLookup.

Import Symbolic.

(** Whenever [tryGetBuiltInType] returns a type, it is the singleton of the
    text of the token. *)
Lemma tryGetBuiltInType_Some (token : ParsingToken) (r : SymbolRef) :
  tryGetBuiltInType token = Passed (Some r) →
  kind token = TokenKind.Reserved ∧ builtinSingleton (text token) = Some r.
Proof.
  unfold tryGetBuiltInType, builtinSingleton, assignBuiltinNumberType.
  case_bool_decide as Hkind; [done|].
  intros Hrun. split; [by destruct (decide (kind token = TokenKind.Reserved))|].
  revert Hrun. cbv zeta.
  repeat (case_bool_decide; [by intros [= <-]|]).
  destruct (_ && _); [|done].
  destruct (builtinNumberTypeMap builtins !! text token); [|done].
  by intros [= <-].
Qed.

Lemma builtinSingleton_Some (name : string) (r : SymbolRef) :
  builtinSingleton name = Some r →
  ∃ type, builtinHeap builtins !! r = Some (OType type)
          ∧ text (type_declaredPlace type) = name
          ∧ sourceType type = SourcePrimitive (builtinPrimitive name).
Proof.
  intros Hr.
  destruct (decide (name ∈ builtinNames)) as [Hname|Hname].
  - destruct (builtinSingleton_named _ Hname) as (r' & type & Hr' & Hrest).
    rewrite Hr in Hr'. injection Hr' as <-. by exists type.
  - by rewrite builtinSingleton_other in Hr.
Qed.

(** What [tryGetBuiltInType] returns is never a stranger: a returned type
    is an object the module created at load time, declared under the very
    text of the token, and the token is reserved. Hence two tokens that get
    the same object have the same text: no two builtin names share an
    object, [int] and [int32] included. *)
Theorem tryGetBuiltInType_sound (token : ParsingToken) (r : SymbolRef) :
  tryGetBuiltInType token = Passed (Some r) →
  kind token = TokenKind.Reserved
  ∧ (∃ type, builtinHeap builtins !! r = Some (OType type)
             ∧ text (type_declaredPlace type) = text token
             ∧ sourceType type = SourcePrimitive (builtinPrimitive (text token)))
  ∧ ∀ other, tryGetBuiltInType other = Passed (Some r) →
             text other = text token.
Proof.
  intros Hrun. apply tryGetBuiltInType_Some in Hrun as [Hkind Hr].
  split; [done|]. split; [by apply builtinSingleton_Some|].
  intros other Hother. apply tryGetBuiltInType_Some in Hother as [_ Hr'].
  apply builtinSingleton_Some in Hr as (type & Hheap & Htext & _).
  apply builtinSingleton_Some in Hr' as (type' & Hheap' & Htext' & _).
  rewrite Hheap in Hheap'. injection Hheap' as <-. by rewrite <- Htext, Htext'.
Qed.

(** [tryGetBuiltInType] stops at [assert(false)] exactly on a reserved token
    that is flagged as a number although its text is no builtin name. The
    registry flags the numeric type names only, so on a token that carries
    the registry's flags the assertion never fails. *)
Theorem tryGetBuiltInType_assertion (token : ParsingToken) :
  (tryGetBuiltInType token = AssertionFailed
   ↔ kind token = TokenKind.Reserved
     ∧ TokenReserves.isNumber (property token) = true
     ∧ ¬ (text token ∈ builtinNames))
  ∧ (registered token → tryGetBuiltInType token ≠ AssertionFailed).
Proof.
  assert (tryGetBuiltInType token = AssertionFailed
          ↔ kind token = TokenKind.Reserved
            ∧ TokenReserves.isNumber (property token) = true
            ∧ ¬ (text token ∈ builtinNames)) as Hiff.
  { unfold tryGetBuiltInType, assignBuiltinNumberType. split.
    - case_bool_decide as Hkind; [done|].
      assert (kind token = TokenKind.Reserved) as Hreserved
        by (by destruct (decide (kind token = TokenKind.Reserved))).
      cbv zeta. intros Hrun. split; [done|]. revert Hrun.
      do 4 (case_bool_decide; [done|]).
      rewrite bool_decide_eq_true_2 by done. rewrite andb_true_l.
      destruct (TokenReserves.isNumber (property token)); [|done].
      destruct (builtinNumberTypeMap builtins !! text token) as [r|] eqn:Hr;
        [done|].
      intros _. split; [done|].
      intros Hname. apply elem_of_app in Hname as [Hname|Hname].
      + repeat (apply elem_of_cons in Hname as [Hname|Hname]; [done|]).
        by apply elem_of_nil in Hname.
      + apply builtinNumberTypeMap_dom in Hname as [r' Hr'].
        by rewrite Hr in Hr'.
    - intros (Hkind & Hnumber & Hname).
      rewrite bool_decide_eq_false_2 by (intros Hne; by apply Hne).
      cbv zeta.
      do 4 (case_bool_decide;
            [exfalso; apply Hname;
             match goal with Htext : text token = _ |- _ => rewrite Htext end;
             apply (bool_decide_unpack _); vm_compute; exact I|]).
      rewrite bool_decide_eq_true_2 by done. rewrite Hnumber, andb_true_l.
      destruct (builtinNumberTypeMap builtins !! text token) as [r|] eqn:Hr;
        [|done].
      exfalso. apply Hname, elem_of_app. right.
      apply builtinNumberTypeMap_dom. by eexists. }
  split; [done|].
  intros Hreg Hfail. apply Hiff in Hfail as (_ & Hnumber & Hname).
  rewrite (registry_isNumber _ _ Hreg) in Hnumber.
  apply bool_decide_eq_true in Hnumber.
  apply Hname, elem_of_app. by right.
Qed.

(** Of the builtin types only [auto] is an auto type: on the deduced type of
    a type that [tryGetBuiltInType] returned for a token,
    [isDeducedAutoType] answers whether the text of the token is [auto]. *)
Theorem isDeducedAutoType_builtin (token : ParsingToken) (r : SymbolRef)
    (type : SymbolicType) (sourceScope_ : option SymbolScope)
    (isHandler_ : option bool)
    (templateTranslate_ : option (gmap TokenRef (option DeducedType))) :
  tryGetBuiltInType token = Passed (Some r) →
  builtinHeap builtins !! r = Some (OType type) →
  isDeducedAutoType
    (Some {| symbolType := DType type; sourceScope := sourceScope_;
             isHandler := isHandler_;
             templateTranslate := templateTranslate_ |})
  = bool_decide (text token = "auto").
Proof.
  intros Hrun Hheap. apply tryGetBuiltInType_Some in Hrun as [_ Hr].
  apply builtinSingleton_Some in Hr as (type' & Hheap' & _ & Hsource).
  rewrite Hheap in Hheap'. injection Hheap' as <-.
  unfold isDeducedAutoType. simpl. rewrite Hsource. unfold builtinPrimitive.
  repeat case_bool_decide; try done; congruence.
Qed.

End BuiltinLookup.

(* ===================================================================== *)
(** * Properties of the earlier revision of symbolic.ts *)
(* ===================================================================== *)

Section EarlyLookups.

Import SymbolicEarly.

Lemma scopeChain_early_unfold (scope : SymbolScope) :
  scopeChain scope
  = scope :: match parentScope scope with
             | Some parent => scopeChain parent
             | None => []
             end.
Proof. by destruct scope. Qed.

Lemma findSymbolWithParent_early_unfold scope identifier kind :
  findSymbolWithParent scope identifier kind
  = match findSymbolWithParent_for (symbolList scope) identifier kind with
    | Some symbol => Some symbol
    | None =>
        match parentScope scope with
        | None => None
        | Some parent => findSymbolWithParent parent identifier kind
        end
    end.
Proof. by destruct scope. Qed.

Lemma findClassScopeWithParent_unfold scope identifier :
  findClassScopeWithParent scope identifier
  = match findClassScopeWithParent_for (childScopes scope) identifier with
    | Some child => Some (enterChild scope child)
    | None =>
        match parentScope scope with
        | None => None
        | Some parent => findClassScopeWithParent parent identifier
        end
    end.
Proof. by destruct scope. Qed.

Lemma findSymbolWithParent_for_spec symbols identifier kind :
  match findSymbolWithParent_for symbols identifier kind with
  | Some symbol => symbol ∈ symbols ∧ declares identifier kind symbol
  | None => ∀ symbol, symbol ∈ symbols → ¬ declares identifier kind symbol
  end.
Proof.
  induction symbols as [|symbol symbols IH]; cbn [findSymbolWithParent_for].
  { intros symbol Hin. by apply elem_of_nil in Hin. }
  assert (¬ declares identifier kind symbol →
          match findSymbolWithParent_for symbols identifier kind with
          | Some found =>
              found ∈ symbol :: symbols ∧ declares identifier kind found
          | None =>
              ∀ other, other ∈ symbol :: symbols →
                       ¬ declares identifier kind other
          end) as Hskip.
  { intros Hno.
    destruct (findSymbolWithParent_for symbols identifier kind) as [found|].
    - destruct IH as [Hin Hfound]. split; [by apply list_elem_of_further|done].
    - intros other Hin. apply elem_of_cons in Hin as [->|Hin]; [done|].
      by apply IH. }
  case_bool_decide as Hkind.
  { apply Hskip. by intros [Hk _]. }
  destruct (declaredPlace symbol) as [place|] eqn:Hplace.
  2:{ apply Hskip. intros [_ (place & Hp & _)]. by rewrite Hplace in Hp. }
  case_bool_decide as Htext.
  - split; [apply list_elem_of_here|]. split.
    + by destruct (decide (symbolKind symbol = kind)).
    + by exists place.
  - apply Hskip. intros [_ (place' & Hp & Ht)].
    rewrite Hplace in Hp. by injection Hp as <-.
Qed.

Lemma findSymbolWithParent_early_chain (n : nat) : ∀ scope identifier kind,
  length (scopeChain scope) ≤ n →
  match findSymbolWithParent scope identifier kind with
  | Some symbol =>
      declares identifier kind symbol
      ∧ ∃ i s, scopeChain scope !! i = Some s
               ∧ symbol ∈ symbolList s
               ∧ ∀ j s' other, j < i → scopeChain scope !! j = Some s' →
                   other ∈ symbolList s' → ¬ declares identifier kind other
  | None =>
      ∀ s symbol, s ∈ scopeChain scope → symbol ∈ symbolList s →
                  ¬ declares identifier kind symbol
  end.
Proof.
  induction n as [|n IH]; intros scope identifier kind Hlen.
  { rewrite scopeChain_early_unfold in Hlen. simpl in Hlen. lia. }
  rewrite findSymbolWithParent_early_unfold.
  rewrite scopeChain_early_unfold in Hlen |- *.
  pose proof (findSymbolWithParent_for_spec (symbolList scope) identifier kind)
    as Hlocal.
  destruct (findSymbolWithParent_for (symbolList scope) identifier kind)
    as [symbol|].
  { destruct Hlocal as [Hin Hdecl]. split; [done|].
    exists 0, scope. split; [done|]. split; [done|]. intros j s' other Hj. lia. }
  destruct (parentScope scope) as [parent|] eqn:Hparent.
  2:{ intros s symbol Hs. apply list_elem_of_singleton in Hs. subst s.
      apply Hlocal. }
  simpl in Hlen. specialize (IH parent identifier kind ltac:(lia)).
  destruct (findSymbolWithParent parent identifier kind) as [symbol|].
  - destruct IH as (Hdecl & i & s & Hi & Hin & Hnearer).
    split; [done|]. exists (S i), s. split; [done|]. split; [done|].
    intros [|j] s' other Hj Hs'.
    + simpl in Hs'. injection Hs' as <-. apply Hlocal.
    + simpl in Hs'. apply (Hnearer j); [lia|done].
  - intros s symbol Hs. apply elem_of_cons in Hs as [->|Hs].
    + apply Hlocal.
    + by apply IH.
Qed.


(** The lookup by kind answers with a symbol of the kind asked for that is
    declared under the identifier, taken from the nearest scope of the chain
    (the scope, then its ancestors outwards) that lists such a symbol; a
    symbol of another kind or without a declaring token is passed over, so
    it shadows nothing. The answer is [undefined] exactly when no scope of
    the chain lists such a symbol. *)
Theorem findSymbolWithParent_by_kind scope identifier kind :
  match findSymbolWithParent scope identifier kind with
  | Some symbol =>
      declares identifier kind symbol
      ∧ ∃ i s, scopeChain scope !! i = Some s
               ∧ symbol ∈ symbolList s
               ∧ ∀ j s' other, j < i → scopeChain scope !! j = Some s' →
                   other ∈ symbolList s' → ¬ declares identifier kind other
  | None =>
      ∀ s symbol, s ∈ scopeChain scope → symbol ∈ symbolList s →
                  ¬ declares identifier kind symbol
  end.
Proof. by apply (findSymbolWithParent_early_chain (length (scopeChain scope))). Qed.

Lemma findSymbolWithParent_kind scope identifier kind symbol :
  findSymbolWithParent scope identifier kind = Some symbol →
  symbolKind symbol = kind.
Proof.
  intros Hfound.
  pose proof (findSymbolWithParent_early_chain
                (length (scopeChain scope)) scope identifier kind
                ltac:(done)) as Hchain.
  rewrite Hfound in Hchain. by destruct Hchain as [[Hkind _] _].
Qed.

(** The casts of the typed lookups are sound: what
    [findSymbolicTypeWithParent] returns is a type, what
    [findSymbolicFunctionWithParent] returns is a function and what
    [findSymbolicVariableWithParent] returns is a variable. And a reserved
    token named [bool], [void] or as a numeric type gets its builtin type
    whatever the scope declares: these names cannot be shadowed. *)
Theorem typed_lookups_sound dummyToken scope :
  (∀ token symbol,
     findSymbolicTypeWithParent dummyToken scope token = Some symbol →
     symbolKind symbol = SymbolKind.Type_)
  ∧ (∀ identifier symbol,
       findSymbolicFunctionWithParent scope identifier = Some symbol →
       symbolKind symbol = SymbolKind.Function)
  ∧ (∀ identifier symbol,
       findSymbolicVariableWithParent scope identifier = Some symbol →
       symbolKind symbol = SymbolKind.Variable_)
  ∧ (∀ token other,
       kind token = TokenKind.Reserved →
       text token ∈ "bool" :: "void" :: numberTypeSet →
       findSymbolicTypeWithParent dummyToken scope token
       = findSymbolicTypeWithParent dummyToken other token
       ∧ ∃ type,
           findSymbolicTypeWithParent dummyToken scope token = Some (OType type)
           ∧ type_declaredPlace type = Some dummyToken).
Proof.
  split; [|split; [|split]].
  - intros token symbol. unfold findSymbolicTypeWithParent. cbv zeta.
    repeat case_bool_decide;
      try (by intros [= <-]); apply findSymbolWithParent_kind.
  - intros identifier symbol. apply findSymbolWithParent_kind.
  - intros identifier symbol. apply findSymbolWithParent_kind.
  - intros token other Hkind Htext.
    unfold findSymbolicTypeWithParent. cbv zeta.
    rewrite !(bool_decide_eq_true_2 (kind token = TokenKind.Reserved)) by done.
    case_bool_decide; [by eauto|].
    case_bool_decide; [by eauto|].
    case_bool_decide as Hnumber; [by eauto|].
    exfalso. apply Hnumber.
    apply elem_of_cons in Htext as [?|Htext]; [done|].
    apply elem_of_cons in Htext as [?|Htext]; done.
Qed.

Lemma findClassScopeWithParent_for_spec children identifier :
  match findClassScopeWithParent_for children identifier with
  | Some child =>
      child ∈ children ∧ classNamed identifier (child_ownerNode child)
  | None =>
      ∀ child, child ∈ children →
               ¬ classNamed identifier (child_ownerNode child)
  end.
Proof.
  induction children as [|child children IH];
    cbn [findClassScopeWithParent_for].
  { intros child Hin. by apply elem_of_nil in Hin. }
  assert (¬ classNamed identifier (child_ownerNode child) →
          match findClassScopeWithParent_for children identifier with
          | Some found =>
              found ∈ child :: children
              ∧ classNamed identifier (child_ownerNode found)
          | None =>
              ∀ other, other ∈ child :: children →
                       ¬ classNamed identifier (child_ownerNode other)
          end) as Hskip.
  { intros Hno.
    destruct (findClassScopeWithParent_for children identifier) as [found|].
    - destruct IH as [Hin Hfound]. split; [by apply list_elem_of_further|done].
    - intros other Hin. apply elem_of_cons in Hin as [->|Hin]; [done|].
      by apply IH. }
  destruct (child_ownerNode child) as [[identifier_| |token]|] eqn:Howner;
    try (apply Hskip; by intros (? & [=] & _)).
  case_bool_decide as Htext.
  - split; [apply list_elem_of_here|]. rewrite Howner. by exists identifier_.
  - apply Hskip. by intros (? & [= <-] & ?).
Qed.

Lemma findNamespaceScope_for_spec children identifier :
  match findNamespaceScope_for children identifier with
  | Some child =>
      child ∈ children ∧ namespaceNamed identifier (child_ownerNode child)
  | None =>
      ∀ child, child ∈ children →
               ¬ namespaceNamed identifier (child_ownerNode child)
  end.
Proof.
  induction children as [|child children IH];
    cbn [findNamespaceScope_for].
  { intros child Hin. by apply elem_of_nil in Hin. }
  assert (¬ namespaceNamed identifier (child_ownerNode child) →
          match findNamespaceScope_for children identifier with
          | Some found =>
              found ∈ child :: children
              ∧ namespaceNamed identifier (child_ownerNode found)
          | None =>
              ∀ other, other ∈ child :: children →
                       ¬ namespaceNamed identifier (child_ownerNode other)
          end) as Hskip.
  { intros Hno.
    destruct (findNamespaceScope_for children identifier) as [found|].
    - destruct IH as [Hin Hfound]. split; [by apply list_elem_of_further|done].
    - intros other Hin. apply elem_of_cons in Hin as [->|Hin]; [done|].
      by apply IH. }
  destruct (child_ownerNode child) as [[identifier_| |token]|] eqn:Howner;
    try (apply Hskip; by intros (? & [=] & _)).
  case_bool_decide as Htext.
  - split; [apply list_elem_of_here|]. rewrite Howner. by exists token.
  - apply Hskip. by intros (? & [= <-] & ?).
Qed.

Lemma findClassScopeWithParent_chain (n : nat) : ∀ scope identifier,
  length (scopeChain scope) ≤ n →
  match findClassScopeWithParent scope identifier with
  | Some found =>
      classNamed identifier (ownerNode found)
      ∧ ∃ i s child,
          scopeChain scope !! i = Some s
          ∧ child ∈ childScopes s
          ∧ found = enterChild s child
          ∧ ∀ j s' other, j < i → scopeChain scope !! j = Some s' →
              other ∈ childScopes s' →
              ¬ classNamed identifier (child_ownerNode other)
  | None =>
      ∀ s child, s ∈ scopeChain scope → child ∈ childScopes s →
                 ¬ classNamed identifier (child_ownerNode child)
  end.
Proof.
  induction n as [|n IH]; intros scope identifier Hlen.
  { rewrite scopeChain_early_unfold in Hlen. simpl in Hlen. lia. }
  rewrite findClassScopeWithParent_unfold.
  rewrite scopeChain_early_unfold in Hlen |- *.
  pose proof (findClassScopeWithParent_for_spec (childScopes scope) identifier)
    as Hlocal.
  destruct (findClassScopeWithParent_for (childScopes scope) identifier)
    as [child|].
  { destruct Hlocal as [Hin Hclass]. split; [done|].
    exists 0, scope, child. split; [done|]. split; [done|]. split; [done|].
    intros j s' other Hj. lia. }
  destruct (parentScope scope) as [parent|] eqn:Hparent.
  2:{ intros s child Hs. apply list_elem_of_singleton in Hs. subst s.
      apply Hlocal. }
  simpl in Hlen. specialize (IH parent identifier ltac:(lia)).
  destruct (findClassScopeWithParent parent identifier) as [found|].
  - destruct IH as (Hclass & i & s & child & Hi & Hin & Hfound & Hnearer).
    split; [done|]. exists (S i), s, child.
    split; [done|]. split; [done|]. split; [done|].
    intros [|j] s' other Hj Hs'.
    + simpl in Hs'. injection Hs' as <-. apply Hlocal.
    + simpl in Hs'. apply (Hnearer j); [lia|done].
  - intros s child Hs. apply elem_of_cons in Hs as [->|Hs].
    + apply Hlocal.
    + by apply IH.
Qed.

(** [findClassScopeWithParent] answers with the scope of a class of that
    name, a child of the nearest scope of the chain that has one; function
    scopes, namespaces and scopes without owner are passed over. It answers
    [undefined] exactly when no scope of the chain has such a child. *)
Theorem findClassScopeWithParent_nearest scope identifier :
  match findClassScopeWithParent scope identifier with
  | Some found =>
      classNamed identifier (ownerNode found)
      ∧ ∃ i s child,
          scopeChain scope !! i = Some s
          ∧ child ∈ childScopes s
          ∧ found = enterChild s child
          ∧ ∀ j s' other, j < i → scopeChain scope !! j = Some s' →
              other ∈ childScopes s' →
              ¬ classNamed identifier (child_ownerNode other)
  | None =>
      ∀ s child, s ∈ scopeChain scope → child ∈ childScopes s →
                 ¬ classNamed identifier (child_ownerNode child)
  end.
Proof. by apply (findClassScopeWithParent_chain (length (scopeChain scope))). Qed.

Lemma collectParentScopes_while_chain (n : nat) : ∀ result current,
  length (scopeChain current) ≤ n →
  collectParentScopes_while result current
  = result ++ tail (scopeChain current).
Proof.
  induction n as [|n IH]; intros result current Hlen.
  { rewrite scopeChain_early_unfold in Hlen. simpl in Hlen. lia. }
  rewrite scopeChain_early_unfold in Hlen |- *. simpl in *.
  destruct current as [owner [parent|] children symbols]; simpl in *.
  - rewrite IH by lia. rewrite <- app_assoc. simpl.
    by rewrite (scopeChain_early_unfold parent).
  - by rewrite app_nil_r.
Qed.

Lemma collectParentScopes_chain scope :
  scope :: collectParentScopes scope = scopeChain scope.
Proof.
  unfold collectParentScopes.
  rewrite (collectParentScopes_while_chain (length (scopeChain scope))) by done.
  by rewrite (scopeChain_early_unfold scope).
Qed.

Lemma scopeChain_parent : ∀ i scope a,
  scopeChain scope !! i = Some a →
  scopeChain scope !! S i = parentScope a.
Proof.
  induction i as [|i IH]; intros scope a; rewrite scopeChain_early_unfold.
  - intros [= <-]. simpl.
    destruct (parentScope scope) as [parent|]; [|done].
    by rewrite scopeChain_early_unfold.
  - simpl. destruct (parentScope scope) as [parent|]; [|done]. apply IH.
Qed.

Lemma scopeChain_last (n : nat) : ∀ scope,
  length (scopeChain scope) ≤ n →
  last (scopeChain scope) = Some (findGlobalScope scope)
  ∧ parentScope (findGlobalScope scope) = None.
Proof.
  induction n as [|n IH]; intros scope Hlen.
  { rewrite scopeChain_early_unfold in Hlen. simpl in Hlen. lia. }
  rewrite scopeChain_early_unfold in Hlen |- *.
  destruct scope as [owner [parent|] children symbols]; simpl in *.
  - destruct (IH parent ltac:(lia)) as [Hlast Hroot]. split; [|done].
    rewrite <- Hlast. by rewrite (scopeChain_early_unfold parent).
  - done.
Qed.

(** [collectParentScopes] lists the ancestors of a scope from the parent
    outwards: in the scope followed by the list, every entry's successor is
    its [parentScope], and the last entry is the scope without parent, which
    is the one [findGlobalScope] returns. *)
Theorem collectParentScopes_ancestors scope :
  (∀ i a, (scope :: collectParentScopes scope) !! i = Some a →
          (scope :: collectParentScopes scope) !! S i = parentScope a)
  ∧ last (scope :: collectParentScopes scope) = Some (findGlobalScope scope)
  ∧ parentScope (findGlobalScope scope) = None.
Proof.
  rewrite collectParentScopes_chain. split.
  - intros i a. apply scopeChain_parent.
  - by apply (scopeChain_last (length (scopeChain scope))).
Qed.

(** [findNamespaceScopeWithParent] finds a namespace only among the children
    of the scope itself. When the scope has no such child, the search goes
    on in the ancestors with [findClassScopeWithParent], so what it then
    returns is the scope of a class of that name, a child of an ancestor,
    and a namespace of an ancestor is never found. *)
Theorem findNamespaceScopeWithParent_ancestors scope identifier found :
  findNamespaceScopeWithParent scope identifier = Some found →
  (namespaceNamed identifier (ownerNode found)
   ∧ parentScope found = Some scope)
  ∨ (classNamed identifier (ownerNode found)
     ∧ (∀ child, child ∈ childScopes scope →
                 ¬ namespaceNamed identifier (child_ownerNode child))
     ∧ ∃ ancestor, parentScope found = Some ancestor
                   ∧ ancestor ∈ collectParentScopes scope).
Proof.
  unfold findNamespaceScopeWithParent.
  pose proof (findNamespaceScope_for_spec (childScopes scope) identifier)
    as Hlocal.
  destruct (findNamespaceScope_for (childScopes scope) identifier) as [child|].
  { intros [= <-]. left. by destruct Hlocal. }
  destruct (parentScope scope) as [parent|] eqn:Hparent; [|done].
  intros Hfound. right.
  pose proof (findClassScopeWithParent_chain
                (length (scopeChain parent)) parent identifier ltac:(done))
    as Hchain.
  rewrite Hfound in Hchain.
  destruct Hchain as (Hclass & i & s & child & Hi & _ & -> & _).
  split; [done|]. split; [done|]. exists s. split; [done|].
  apply (list_elem_of_lookup_2 _ i).
  assert (scopeChain scope = scope :: scopeChain parent) as Hunfold
    by (by rewrite scopeChain_early_unfold, Hparent).
  pose proof (collectParentScopes_chain scope) as Hcollect.
  rewrite Hunfold in Hcollect. by injection Hcollect as ->.
Qed.

End EarlyLookups.

(* ===================================================================== *)
(** * Further properties of the parser (parser.ts) *)
(* ===================================================================== *)

Section ParserMonotone.

Import Parser.

Variable tokens : list TokenObject.

Lemma laterState_refl st : laterState st st.
Proof. by repeat split. Qed.

Lemma laterState_trans st1 st2 st3 :
  laterState st1 st2 → laterState st2 st3 → laterState st1 st3.
Proof.
  intros (Hp1 & Hd1 & Hh1) (Hp2 & Hd2 & Hh2). repeat split.
  - lia.
  - by etrans.
  - by etrans.
Qed.

Lemma monotone_ret {A} (a : A) : monotone (ret a).
Proof. intros st. apply laterState_refl. Qed.

Lemma monotone_outOfFuel {A} : monotone (@outOfFuel A).
Proof. by intros st. Qed.

Lemma monotone_bind {A B} (m : M A) (k : A → M B) :
  monotone m → (∀ a, monotone (k a)) → monotone (bind m k).
Proof.
  intros Hm Hk st. unfold bind. specialize (Hm st).
  destruct (m st) as [[a st1]| |]; [|done..].
  specialize (Hk a st1). destruct (k a st1) as [[b st2]| |]; [|done..].
  by eapply laterState_trans.
Qed.

Lemma monotone_isEnd : monotone (isEnd tokens).
Proof. intros st. apply laterState_refl. Qed.

Lemma monotone_next : monotone (next tokens).
Proof.
  intros st. unfold next.
  destruct (nextToken tokens (pos st)); [apply laterState_refl|done].
Qed.

Lemma monotone_step : monotone step.
Proof. intros st. repeat split; simpl; [lia|done..]. Qed.

Lemma monotone_addError location message : monotone (addError location message).
Proof. intros st. repeat split; simpl; [done|by apply prefix_app_r|done]. Qed.

Lemma monotone_setHighlight analyzeToken analyzedModifier :
  monotone (setHighlight tokens analyzeToken analyzedModifier).
Proof.
  intros st. repeat split; simpl; [done..|].
  rewrite dom_insert. set_solver.
Qed.

Create HintDb mono.

#[local] Hint Resolve monotone_ret monotone_outOfFuel monotone_isEnd
  monotone_next monotone_step monotone_addError monotone_setHighlight : mono.

Ltac mono :=
  repeat (intros;
          match goal with
          | |- monotone (bind _ _) => apply monotone_bind
          | |- monotone (if ?b then _ else _) => destruct b
          | |- monotone (match ?x with _ => _ end) => destruct x
          | |- monotone _ => solve [eauto with mono]
          end).

Lemma monotone_confirm analyzeToken analyzedModifier :
  monotone (confirm tokens analyzeToken analyzedModifier).
Proof. unfold confirm. mono. Qed.

#[local] Hint Resolve monotone_confirm : mono.

Lemma monotone_expect word analyzeToken analyzedModifier :
  monotone (expect tokens word analyzeToken analyzedModifier).
Proof. unfold expect. mono. Qed.

#[local] Hint Resolve monotone_expect : mono.

Lemma monotone_parseDATATYPE : monotone (parseDATATYPE tokens).
Proof. unfold parseDATATYPE. mono. Qed.

#[local] Hint Resolve monotone_parseDATATYPE : mono.

Lemma monotone_parseTYPE : monotone (parseTYPE tokens).
Proof. unfold parseTYPE. mono. Qed.

Lemma monotone_parseFOR : monotone (parseFOR tokens).
Proof. unfold parseFOR. mono. Qed.

Lemma monotone_parseEXPRVALUE : monotone (parseEXPRVALUE tokens).
Proof. unfold parseEXPRVALUE. mono. Qed.

#[local] Hint Resolve monotone_parseTYPE monotone_parseFOR
  monotone_parseEXPRVALUE : mono.

Lemma monotone_parseEXPRTERM2 : monotone (parseEXPRTERM2 tokens).
Proof. unfold parseEXPRTERM2. mono. Qed.

#[local] Hint Resolve monotone_parseEXPRTERM2 : mono.

Lemma monotone_parseEXPRTERM : monotone (parseEXPRTERM tokens).
Proof. unfold parseEXPRTERM. mono. Qed.

Lemma monotone_parseEXPROP : monotone (parseEXPROP tokens).
Proof. unfold parseEXPROP. mono. Qed.

Lemma monotone_parseASSIGNOP : monotone (parseASSIGNOP tokens).
Proof. unfold parseASSIGNOP. mono. Qed.

#[local] Hint Resolve monotone_parseEXPRTERM monotone_parseEXPROP
  monotone_parseASSIGNOP : mono.

Lemma monotone_parseEXPR fuel : monotone (parseEXPR tokens fuel).
Proof. induction fuel as [|fuel IH]; cbn [parseEXPR]; mono. Qed.

#[local] Hint Resolve monotone_parseEXPR : mono.

Lemma monotone_parseCONDITION fuel : monotone (parseCONDITION tokens fuel).
Proof. unfold parseCONDITION. mono. Qed.

#[local] Hint Resolve monotone_parseCONDITION : mono.

Lemma monotone_parseASSIGN fuel : monotone (parseASSIGN tokens fuel).
Proof. induction fuel as [|fuel IH]; cbn [parseASSIGN]; mono. Qed.

#[local] Hint Resolve monotone_parseASSIGN : mono.

Lemma monotone_parseRETURN fuel : monotone (parseRETURN tokens fuel).
Proof. unfold parseRETURN. mono. Qed.

#[local] Hint Resolve monotone_parseRETURN : mono.

Lemma monotone_statements fuel :
  monotone (parseSTATEMENT tokens fuel)
  ∧ monotone (parseWHILE tokens fuel)
  ∧ monotone (parseIF tokens fuel).
Proof.
  induction fuel as [|fuel (IHs & IHw & IHi)];
    (split; [|split]); cbn [parseSTATEMENT parseWHILE parseIF]; mono.
Qed.

Lemma monotone_parseSTATEMENT fuel : monotone (parseSTATEMENT tokens fuel).
Proof. apply monotone_statements. Qed.

Lemma monotone_parseWHILE fuel : monotone (parseWHILE tokens fuel).
Proof. apply monotone_statements. Qed.

Lemma monotone_parseIF fuel : monotone (parseIF tokens fuel).
Proof. apply monotone_statements. Qed.

#[local] Hint Resolve monotone_parseSTATEMENT monotone_parseWHILE
  monotone_parseIF : mono.

Lemma monotone_parseVAR fuel : monotone (parseVAR tokens fuel).
Proof. unfold parseVAR. mono. Qed.

#[local] Hint Resolve monotone_parseVAR : mono.

Lemma monotone_parseSTATBLOCK_turn fuel statements :
  monotone (parseSTATBLOCK_turn tokens fuel statements).
Proof. unfold parseSTATBLOCK_turn. mono. Qed.

#[local] Hint Resolve monotone_parseSTATBLOCK_turn : mono.

Lemma monotone_parseSTATBLOCK_while fuel : ∀ statements,
  monotone (parseSTATBLOCK_while tokens fuel statements).
Proof. induction fuel as [|fuel IH]; cbn [parseSTATBLOCK_while]; mono. Qed.

#[local] Hint Resolve monotone_parseSTATBLOCK_while : mono.

Lemma monotone_parseSTATBLOCK fuel : monotone (parseSTATBLOCK tokens fuel).
Proof. unfold parseSTATBLOCK. mono. Qed.

Lemma monotone_parsePARAMLIST_for fuel : ∀ params,
  monotone (parsePARAMLIST_for tokens fuel params).
Proof. induction fuel as [|fuel IH]; cbn [parsePARAMLIST_for]; mono. Qed.

#[local] Hint Resolve monotone_parseSTATBLOCK monotone_parsePARAMLIST_for : mono.

Lemma monotone_parsePARAMLIST fuel : monotone (parsePARAMLIST tokens fuel).
Proof. unfold parsePARAMLIST. mono. Qed.

#[local] Hint Resolve monotone_parsePARAMLIST : mono.

Lemma monotone_parseFUNC fuel : monotone (parseFUNC tokens fuel).
Proof. unfold parseFUNC. mono. Qed.

#[local] Hint Resolve monotone_parseFUNC : mono.

Lemma monotone_parseSCRIPT_turn fuel funcs :
  monotone (parseSCRIPT_turn tokens fuel funcs).
Proof. unfold parseSCRIPT_turn. mono. Qed.

#[local] Hint Resolve monotone_parseSCRIPT_turn : mono.

Lemma monotone_parseSCRIPT_while fuel : ∀ funcs,
  monotone (parseSCRIPT_while tokens fuel funcs).
Proof. induction fuel as [|fuel IH]; cbn [parseSCRIPT_while]; mono. Qed.

#[local] Hint Resolve monotone_parseSCRIPT_while : mono.

Lemma monotone_parseSCRIPT fuel : monotone (parseSCRIPT tokens fuel).
Proof. unfold parseSCRIPT. mono. Qed.

(** No production ever moves the cursor back, drops or reorders a diagnostic
    that was reported, or removes a highlight: whatever it returns, from
    whatever state and on whatever tokens, the state it leaves is a later
    state of the one it started in. *)
Theorem productions_leave_later_state fuel :
  monotone (parseSCRIPT tokens fuel)
  ∧ monotone (parseFUNC tokens fuel)
  ∧ monotone (parsePARAMLIST tokens fuel)
  ∧ monotone (parseSTATBLOCK tokens fuel)
  ∧ monotone (parseVAR tokens fuel)
  ∧ monotone (parseSTATEMENT tokens fuel)
  ∧ monotone (parseIF tokens fuel)
  ∧ monotone (parseWHILE tokens fuel)
  ∧ monotone (parseRETURN tokens fuel)
  ∧ monotone (parseASSIGN tokens fuel)
  ∧ monotone (parseEXPR tokens fuel)
  ∧ monotone (parseTYPE tokens)
  ∧ ∀ word analyzeToken analyzedModifier,
      monotone (expect tokens word analyzeToken analyzedModifier).
Proof.
  split; [apply monotone_parseSCRIPT|].
  repeat split; eauto with mono.
Qed.

End ParserMonotone.

Section ParserContracts.

Import Parser.

Variable tokens : list TokenObject.

Lemma next_Ok st tok :
  nextToken tokens (pos st) = Some tok → next tokens st = Ok (tok, st).
Proof. unfold next. by intros ->. Qed.

(** [expect(word)] returns [true] exactly when the cursor is inside the
    array on a reserved token with that text; it then consumes that token,
    highlights it and reports nothing. Otherwise it returns [false], leaves
    the cursor and the highlights alone, and reports exactly one diagnostic,
    at the location of the token [next()] returns. *)
Theorem expect_contract word analyzeToken analyzedModifier st tok :
  nextToken tokens (pos st) = Some tok →
  ∃ st',
    expect tokens word analyzeToken analyzedModifier st
    = Ok (bool_decide (expected tokens word st tok), st')
    ∧ if bool_decide (expected tokens word st tok) then
        pos st' = S (pos st)
        ∧ diagnostics st' = diagnostics st
        ∧ ∃ info, highlight st' = <[pos st := info]> (highlight st)
                  ∧ token info = analyzeToken
      else
        pos st' = pos st
        ∧ highlight st' = highlight st
        ∧ ∃ message,
            diagnostics st' = diagnostics st ++ [(location tok, message)].
Proof.
  intros Htok. unfold expect, expected, bind, isEnd.
  case_bool_decide as Hend.
  - rewrite (next_Ok _ _ Htok). simpl.
    rewrite bool_decide_eq_false_2 by lia.
    eexists. split; [done|]. simpl. by eauto.
  - rewrite (next_Ok _ _ Htok). simpl.
    case_bool_decide as Hkind; simpl.
    { rewrite bool_decide_eq_false_2 by (by intros (_ & Hk & _)).
      eexists. split; [done|]. simpl. by eauto. }
    case_bool_decide as Htext; simpl.
    { rewrite bool_decide_eq_false_2 by (by intros (_ & _ & Ht)).
      eexists. split; [done|]. simpl. by eauto. }
    rewrite bool_decide_eq_true_2.
    2:{ split; [lia|]. split; [|by destruct (decide (text tok = word))].
        by destruct (decide (kind tok = TokenKind.Reserved)). }
    unfold confirm, bind. rewrite (next_Ok _ _ Htok). simpl.
    eexists. split; [done|]. simpl. repeat split.
    unfold nextIndex. rewrite bool_decide_eq_false_2 by lia.
    by eauto.
Qed.

(** [parseTYPE] takes whatever token [next()] returns as a type name:
    it never returns [null], consumes exactly one position and reports
    nothing, whatever the kind or text of the token and even past the end. *)
Theorem parseTYPE_accepts_any_token st tok :
  nextToken tokens (pos st) = Some tok →
  ∃ st',
    parseTYPE tokens st
    = Ok (Some {| type_isConst := false; type_scope := None;
                  type_datatype := {| datatype_identifier := tok |};
                  type_generics := []; type_isArray := false;
                  type_isRef := false |}, st')
    ∧ pos st' = S (pos st)
    ∧ diagnostics st' = diagnostics st.
Proof.
  intros Htok. unfold parseTYPE, parseDATATYPE, bind.
  rewrite (next_Ok _ _ Htok). simpl.
  rewrite (next_Ok _ _ Htok). simpl.
  case_bool_decide; unfold confirm, bind; rewrite (next_Ok _ _ Htok); simpl;
    by eauto.
Qed.


Lemma next_inv st tok st' :
  next tokens st = Ok (tok, st') →
  st' = st ∧ nextToken tokens (pos st) = Some tok.
Proof.
  unfold next. destruct (nextToken tokens (pos st)); [|done].
  intros [= -> ->]. done.
Qed.

(** An expression term takes one token for its value, one more for a prefix
    operator and one more for a suffix, and nothing else: with a node the
    cursor has moved by the width of the node (at most three), the value is
    not a reserved word and nothing is reported; without a node the cursor
    has moved by at most the prefix and exactly one diagnostic is added. *)
Theorem parseEXPRTERM2_width st r st' :
  parseEXPRTERM2 tokens st = Ok (r, st') →
  match r with
  | Some term =>
      pos st' = pos st + termWidth term
      ∧ kind (term_exprvalue term) ≠ TokenKind.Reserved
      ∧ diagnostics st' = diagnostics st
  | None =>
      pos st' ≤ S (pos st)
      ∧ ∃ location,
          diagnostics st'
          = diagnostics st ++ [(location, "Expected expression value")]
  end.
Proof.
  unfold parseEXPRTERM2, parseEXPRVALUE, confirm, bind, next, setHighlight,
    step, addError, ret, termWidth.
  intros Hrun.
  repeat (case_match; simplify_eq/=; try done);
    repeat split; try lia; try (by eauto);
    try by (intros Hk; rewrite Hk in *; by case_bool_decide).
Qed.


Lemma parseTYPE_inv st r st' :
  parseTYPE tokens st = Ok (r, st') →
  ∃ type, r = Some type
          ∧ nextToken tokens (pos st)
            = Some (datatype_identifier (type_datatype type))
          ∧ pos st' = S (pos st).
Proof.
  unfold parseTYPE, parseDATATYPE, confirm, bind, next, setHighlight, step,
    ret.
  intros Hrun.
  repeat (case_match; simplify_eq/=; try done); by eauto.
Qed.

(** [parseFUNC] never returns [null]: whatever the two tokens at the cursor
    are, the first becomes the return type and the second the name of a
    function node. *)
Theorem parseFUNC_never_null fuel st r st' :
  parseFUNC tokens fuel st = Ok (r, st') →
  ∃ func, r = Some func
          ∧ nextToken tokens (pos st)
            = Some (datatype_identifier (type_datatype (func_returnType func)))
          ∧ nextToken tokens (S (pos st)) = Some (func_identifier func).
Proof.
  unfold parseFUNC, bind. intros Hrun.
  destruct (parseTYPE tokens st) as [[ret_ st1]| |] eqn:Htype; [|done..].
  apply parseTYPE_inv in Htype as (type & -> & Htok & Hpos).
  destruct (next tokens st1) as [[identifier st2]| |] eqn:Hnext; [|done..].
  apply next_inv in Hnext as [-> Hid]. simpl in Hrun.
  destruct (parsePARAMLIST tokens fuel _) as [[paramlist st3]| |]; [|done..].
  destruct (parseSTATBLOCK tokens fuel _) as [[statblock st4]| |]; [|done..].
  injection Hrun as <- <-. eexists. split; [done|]. simpl.
  by rewrite <- Hpos.
Qed.

Lemma parseSTATEMENT_at_else fuel st tok r st' :
  nextToken tokens (pos st) = Some tok →
  text tok = "else" →
  parseSTATEMENT tokens fuel st = Ok (r, st') →
  r = mismatch ∧ st' = st.
Proof.
  intros Htok Htext.
  destruct fuel as [|[|fuel]]; [done..|].
  cbn [parseSTATEMENT parseIF parseWHILE].
  unfold parseFOR, parseRETURN, bind.
  do 4 (rewrite (next_Ok _ _ Htok), Htext; simpl).
  by intros [= <- <-].
Qed.

(** [parseIF] never builds an alternative. When the token after the
    consequent is [else], [parseSTATEMENT] is called with the cursor still on
    [else], which starts no statement; so every if node has [fs = null]. *)
Theorem parseIF_never_else fuel st condition ts fs st' :
  parseIF tokens fuel st = Ok (parsed (Build_NodeIF condition ts fs), st') →
  fs = None.
Proof.
  destruct fuel as [|fuel]; [done|].
  cbn [parseIF]. unfold bind. intros Hrun.
  destruct (next tokens st) as [[tok st0]| |]; [|done..].
  case_bool_decide; [done|]. simpl in Hrun.
  destruct (expect tokens "(" _ _ _) as [[opened st2]| |]; [|done..].
  destruct (parseASSIGN tokens fuel st2) as [[[assign|] st3]| |]; [|done..].
  destruct (expect tokens ")" _ _ _) as [[closed st4]| |]; [|done..].
  destruct (parseSTATEMENT tokens fuel st4) as [[[| |ts'] st5]| |]; [done..| | |];
    [|done..].
  destruct (next tokens st5) as [[tok' st6]| |] eqn:Hnext; [|done..].
  apply next_inv in Hnext as [-> Htok'].
  case_bool_decide as Helse; [|by injection Hrun as <- <- <- <-].
  destruct (parseSTATEMENT tokens fuel st5) as [[fs' st7]| |] eqn:Hfs; [|done..].
  apply (parseSTATEMENT_at_else _ _ _ _ _ Htok' Helse) in Hfs as [-> ->].
  by injection Hrun as <- <- <- <-.
Qed.

(** One step through a run that is known to return: a call is taken by
    cases on what it returns, a test by cases on its outcome. *)
Ltac walk :=
  repeat (cbv beta;
          match goal with
          | |- bind _ _ _ = _ → _ => unfold bind at 1
          | |- match ?run with
               | Ok _ => _ | OutOfFuel => _ | TypeError => _
               end = _ → _ =>
              destruct run as [[? ?]| |]; [|done..]
          | |- (if ?b then _ else _) _ = _ → _ => destruct b
          | |- match ?x with Some _ => _ | None => _ end _ = _ → _ =>
              destruct x
          | |- match ?x with
               | mismatch => _ | pending => _ | parsed _ => _
               end _ = _ → _ =>
              destruct x
          | |- ret _ _ = _ → _ => unfold ret; intros ?; simplify_eq/=
          end).

Lemma parseSTATBLOCK_turn_appends fuel statements st statements' st' :
  parseSTATBLOCK_turn tokens fuel statements st = Ok (Some statements', st') →
  statements `prefix_of` statements'.
Proof.
  unfold parseSTATBLOCK_turn. walk; try done; by apply prefix_app_r.
Qed.

Lemma parseSTATBLOCK_while_appends fuel : ∀ statements st statements' st',
  parseSTATBLOCK_while tokens fuel statements st = Ok (statements', st') →
  statements `prefix_of` statements'.
Proof.
  induction fuel as [|fuel IH]; intros statements st statements' st'; [done|].
  cbn [parseSTATBLOCK_while]. unfold bind, isEnd.
  case_bool_decide; [by intros [= <- <-]|].
  destruct (parseSTATBLOCK_turn tokens fuel statements st)
    as [[[statements1|] st1]| |] eqn:Hturn; [| |done..].
  - intros Hrest. etrans; [|by eapply IH].
    by eapply parseSTATBLOCK_turn_appends.
  - by intros [= <- <-].
Qed.

Lemma parsePARAMLIST_for_appends fuel : ∀ params st params' st',
  parsePARAMLIST_for tokens fuel params st = Ok (params', st') →
  params `prefix_of` params'.
Proof.
  induction fuel as [|fuel IH]; intros params st params' st'; [done|].
  cbn [parsePARAMLIST_for]. walk; try done.
  all: intros Hrest; apply IH in Hrest;
    (etrans; [|exact Hrest]); by apply prefix_app_r.
Qed.

Lemma parseSCRIPT_turn_appends fuel funcs st funcs' st' :
  parseSCRIPT_turn tokens fuel funcs st = Ok (funcs', st') →
  ∃ func, funcs' = funcs ++ [func].
Proof.
  unfold parseSCRIPT_turn, bind.
  destruct (parseFUNC tokens fuel st) as [[r st1]| |] eqn:Hfunc; [|done..].
  apply parseFUNC_never_null in Hfunc as (func & -> & _).
  intros [= <- <-]. by exists func.
Qed.

Lemma parseSCRIPT_while_appends fuel : ∀ funcs st funcs' st',
  parseSCRIPT_while tokens fuel funcs st = Ok (funcs', st') →
  funcs `prefix_of` funcs'.
Proof.
  induction fuel as [|fuel IH]; intros funcs st funcs' st'; [done|].
  cbn [parseSCRIPT_while]. unfold bind, isEnd.
  case_bool_decide; [by intros [= <- <-]|].
  destruct (parseSCRIPT_turn tokens fuel funcs st) as [[funcs1 st1]| |]
    eqn:Hturn; [|done..].
  apply parseSCRIPT_turn_appends in Hturn as [func ->].
  intros Hrest. apply IH in Hrest.
  etrans; [|exact Hrest]. by apply prefix_app_r.
Qed.

(** The loops only append. What [parseSTATBLOCK], [parsePARAMLIST] and
    [parseSCRIPT] have collected so far is never dropped or reordered by a
    later turn, whatever goes wrong in it, and every turn of the script loop
    appends exactly one function node. *)
Theorem loops_only_append fuel :
  (∀ statements st statements' st',
     parseSTATBLOCK_while tokens fuel statements st = Ok (statements', st') →
     statements `prefix_of` statements')
  ∧ (∀ params st params' st',
       parsePARAMLIST_for tokens fuel params st = Ok (params', st') →
       params `prefix_of` params')
  ∧ (∀ funcs st funcs' st',
       parseSCRIPT_while tokens fuel funcs st = Ok (funcs', st') →
       funcs `prefix_of` funcs')
  ∧ (∀ funcs st funcs' st',
       parseSCRIPT_turn tokens fuel funcs st = Ok (funcs', st') →
       ∃ func, funcs' = funcs ++ [func]).
Proof.
  split; [apply parseSTATBLOCK_while_appends|].
  split; [apply parsePARAMLIST_for_appends|].
  split; [apply parseSCRIPT_while_appends|].
  apply parseSCRIPT_turn_appends.
Qed.

Lemma parseSCRIPT_while_end fuel : ∀ funcs st funcs' st',
  parseSCRIPT_while tokens fuel funcs st = Ok (funcs', st') →
  length tokens ≤ pos st'.
Proof.
  induction fuel as [|fuel IH]; intros funcs st funcs' st'; [done|].
  cbn [parseSCRIPT_while]. unfold bind, isEnd.
  case_bool_decide as Hend.
  - by intros [= <- <-].
  - destruct (parseSCRIPT_turn tokens fuel funcs st) as [[funcs1 st1]| |];
      [|done..].
    apply IH.
Qed.


End ParserContracts.

Section ParserRuns.

Import Parser.

Lemma operators_registered (word : string) :
  word ∈ expropCandidates ++ assignopCandidates ++ ["if"; "while"] →
  is_Some (TokenReserves.reservedWordProperties !! word).
Proof.
  revert word. apply Forall_forall.
  repeat (apply Forall_cons; split; [by eexists; vm_compute|]).
  apply Forall_nil_2.
Qed.

Lemma classifiedByRegistry_final tokens :
  classifiedByRegistry tokens → finalTokenClassified tokens.
Proof.
  intros Hclassified final Hlast Hkind.
  assert (¬ is_Some (TokenReserves.reservedWordProperties !! text final))
    as Hfree.
  { intros Hreg. apply Hkind, Hclassified; [|done].
    by apply last_Some_elem_of. }
  repeat split; intros Hin; apply Hfree, operators_registered.
  - apply elem_of_app. by left.
  - apply elem_of_app. right. apply elem_of_app. by left.
  - rewrite Hin. apply (bool_decide_unpack _). vm_compute. exact I.
  - rewrite Hin. apply (bool_decide_unpack _). vm_compute. exact I.
Qed.

(** Whenever [parseFromTokens] returns, the cursor is at or past the end of
    the token array: no token is left unread. *)
Theorem parseFromTokens_consumes_all tokens fuel script st' :
  parseFromTokens fuel tokens = Ok (script, st') →
  length tokens ≤ pos st'.
Proof.
  unfold parseFromTokens, parseSCRIPT, bind. intros Hrun.
  destruct (parseSCRIPT_while tokens fuel [] initialState)
    as [[funcs st1]| |] eqn:Hwhile; [|done..].
  injection Hrun as _ <-. by eapply parseSCRIPT_while_end.
Qed.

(** On the output of the tokenizer, where every token whose text is a word
    of the registry of [tokenReserves.ts] is of the reserved kind,
    [parseFromTokens] returns a script, for every fuel from
    [4 * length tokens + 6] on. *)
Theorem parseFromTokens_returns_on_classified tokens fuel :
  classifiedByRegistry tokens →
  4 * length tokens + 6 ≤ fuel →
  ∃ script st', parseFromTokens fuel tokens = Ok (script, st').
Proof.
  intros Hclassified Hfuel.
  destruct (decide (tokens = [])) as [->|Hne].
  { destruct fuel as [|fuel]; [simpl in Hfuel; lia|].
    rewrite parseFromTokens_empty. by eauto. }
  unfold parseFromTokens.
  destruct (spec_returns _ _ _ _ (parseSCRIPT_spec tokens Hne fuel initialState))
    as (script & st' & Hrun & _).
  - split; [by apply classifiedByRegistry_final|].
    unfold remaining. simpl. lia.
  - by eauto.
Qed.

(** The two committed outcomes of a statement production, ['pending'] and a
    node, always leave the cursor strictly further than it was. *)
Theorem committed_outcomes_advance tokens fuel st st' :
  (∀ r, parseIF tokens fuel st = Ok (r, st') → r ≠ mismatch →
        pos st < pos st')
  ∧ (∀ r, parseWHILE tokens fuel st = Ok (r, st') → r ≠ mismatch →
          pos st < pos st')
  ∧ (∀ r, parseRETURN tokens fuel st = Ok (r, st') → r ≠ mismatch →
          pos st < pos st')
  ∧ (∀ r, parseSTATEMENT tokens fuel st = Ok (r, st') → r ≠ mismatch →
          pos st < pos st').
Proof.
  destruct (decide (tokens = [])) as [->|Hne].
  { repeat split; intros r Hrun; exfalso; revert Hrun.
    - destruct fuel; by vm_compute.
    - destruct fuel; by vm_compute.
    - by vm_compute.
    - destruct fuel as [|[|fuel]]; by vm_compute. }
  repeat split; intros r Hrun Hr.
  - pose proof (spec_result _ _ _ _ _ _ (parseIF_spec tokens Hne fuel st) Hrun).
    by destruct r.
  - pose proof (spec_result _ _ _ _ _ _ (parseWHILE_spec tokens Hne fuel st) Hrun).
    by destruct r.
  - pose proof (spec_result _ _ _ _ _ _ (parseRETURN_spec tokens Hne fuel st) Hrun).
    by destruct r.
  - pose proof (spec_result _ _ _ _ _ _ (parseSTATEMENT_spec tokens Hne fuel st) Hrun).
    by destruct r.
Qed.

End ParserRuns.

(* ===================================================================== *)
(** * The further theorems at concrete inputs *)
(* ===================================================================== *)

Section SymbolTableWitnesses.

Import Symbolic.

(** The first [f] inserted into an empty map. *)
Lemma insertSymbolicObject_first_wins_witness :
  (∀ name hit, (∅ : gmap string SymbolRef) !! name = Some hit →
               ({[ "f" := 1%positive ]} : gmap string SymbolRef) !! name
               = Some hit)
  ∧ (∀ name hit,
       ({[ "f" := 1%positive ]} : gmap string SymbolRef) !! name = Some hit →
       (∅ : gmap string SymbolRef) !! name = Some hit
       ∨ (name = text (declaredPlace (functionDeclaredAt 1))
          ∧ hit = 1%positive))
  ∧ ((∅ : gmap string SymbolRef) !! text (declaredPlace (functionDeclaredAt 1))
     = None →
     true = true
     ∧ ({[ "f" := 1%positive ]} : gmap string SymbolRef)
         !! text (declaredPlace (functionDeclaredAt 1))
       = Some 1%positive).
Proof.
  apply (insertSymbolicObject_first_wins 0 ∅ 1%positive threeOverloads
           (functionDeclaredAt 1) true {[ "f" := 1%positive ]} threeOverloads).
  - reflexivity.
  - reflexivity.
Defined.

(** A class [x] inserted where the variable [x] is already declared. *)
Lemma insertSymbolicObject_reports_iff_rejected_witness :
  ∃ w',
    insertSymbolicObject 0 {[ "x" := 1%positive ]} 2%positive variableThenClass
    = Returned (false, {[ "x" := 1%positive ]}, w')
    ∧ heap w' = heap variableThenClass
    ∧ diagnostics w' = [alreadyDefined classX].
Proof.
  assert (insertSymbolicObject 0 {[ "x" := 1%positive ]} 2%positive
            variableThenClass
          = Returned (false, {[ "x" := 1%positive ]},
                      addError (location (declaredPlace classX))
                        "Symbol 'x' is already defined 💢" variableThenClass))
    as Hrun by (vm_compute; reflexivity).
  assert (heap variableThenClass !! 2%positive = Some classX) as Hclass
    by reflexivity.
  destruct (insertSymbolicObject_reports_iff_rejected
              _ _ _ _ classX _ _ _ Hclass Hrun)
    as (_ & Hheap & Hdiagnostics & _).
  eexists. split; [exact Hrun|]. by split.
Defined.

(** A second [f] inserted behind the first: the first now names it. *)
Lemma insertSymbolicObject_store_frame_witness :
  ∃ m' w',
    insertSymbolicObject 1 {[ "f" := 1%positive ]} 2%positive threeOverloads
    = Returned (true, m', w')
    ∧ (heap w' = heap threeOverloads
       ∨ ∃ tail func,
           heap threeOverloads !! tail = Some (OFunction func)
           ∧ nextOverload func = None
           ∧ heap w'
             = <[tail := OFunction (set_nextOverload func 2%positive)]>
                 (heap threeOverloads)).
Proof.
  eexists _, _.
  refine ((λ Hrun, conj Hrun
             (insertSymbolicObject_store_frame _ _ _ _ _ _ _ Hrun)) _).
  vm_compute. reflexivity.
Defined.

(** The first [f] inserted twice into an empty map. *)
Lemma insertSymbolicObject_twice_cycles_witness :
  ∃ m' w',
    insertSymbolicObject 0 ∅ 1%positive threeOverloads
    = Returned (true, m', threeOverloads)
    ∧ insertSymbolicObject 1 m' 1%positive threeOverloads
      = Returned (true, m', w')
    ∧ heap w' !! 1%positive
      = Some (OFunction
                (set_nextOverload
                   {| func_declaredPlace := declaredAt TokenKind.Identifier "f" 1;
                      nextOverload := None;
                      func_isInstanceMember := false |} 1%positive))
    ∧ ∀ fuel' g gobj,
        heap w' !! g = Some (OFunction gobj) →
        text (func_declaredPlace gobj) = "f" →
        insertSymbolicObject fuel' m' g w' = OutOfFuel.
Proof.
  apply (insertSymbolicObject_twice_cycles 0 ∅ threeOverloads 1%positive
           {| func_declaredPlace := declaredAt TokenKind.Identifier "f" 1;
              nextOverload := None;
              func_isInstanceMember := false |}).
  - reflexivity.
  - reflexivity.
  - reflexivity.
Defined.

(** [f] declared in the method scope, which declares [x] only. *)
Lemma insertSymbolicObject_then_find_witness :
  ∃ m',
    insertSymbolicObject 0 (symbolMap methodScope) 1%positive threeOverloads
    = Returned (true, m', threeOverloads)
    ∧ findSymbolWithParent (withSymbolMap methodScope m') "f"
      = Some {| symbol := 1%positive; scope := withSymbolMap methodScope m' |}
    ∧ ∀ identifier,
        identifier ≠ "f" →
        symbol <$> findSymbolWithParent (withSymbolMap methodScope m') identifier
        = symbol <$> findSymbolWithParent methodScope identifier.
Proof.
  apply (insertSymbolicObject_then_find 0 methodScope 1%positive
           (functionDeclaredAt 1) threeOverloads).
  - reflexivity.
  - reflexivity.
Defined.

(** The token [int] of line 1 gets the object declared under [int]. *)
Lemma tryGetBuiltInType_sound_witness :
  ∃ r,
    tryGetBuiltInType (declaredAt TokenKind.Reserved "int" 1) = Passed (Some r)
    ∧ ∃ type, builtinHeap builtins !! r = Some (OType type)
              ∧ text (type_declaredPlace type) = "int"
              ∧ sourceType type = SourcePrimitive PrimitiveType.Number.
Proof.
  eexists.
  refine ((λ Hrun, conj Hrun
             (proj1 (proj2 (tryGetBuiltInType_sound _ _ Hrun)))) _).
  vm_compute. reflexivity.
Defined.

(** A reserved [while] that is flagged as a number fails the assertion. *)
Lemma tryGetBuiltInType_assertion_witness :
  tryGetBuiltInType misflaggedToken = AssertionFailed.
Proof.
  apply (proj1 (tryGetBuiltInType_assertion misflaggedToken)).
  split; [reflexivity|]. split; [reflexivity|].
  intros Hin. apply (bool_decide_pack _) in Hin. vm_compute in Hin.
  exact Hin.
Defined.

(** The builtin type of the token [auto] is an auto type. *)
Lemma isDeducedAutoType_builtin_witness :
  isDeducedAutoType
    (Some {| symbolType :=
               DType (createBuiltinType
                        (createVirtualToken TokenKind.Reserved "auto" 17)
                        PrimitiveType.Auto);
             sourceScope := None; isHandler := None;
             templateTranslate := None |})
  = bool_decide (text (declaredAt TokenKind.Reserved "auto" 1) = "auto").
Proof.
  apply (isDeducedAutoType_builtin
           (declaredAt TokenKind.Reserved "auto" 1) (builtinAutoType builtins)).
  - vm_compute. reflexivity.
  - vm_compute. reflexivity.
Defined.

End SymbolTableWitnesses.

Section EarlyWitnesses.

Import SymbolicEarly.

(** [Util] looked up as a namespace from the scope of [main]: the global
    scope holds a namespace [Util] and a class [Util], and the class is what
    is found. *)
Lemma findNamespaceScopeWithParent_ancestors_witness :
  findNamespaceScopeWithParent mainScope "Util"
  = Some (enterChild globalScope utilClass)
  ∧ ((namespaceNamed "Util" (ownerNode (enterChild globalScope utilClass))
      ∧ parentScope (enterChild globalScope utilClass) = Some mainScope)
     ∨ (classNamed "Util" (ownerNode (enterChild globalScope utilClass))
        ∧ (∀ child, child ∈ childScopes mainScope →
                    ¬ namespaceNamed "Util" (child_ownerNode child))
        ∧ ∃ ancestor,
            parentScope (enterChild globalScope utilClass) = Some ancestor
            ∧ ancestor ∈ collectParentScopes mainScope)).
Proof.
  refine ((λ Hrun, conj Hrun
             (findNamespaceScopeWithParent_ancestors _ _ _ Hrun)) _).
  reflexivity.
Defined.

End EarlyWitnesses.

Section ParserContractWitnesses.

Import Parser.

(** [expect("if")] at the start of [if ( a ) ;]. *)
Lemma expect_contract_witness :
  ∃ st',
    expect ifWithoutStatement "if" HighlightToken.Keyword None initialState
    = Ok (bool_decide (expected ifWithoutStatement "if" initialState
                                (reservedToken "if")), st')
    ∧ if bool_decide (expected ifWithoutStatement "if" initialState
                               (reservedToken "if")) then
        pos st' = S (pos initialState)
        ∧ diagnostics st' = diagnostics initialState
        ∧ ∃ info, highlight st'
                  = <[pos initialState := info]> (highlight initialState)
                  ∧ token info = HighlightToken.Keyword
      else
        pos st' = pos initialState
        ∧ highlight st' = highlight initialState
        ∧ ∃ message,
            diagnostics st'
            = diagnostics initialState
              ++ [(location (reservedToken "if"), message)].
Proof.
  apply (expect_contract ifWithoutStatement "if" HighlightToken.Keyword None
           initialState (reservedToken "if")).
  reflexivity.
Defined.

(** The keyword [if] taken as a type name. *)
Lemma parseTYPE_accepts_any_token_witness :
  ∃ st',
    parseTYPE ifWithoutStatement initialState
    = Ok (Some {| type_isConst := false; type_scope := None;
                  type_datatype := {| datatype_identifier := reservedToken "if" |};
                  type_generics := []; type_isArray := false;
                  type_isRef := false |}, st')
    ∧ pos st' = S (pos initialState)
    ∧ diagnostics st' = diagnostics initialState.
Proof.
  apply (parseTYPE_accepts_any_token ifWithoutStatement initialState
           (reservedToken "if")).
  reflexivity.
Defined.

(** [if ( a ) ;] read as a function: [if] is its return type, [(] its name. *)
Lemma parseFUNC_never_null_witness :
  ∃ r st',
    parseFUNC ifWithoutStatement 20 initialState = Ok (r, st')
    ∧ ∃ func,
        r = Some func
        ∧ nextToken ifWithoutStatement (pos initialState)
          = Some (datatype_identifier (type_datatype (func_returnType func)))
        ∧ nextToken ifWithoutStatement (S (pos initialState))
          = Some (func_identifier func).
Proof.
  eexists _, _.
  refine ((λ Hrun, conj Hrun (parseFUNC_never_null _ _ _ _ _ Hrun)) _).
  vm_compute. reflexivity.
Defined.

(** The term [a .] of [a . b . c ( )]: two tokens wide. *)
Lemma parseEXPRTERM2_width_witness :
  ∃ term st',
    parseEXPRTERM2 memberCallChain initialState = Ok (Some term, st')
    ∧ pos st' = pos initialState + termWidth term
    ∧ kind (term_exprvalue term) ≠ TokenKind.Reserved
    ∧ diagnostics st' = diagnostics initialState.
Proof.
  eexists _, _.
  refine ((λ Hrun, conj Hrun
             (parseEXPRTERM2_width memberCallChain initialState _ _ Hrun)) _).
  vm_compute. reflexivity.
Defined.

(** [if ( a ) return b ; else return c ;]: the node has no alternative. *)
Lemma parseIF_never_else_witness :
  ∃ condition ts fs st',
    parseIF ifThenElse 6 initialState
    = Ok (parsed (Build_NodeIF condition ts fs), st')
    ∧ fs = None.
Proof.
  eexists _, _, _, _.
  refine ((λ Hrun, conj Hrun
             (parseIF_never_else ifThenElse 6 initialState _ _ _ _ Hrun)) _).
  vm_compute. reflexivity.
Defined.

(** [void f ( ) { return a] is read to its end. *)
Lemma parseFromTokens_consumes_all_witness :
  ∃ script st',
    parseFromTokens 34 unfinishedReturn = Ok (script, st')
    ∧ length unfinishedReturn ≤ pos st'.
Proof.
  eexists _, _.
  refine ((λ Hrun, conj Hrun
             (parseFromTokens_consumes_all unfinishedReturn 34 _ _ Hrun)) _).
  vm_compute. reflexivity.
Defined.

(** [void f ( ) { return a]: its words of the registry are all reserved. *)
Lemma parseFromTokens_returns_on_classified_witness :
  classifiedByRegistry unfinishedReturn
  ∧ ∃ script st', parseFromTokens 34 unfinishedReturn = Ok (script, st').
Proof.
  assert (classifiedByRegistry unfinishedReturn) as Hclassified.
  { intros tok Hin.
    repeat (apply elem_of_cons in Hin as [->|Hin]);
      try reflexivity;
      try (intros [p Hp]; by vm_compute in Hp).
    by apply elem_of_nil in Hin. }
  split; [exact Hclassified|].
  refine (parseFromTokens_returns_on_classified unfinishedReturn 34
            Hclassified _).
  simpl. lia.
Defined.

(** [if ( a ) ;]: the committed-incomplete [if] has consumed four tokens. *)
Lemma committed_outcomes_advance_witness :
  ∃ st',
    parseIF ifWithoutStatement 4 initialState = Ok (pending, st')
    ∧ pos initialState < pos st'.
Proof.
  eexists.
  refine ((λ Hrun, conj Hrun
             (proj1 (committed_outcomes_advance ifWithoutStatement 4
                       initialState _) pending Hrun _)) _).
  - discriminate.
  - vm_compute. reflexivity.
Defined.

(** [if ( a ) ;] offered to [parseRETURN]: no-match, nothing has changed. *)
Lemma mismatch_contract_witness :
  ∃ st',
    parseRETURN ifWithoutStatement 4 initialState = Ok (mismatch, st')
    ∧ st' = initialState.
Proof.
  eexists.
  refine ((λ Hrun, conj Hrun
             (proj1 (proj2 (proj2 (proj2
                (mismatch_contract ifWithoutStatement 4 initialState _))))
                Hrun)) _).
  vm_compute. reflexivity.
Defined.

(** [void f ( ) { return a]: the script loop has appended one function. *)
Lemma loops_only_append_witness :
  ∃ funcs' st',
    parseSCRIPT_turn unfinishedReturn 33 [] initialState = Ok (funcs', st')
    ∧ ∃ func, funcs' = [] ++ [func].
Proof.
  eexists _, _.
  refine ((λ Hrun, conj Hrun
             (proj2 (proj2 (proj2 (loops_only_append unfinishedReturn 33)))
                _ _ _ _ Hrun)) _).
  vm_compute. reflexivity.
Defined.

End ParserContractWitnesses.
